(** * python-idb: the on-disk database reader of [idb/fileformat.py]

    A shallow embedding of the B-tree index (ID0), the per-byte flags
    map (ID1) and the container (IDB) of [idb/fileformat.py], with the
    properties of its specification stated over that embedding.

    Python integers are [Z]; [bytes] objects are lists of [Byte.byte];
    an exception is a value of [exn] carried by [result]. *)

From Stdlib Require Import String.
From Stdlib Require Import ZArith List Lia Bool Strings.Byte Sorted.
Import ListNotations.
Open Scope Z_scope.

(** ** Exceptions and results *)

(** The exception classes the module raises or lets escape.
    [StructError] is [struct.error] (a short buffer). *)
Inductive exn : Set :=
| KeyError
| IndexError
| ValueError
| AttributeError
| StructError
| NotImplementedError.

(** The outcome of a call: a returned value, a raised exception, or
    [OutOfFuel] when a loop without a bound in the source was cut by
    the fuel given to its model. *)
Inductive result (A : Type) : Type :=
| Ok (a : A)
| Raise (e : exn)
| OutOfFuel.

Arguments Ok {A} a.
Arguments Raise {A} e.
Arguments OutOfFuel {A}.

Definition bind {A B : Type} (m : result A) (k : A -> result B) : result B :=
  match m with
  | Ok a => k a
  | Raise e => Raise e
  | OutOfFuel => OutOfFuel
  end.

Notation "x <- m ;; k" := (bind m (fun x => k))
  (at level 61, m at next level, right associativity).
Notation "m ;;; k" := (bind m (fun _ => k))
  (at level 61, right associativity).

(** [try: m except e => h]: the handler runs for exception [e] only. *)
Definition try_except {A : Type} (m : result A) (e : exn) (h : result A)
  : result A :=
  match m with
  | Raise e' => match e, e' with
                | KeyError, KeyError
                | IndexError, IndexError
                | ValueError, ValueError
                | AttributeError, AttributeError
                | StructError, StructError
                | NotImplementedError, NotImplementedError => h
                | _, _ => m
                end
  | _ => m
  end.

(** ** Byte strings *)

Definition bytes : Set := list byte.

Definition b (s : string) : bytes := list_byte_of_string s.
Arguments b s%_string.

Definition byte_val (x : byte) : Z := Z.of_N (Byte.to_N x).

Definition byte_of_Z (z : Z) : byte :=
  match Byte.of_N (Z.to_N (z mod 256)) with
  | Some x => x
  | None => x00
  end.

(** Python's [==] on [bytes]. *)
Fixpoint bytes_eqb (x y : bytes) : bool :=
  match x, y with
  | [], [] => true
  | a :: x', c :: y' => (byte_val a =? byte_val c) && bytes_eqb x' y'
  | _, _ => false
  end.

(** Python's [<] on [bytes]: unsigned lexicographic order. *)
Fixpoint bytes_ltb (x y : bytes) : bool :=
  match x, y with
  | _, [] => false
  | [], _ :: _ => true
  | a :: x', c :: y' =>
      if byte_val a <? byte_val c then true
      else if byte_val a =? byte_val c then bytes_ltb x' y'
      else false
  end.

Definition bytes_gtb (x y : bytes) : bool := bytes_ltb y x.
Definition bytes_geb (x y : bytes) : bool := negb (bytes_ltb x y).

(** [bytes.startswith]. *)
Fixpoint startswith (x prefix : bytes) : bool :=
  match prefix, x with
  | [], _ => true
  | _ :: _, [] => false
  | c :: p', a :: x' => (byte_val a =? byte_val c) && startswith x' p'
  end.

(** Little-endian unsigned integer held by a byte string. *)
Fixpoint le_uint (bs : bytes) : Z :=
  match bs with
  | [] => 0
  | x :: rest => byte_val x + 256 * le_uint rest
  end.

(** [n] bytes of the little-endian encoding of [z] (a fixture helper:
    the reader never writes). *)
Fixpoint le_bytes (n : nat) (z : Z) : bytes :=
  match n with
  | O => []
  | S n' => byte_of_Z z :: le_bytes n' (z / 256)
  end.

(** Python's slice [buf[lo:hi]]: a negative bound counts from the end,
    and both bounds are clamped to the buffer. *)
Definition clamp (n i : Z) : Z :=
  if i <? 0 then Z.max (i + n) 0 else Z.min i n.

Definition slice {A : Type} (buf : list A) (lo hi : Z) : list A :=
  let n := Z.of_nat (length buf) in
  let lo := clamp n lo in
  let hi := clamp n hi in
  firstn (Z.to_nat (hi - lo)) (skipn (Z.to_nat lo) buf).

(** [struct.unpack_from(fmt, buffer, offset)[0]] for an unsigned
    little-endian format of [size] bytes.  A negative offset counts from
    the end of the buffer; too few bytes raise [struct.error]. *)
Definition unpack_from (size : Z) (buffer : bytes) (offset : Z) : result Z :=
  let n := Z.of_nat (length buffer) in
  let off := if offset <? 0 then offset + n else offset in
  if (off <? 0) || (n - off <? size) then Raise StructError
  else Ok (le_uint (slice buffer off (off + size))).

(** Python's [lst[i]]: a negative index counts from the end, an index
    outside the list raises [IndexError]. *)
Definition list_get {A : Type} (l : list A) (i : Z) : result A :=
  let n := Z.of_nat (length l) in
  let j := if i <? 0 then i + n else i in
  if (j <? 0) || (n <=? j) then Raise IndexError
  else match nth_error l (Z.to_nat j) with
       | Some a => Ok a
       | None => Raise IndexError
       end.

(** The field readers of the structure parser, on the buffer being
    parsed.  A field is the slice [buf[offset : offset + size]], so a
    negative offset counts from the end of the buffer as in any slice;
    an integer field is unpacked from the slice and needs all its bytes
    ([struct.error] otherwise), a byte field takes what is there. *)
Definition v_uint (size : Z) (buf : bytes) (offset : Z) : result Z :=
  let field := slice buf offset (offset + size) in
  if Z.of_nat (length field) =? size then Ok (le_uint field)
  else Raise StructError.

Definition v_bytes (buf : bytes) (offset size : Z) : result bytes :=
  Ok (slice buf offset (offset + size)).

(** ** The flag word ([class FLAGS] and the predicates of [IDB]) *)

Module FLAGS.
Definition MS_CLS  : Z := 0x00000600.
Definition FF_CODE : Z := 0x00000600.
Definition FF_DATA : Z := 0x00000400.
Definition FF_TAIL : Z := 0x00000200.
Definition FF_UNK  : Z := 0x00000000.
Definition MS_VAL  : Z := 0x000000FF.
Definition FF_IVL  : Z := 0x00000100.
Definition MS_COMM : Z := 0x000FF800.
Definition FF_COMM : Z := 0x00000800.
Definition FF_REF  : Z := 0x00001000.
Definition FF_LINE : Z := 0x00002000.
Definition FF_NAME : Z := 0x00004000.
Definition FF_LABL : Z := 0x00008000.
Definition FF_FLOW : Z := 0x00010000.
Definition FF_SIGN : Z := 0x00020000.
Definition FF_BNOT : Z := 0x00040000.
Definition FF_VAR  : Z := 0x00080000.
End FLAGS.

Definition hasValue (flags : Z) : bool := Z.land flags FLAGS.FF_IVL >? 0.
Definition isCode (flags : Z) : bool := Z.land flags FLAGS.MS_CLS =? FLAGS.FF_CODE.
Definition isData (flags : Z) : bool := Z.land flags FLAGS.MS_CLS =? FLAGS.FF_DATA.
Definition isTail (flags : Z) : bool := Z.land flags FLAGS.MS_CLS =? FLAGS.FF_TAIL.
Definition isHead (flags : Z) : bool := isCode flags || isData flags.
Definition isNotTail (flags : Z) : bool := negb (isTail flags).
Definition isUnknown (flags : Z) : bool := Z.land flags FLAGS.MS_CLS =? FLAGS.FF_UNK.

(** The predicates of the common bits: [flags & MS_COMM & FF_x > 0].
    [hasExtra], [hasRef] and [has_name] also print the masked flag word
    to the standard output; the embedding keeps the value returned. *)
Definition comm_bit (flags bit : Z) : bool :=
  Z.land (Z.land flags FLAGS.MS_COMM) bit >? 0.

Definition isFlow (flags : Z) : bool := comm_bit flags FLAGS.FF_FLOW.
Definition isVar (flags : Z) : bool := comm_bit flags FLAGS.FF_VAR.
Definition hasExtra (flags : Z) : bool := comm_bit flags FLAGS.FF_LINE.
Definition has_cmt (flags : Z) : bool := comm_bit flags FLAGS.FF_COMM.
Definition hasRef (flags : Z) : bool := comm_bit flags FLAGS.FF_REF.
Definition has_name (flags : Z) : bool := comm_bit flags FLAGS.FF_NAME.
Definition has_dummy_name (flags : Z) : bool := comm_bit flags FLAGS.FF_LABL.
Definition is_invsign (flags : Z) : bool := comm_bit flags FLAGS.FF_SIGN.
Definition is_bnot (flags : Z) : bool := comm_bit flags FLAGS.FF_BNOT.

(** ** ID1: the per-byte flags map *)

Record SegmentBounds : Set := mkBounds { start : Z; end_ : Z }.

Record SegmentDescriptor : Set := mkSegment { bounds : SegmentBounds; offset : Z }.

Module ID1.

Definition PAGE_SIZE : Z := 0x2000.

Record t : Set := mk {
  wordsize : Z;
  signature : bytes;
  unk04 : Z;
  segment_count : Z;
  unk0C : Z;
  page_count : Z;
  _segments : list SegmentBounds;
  buffer : bytes
}.

(** The [segment_count] elements of [_segments]; [SegmentBounds] is
    built with its default word size, two 32-bit words. *)
Fixpoint parse_segments (buf : bytes) (offset : Z) (todo : nat)
  : result (list SegmentBounds) :=
  match todo with
  | O => Ok []
  | S todo' =>
      s <- v_uint 4 buf offset ;;
      e <- v_uint 4 buf (offset + 4) ;;
      rest <- parse_segments buf (offset + 8) todo' ;;
      Ok (mkBounds s e :: rest)
  end.

(** [ID1(wordsize).vsParse(buf)]: the fields in declaration order,
    the array [_segments] of [segment_count] elements and [padding]
    sized by [pcb_segment_count], [buffer] by [pcb_page_count].  The
    descriptors that [pcb_segment_count] builds are [segments] below. *)
Definition vsParse (wordsize : Z) (buf : bytes) : result t :=
  signature <- v_bytes buf 0 0x04 ;;
  unk04 <- v_uint 4 buf 4 ;;
  segment_count <- v_uint 4 buf 8 ;;
  unk0C <- v_uint 4 buf 12 ;;
  page_count <- v_uint 4 buf 16 ;;
  _segments <- parse_segments buf 0x14 (Z.to_nat segment_count) ;;
  let padsize := PAGE_SIZE - (0x14 + segment_count * (2 * wordsize)) in
  let offset := 0x14 + segment_count * 8 + padsize in
  buffer <- v_bytes buf offset (PAGE_SIZE * page_count) ;;
  Ok (mk wordsize signature unk04 segment_count unk0C page_count
         _segments buffer).

(** [self['_segments'].vsAddElements(self.segment_count, SegmentBounds)]:
    the elements that [pcb_segment_count] adds to the array.  Both
    fields of a new element are 0; the parser fills them in place when
    it reaches the array, after the callback has returned. *)
Definition vsAddElements (segment_count : Z) : list SegmentBounds :=
  repeat (mkBounds 0 0) (Z.to_nat segment_count).

(** A descriptor as [pcb_segment_count] builds it.  Its [bounds] is the
    element of the array itself, not a copy of its fields: [element] is
    the index of that element in the array. *)
Record descriptor : Set := mkDescriptor { element : nat; offset_ : Z }.

(** The loop of [pcb_segment_count] over [range(self.segment_count)],
    on the elements as they stand when the callback runs: each turn
    first advances [offset] by the size of element [i], then appends
    the descriptor that holds element [i] with that offset. *)
Fixpoint segments_loop (elements : list SegmentBounds) (i : nat) (offset : Z)
         (segments : list descriptor) : list descriptor :=
  match elements with
  | [] => segments
  | segment :: rest =>
      let offset := offset + 4 * (end_ segment - start segment) in
      segments_loop rest (S i) offset (segments ++ [mkDescriptor i offset])
  end.

(** The parse callback of the field [segment_count]: it runs as soon as
    that field is parsed, before the parser reaches [_segments]. *)
Definition pcb_segment_count (segment_count : Z) : list descriptor :=
  segments_loop (vsAddElements segment_count) 0 0 [].

(** The attribute [self.segments] as it reads once the section is
    parsed: every descriptor with the element it holds, whose fields
    are by then those of the parsed table. *)
Definition segments (self : t) : list SegmentDescriptor :=
  map (fun d => mkSegment (nth (element d) (_segments self) (mkBounds 0 0))
                          (offset_ d))
      (pcb_segment_count (segment_count self)).

Definition contains (segment : SegmentDescriptor) (ea : Z) : bool :=
  (start (bounds segment) <=? ea) && (ea <? end_ (bounds segment)).

Fixpoint get_segment_in (segs : list SegmentDescriptor) (ea : Z)
  : result SegmentDescriptor :=
  match segs with
  | [] => Raise KeyError
  | segment :: rest =>
      if contains segment ea then Ok segment else get_segment_in rest ea
  end.

Definition get_segment (self : t) (ea : Z) : result SegmentDescriptor :=
  get_segment_in (segments self) ea.

(** The [for i, segment in enumerate(self.segments)] loop of
    [get_next_segment]; [all] is [self.segments], [i] the index of the
    head of [rest]. *)
Fixpoint get_next_segment_from (all rest : list SegmentDescriptor)
         (i : Z) (ea : Z) : result SegmentDescriptor :=
  match rest with
  | [] => Raise KeyError
  | segment :: rest' =>
      if contains segment ea then
        if i =? Z.of_nat (length all) then Raise IndexError
        else list_get all (i + 1)
      else get_next_segment_from all rest' (i + 1) ea
  end.

Definition get_next_segment (self : t) (ea : Z) : result SegmentDescriptor :=
  get_next_segment_from (segments self) (segments self) 0 ea.

Definition get_flags (self : t) (ea : Z) : result Z :=
  seg <- get_segment self ea ;;
  let offset := offset seg + 4 * (ea - start (bounds seg)) in
  unpack_from 4 (buffer self) offset.

Definition validate (self : t) : result bool :=
  if negb (bytes_eqb (signature self) (b "VA*" ++ [x00])) then Raise ValueError
  else if negb (unk04 self =? 0x3) then Raise ValueError
  else if negb (unk0C self =? 0x800) then Raise ValueError
  else if existsb (fun segment =>
                     start (bounds segment) >? end_ (bounds segment))
                  (segments self)
       then Raise ValueError
  else Ok true.

End ID1.

(** ** ID0: the B-tree index *)

Definition SIZEOF_ENTRY : Z := 0x6.

(** A decoded entry.  [LeafEntry] has no [page] attribute. *)
Inductive Entry : Set :=
| BranchEntry (page : Z) (key value : bytes)
| LeafEntry (key value : bytes).

Definition key (entry : Entry) : bytes :=
  match entry with
  | BranchEntry _ k _ => k
  | LeafEntry k _ => k
  end.

Definition value (entry : Entry) : bytes :=
  match entry with
  | BranchEntry _ _ v => v
  | LeafEntry _ v => v
  end.

Definition page (entry : Entry) : result Z :=
  match entry with
  | BranchEntry p _ _ => Ok p
  | LeafEntry _ _ => Raise AttributeError
  end.

Module Page.

Record t : Set := mk {
  ppointer : Z;
  entry_count : Z;
  contents : bytes
}.

Definition vsParse (page_size : Z) (buf : bytes) : result t :=
  ppointer <- v_uint 4 buf 0 ;;
  entry_count <- v_uint 2 buf 4 ;;
  contents <- v_bytes buf 6 page_size ;;
  Ok (mk ppointer entry_count contents).

Definition is_leaf (self : t) : bool := ppointer self =? 0.

(** The body shared by [BranchEntry] and [LeafEntry]:
    [key_length], key bytes, [value_length], value bytes. *)
Definition parse_body (contents : bytes) (offset : Z) : result (bytes * bytes) :=
  key_length <- v_uint 2 contents offset ;;
  k <- v_bytes contents (offset + 2) key_length ;;
  value_length <- v_uint 2 contents (offset + 2 + key_length) ;;
  v <- v_bytes contents (offset + 2 + key_length + 2) value_length ;;
  Ok (k, v).

Definition parse_entry (self : t) (i : Z) (pkey : bytes) : result Entry :=
  if is_leaf self then
    common_prefix <- v_uint 2 (contents self) (i * SIZEOF_ENTRY) ;;
    _unk02 <- v_uint 2 (contents self) (i * SIZEOF_ENTRY + 2) ;;
    ptr_offset <- v_uint 2 (contents self) (i * SIZEOF_ENTRY + 4) ;;
    kv <- parse_body (contents self) (ptr_offset - SIZEOF_ENTRY) ;;
    Ok (LeafEntry (slice pkey 0 common_prefix ++ fst kv) (snd kv))
  else
    ptr_page <- v_uint 4 (contents self) (i * SIZEOF_ENTRY) ;;
    ptr_offset <- v_uint 2 (contents self) (i * SIZEOF_ENTRY + 4) ;;
    kv <- parse_body (contents self) (ptr_offset - SIZEOF_ENTRY) ;;
    Ok (BranchEntry ptr_page (fst kv) (snd kv)).

(** The loop of [_load_entries] over [range(self.entry_count)]:
    [todo] iterations remain, [i] is the loop index, [key] the key of
    the entry before. *)
Fixpoint load_loop (self : t) (todo : nat) (i : Z) (key0 : bytes)
         (_entries : list Entry) : result (list Entry) :=
  match todo with
  | O => Ok _entries
  | S todo' =>
      entry <- parse_entry self i key0 ;;
      load_loop self todo' (i + 1) (key entry) (_entries ++ [entry])
  end.

Definition _load_entries (self : t) : result (list Entry) :=
  load_loop self (Z.to_nat (entry_count self)) 0 [] [].

Definition get_entries (self : t) : result (list Entry) :=
  _load_entries self.

Definition get_entry (self : t) (entry_number : Z) : result Entry :=
  _entries <- _load_entries self ;;
  if entry_number >=? Z.of_nat (length _entries) then Raise KeyError
  else list_get _entries entry_number.

(** The loop of [validate]: [last] is only ever assigned after the
    [continue] taken while it is [None]. *)
Fixpoint validate_loop (last : option Entry) (entries : list Entry)
  : result bool :=
  match entries with
  | [] => Ok true
  | entry :: rest =>
      match last with
      | None => validate_loop last rest
      | Some l =>
          if bytes_geb (key l) (key entry) then Raise ValueError
          else validate_loop (Some entry) rest
      end
  end.

Definition validate (self : t) : result bool :=
  entries <- get_entries self ;;
  validate_loop None entries.

End Page.

Module ID0.

Record t : Set := mk {
  buf : bytes;
  next_free_offset : Z;
  page_size : Z;
  root_page : Z;
  record_count : Z;
  page_count : Z;
  unk12 : Z;
  signature : bytes
}.

(** [ID0(buf).vsParse(buf)]: the header fields in declaration order. *)
Definition vsParse (buf : bytes) : result t :=
  next_free_offset <- v_uint 4 buf 0 ;;
  page_size <- v_uint 2 buf 4 ;;
  root_page <- v_uint 4 buf 6 ;;
  record_count <- v_uint 4 buf 10 ;;
  page_count <- v_uint 4 buf 14 ;;
  unk12 <- v_uint 1 buf 18 ;;
  signature <- v_bytes buf 19 0x09 ;;
  Ok (mk buf next_free_offset page_size root_page record_count
         page_count unk12 signature).

Definition get_page_buffer (self : t) (page_number : Z) : bytes :=
  let offset := page_size self * page_number in
  slice (buf self) offset (offset + page_size self).

Definition get_page (self : t) (page_number : Z) : result Page.t :=
  Page.vsParse (page_size self) (get_page_buffer self page_number).

Definition validate (self : t) : result bool :=
  if negb (bytes_eqb (signature self) (b "B-tree v2")) then Raise ValueError
  else Ok true.

End ID0.

Module Cursor.

(** A cursor that [find] returned: [entry] and [entry_number] are set. *)
Record t : Set := mk {
  path : list Page.t;
  entry : Entry;
  entry_number : Z
}.

(** The two scans of [Cursor.find_index], [i] the index of the head. *)
Fixpoint find_index_leaf (entries : list Entry) (i : Z) (k : bytes)
  : result Z :=
  match entries with
  | [] => Raise KeyError
  | entry :: rest =>
      if bytes_eqb k (key entry) then Ok i
      else find_index_leaf rest (i + 1) k
  end.

Fixpoint find_index_branch (entries : list Entry) (i : Z) (k : bytes)
  : result Z :=
  match entries with
  | [] => Raise KeyError
  | entry :: rest =>
      let entry_key := key entry in
      if bytes_eqb k entry_key then Ok i
      else if bytes_ltb k entry_key then Ok i
      else find_index_branch rest (i + 1) k
  end.

Definition find_index (page : Page.t) (k : bytes) : result Z :=
  entries <- Page.get_entries page ;;
  if Page.is_leaf page then find_index_leaf entries 0 k
  else find_index_branch entries 0 k.

(** The [while True] loop of [next] that pops the path.  The path is
    taken deepest page first, so that [self.path[:-1]] is the tail;
    the result is the shortened path and the index found in its
    last page. *)
Fixpoint ascend (rpath : list Page.t) (start_key : bytes)
  : result (list Page.t * Z) :=
  match rpath with
  | [] => Raise IndexError
  | _ :: rpath' =>
      match rpath' with
      | [] => Raise IndexError
      | current_page :: _ =>
          match find_index current_page start_key with
          | Ok entry_number => Ok (rpath', entry_number)
          | Raise KeyError => ascend rpath' start_key
          | Raise e => Raise e
          | OutOfFuel => OutOfFuel
          end
      end
  end.

(** The [while not next_page.is_leaf()] loop of [next]. *)
Fixpoint descend_min (fuel : nat) (index : ID0.t) (path : list Page.t)
         (next_page : Page.t) : result (list Page.t * Page.t) :=
  if Page.is_leaf next_page then Ok (path, next_page)
  else match fuel with
       | O => OutOfFuel
       | S fuel' =>
           let path := path ++ [next_page] in
           next_page <- ID0.get_page index (Page.ppointer next_page) ;;
           descend_min fuel' index path next_page
       end.

Definition next (fuel : nat) (index : ID0.t) (self : t) : result t :=
  current_page <- list_get (path self) (-1) ;;
  if Page.is_leaf current_page then
    if entry_number self =? Page.entry_count current_page - 1 then
      let start_key := key (entry self) in
      found <- ascend (rev (path self)) start_key ;;
      let path := rev (fst found) in
      let entry_number := snd found in
      current_page <- list_get path (-1) ;;
      entry <- Page.get_entry current_page entry_number ;;
      Ok (mk path entry entry_number)
    else
      let next_entry_number := entry_number self + 1 in
      next_entry <- Page.get_entry current_page next_entry_number ;;
      Ok (mk (path self) next_entry next_entry_number)
  else
    child <- page (entry self) ;;
    next_page <- ID0.get_page index child ;;
    down <- descend_min fuel index (path self) next_page ;;
    let path := fst down ++ [snd down] in
    entry <- Page.get_entry (snd down) 0 ;;
    Ok (mk path entry 0).

(** The [while True] loop of [prev] that pops the path, deepest page
    first as in [ascend]: a page where the index found is 0 is popped
    as well. *)
Fixpoint ascend_prev (rpath : list Page.t) (start_key : bytes)
  : result (list Page.t * Z) :=
  match rpath with
  | [] => Raise IndexError
  | _ :: rpath' =>
      match rpath' with
      | [] => Raise IndexError
      | current_page :: _ =>
          entry_number <- try_except (find_index current_page start_key)
                                     KeyError
                                     (Ok (Page.entry_count current_page)) ;;
          if entry_number =? 0 then ascend_prev rpath' start_key
          else Ok (rpath', entry_number)
      end
  end.

(** The [while not next_page.is_leaf()] loop of [prev]. *)
Fixpoint descend_max (fuel : nat) (index : ID0.t) (path : list Page.t)
         (next_page : Page.t) : result (list Page.t * Page.t) :=
  if Page.is_leaf next_page then Ok (path, next_page)
  else match fuel with
       | O => OutOfFuel
       | S fuel' =>
           let path := path ++ [next_page] in
           e <- Page.get_entry next_page (Page.entry_count next_page - 1) ;;
           child <- page e ;;
           next_page <- ID0.get_page index child ;;
           descend_max fuel' index path next_page
       end.

Definition prev (fuel : nat) (index : ID0.t) (self : t) : result t :=
  current_page <- list_get (path self) (-1) ;;
  if Page.is_leaf current_page then
    if entry_number self =? 0 then
      let start_key := key (entry self) in
      found <- ascend_prev (rev (path self)) start_key ;;
      let path := rev (fst found) in
      let entry_number := snd found in
      current_page <- list_get path (-1) ;;
      entry <- Page.get_entry current_page (entry_number - 1) ;;
      Ok (mk path entry (entry_number - 1))
    else
      let next_entry_number := entry_number self - 1 in
      next_entry <- Page.get_entry current_page next_entry_number ;;
      Ok (mk (path self) next_entry next_entry_number)
  else
    current_page <- list_get (path self) (-1) ;;
    next_page_number <-
      (if entry_number self =? 0 then Ok (Page.ppointer current_page)
       else e <- Page.get_entry current_page (entry_number self - 1) ;; page e) ;;
    next_page <- ID0.get_page index next_page_number ;;
    down <- descend_max fuel index (path self) next_page ;;
    let path := fst down ++ [snd down] in
    let last := Page.entry_count (snd down) - 1 in
    entry <- Page.get_entry (snd down) last ;;
    Ok (mk path entry last).

End Cursor.

Module ExactMatchStrategy.

Fixpoint _find (fuel : nat) (index : ID0.t) (path : list Page.t)
         (page_number : Z) (k : bytes) : result Cursor.t :=
  match fuel with
  | O => OutOfFuel
  | S fuel' =>
      page0 <- ID0.get_page index page_number ;;
      let path := path ++ [page0] in
      found <- try_except
                 (entry_number <- Cursor.find_index page0 k ;;
                  Ok (false, entry_number))
                 KeyError
                 (Ok (true, Page.entry_count page0 - 1)) ;;
      let is_largest : bool := fst found in
      let entry_number := snd found in
      entry <- Page.get_entry page0 entry_number ;;
      if bytes_eqb (key entry) k then Ok (Cursor.mk path entry entry_number)
      else if Page.is_leaf page0 then Raise KeyError
      else
        next_page_number <-
          (if entry_number =? 0 then Ok (Page.ppointer page0)
           else if is_largest then
             e <- Page.get_entry page0 (Page.entry_count page0 - 1) ;; page e
           else
             e <- Page.get_entry page0 (entry_number - 1) ;; page e) ;;
        _find fuel' index path next_page_number k
  end.

Definition find (fuel : nat) (index : ID0.t) (k : bytes) : result Cursor.t :=
  _find fuel index [] (ID0.root_page index) k.

End ExactMatchStrategy.

Module PrefixMatchStrategy.

(** The leaf scan: the first entry that starts with the key, until an
    entry greater than the key ends the scan. *)
Fixpoint scan_leaf (entries : list Entry) (i : Z) (k : bytes)
  : result (Entry * Z) :=
  match entries with
  | [] => Raise KeyError
  | entry :: rest =>
      let entry_key := key entry in
      if startswith entry_key k then Ok (entry, i)
      else if bytes_gtb entry_key k then Raise KeyError
      else scan_leaf rest (i + 1) k
  end.

(** What the branch scan decides. *)
Inductive step : Set :=
| Found (entry : Entry) (i : Z)
| Descend (next_page : Z).

Fixpoint scan_branch (entries : list Entry) (i : Z) (next_page : Z)
         (k : bytes) : result step :=
  match entries with
  | [] => Ok (Descend next_page)
  | entry :: rest =>
      let entry_key := key entry in
      if bytes_eqb entry_key k then Ok (Found entry i)
      else if startswith entry_key k then Ok (Descend next_page)
      else if bytes_gtb entry_key k then Ok (Descend next_page)
      else next_page <- page entry ;; scan_branch rest (i + 1) next_page k
  end.

Fixpoint _find (fuel : nat) (index : ID0.t) (path : list Page.t)
         (page_number : Z) (k : bytes) : result Cursor.t :=
  match fuel with
  | O => OutOfFuel
  | S fuel' =>
      page0 <- ID0.get_page index page_number ;;
      let path := path ++ [page0] in
      entries <- Page.get_entries page0 ;;
      if Page.is_leaf page0 then
        hit <- scan_leaf entries 0 k ;;
        Ok (Cursor.mk path (fst hit) (snd hit))
      else
        s <- scan_branch entries 0 (Page.ppointer page0) k ;;
        match s with
        | Found entry i => Ok (Cursor.mk path entry i)
        | Descend next_page => _find fuel' index path next_page k
        end
  end.

Definition find (fuel : nat) (index : ID0.t) (k : bytes) : result Cursor.t :=
  _find fuel index [] (ID0.root_page index) k.

End PrefixMatchStrategy.

Inductive strategy : Set := EXACT_MATCH | PREFIX_MATCH.

Definition ID0_find (fuel : nat) (self : ID0.t) (k : bytes) (s : strategy)
  : result Cursor.t :=
  match s with
  | EXACT_MATCH => ExactMatchStrategy.find fuel self k
  | PREFIX_MATCH => PrefixMatchStrategy.find fuel self k
  end.

Definition ID0_find_prefix (fuel : nat) (self : ID0.t) (k : bytes)
  : result Cursor.t :=
  ID0_find fuel self k PREFIX_MATCH.

(** ** NAM, TIL and the container *)

Module NAM.

Definition PAGE_SIZE : Z := 0x2000.

Record t : Set := mk {
  wordsize : Z;
  signature : bytes;
  unk04 : Z;
  non_empty : Z;
  unk0C : Z;
  page_count : Z;
  unk14 : Z;
  name_count : Z;
  buffer : bytes
}.

Definition vsParse (wordsize : Z) (buf : bytes) : result t :=
  signature <- v_bytes buf 0 0x04 ;;
  unk04 <- v_uint 4 buf 4 ;;
  non_empty <- v_uint 4 buf 8 ;;
  unk0C <- v_uint 4 buf 12 ;;
  page_count <- v_uint 4 buf 16 ;;
  unk14 <- v_uint wordsize buf 20 ;;
  name_count <- v_uint 4 buf (20 + wordsize) ;;
  let padsize := PAGE_SIZE - (6 * 4 + wordsize) in
  buffer <- v_bytes buf (24 + wordsize + padsize) (page_count * PAGE_SIZE) ;;
  Ok (mk wordsize signature unk04 non_empty unk0C page_count unk14
         name_count buffer).

Definition validate (self : t) : result bool :=
  if negb (bytes_eqb (signature self) (b "VA*" ++ [x00])) then Raise ValueError
  else if negb (unk04 self =? 0x3) then Raise ValueError
  else if negb ((non_empty self =? 0x0) || (non_empty self =? 0x1))
       then Raise ValueError
  else if negb (unk0C self =? 0x800) then Raise ValueError
  else if negb (unk14 self =? 0x0) then Raise ValueError
  else Ok true.

(** [struct.unpack("<{name_count}{word_fmt}", self.buffer[:size])]:
    [count] words of [wordsize] bytes. *)
Definition unpack_words (wordsize : Z) (count : nat) (buf : bytes) : list Z :=
  map (fun i => le_uint (slice buf (Z.of_nat i * wordsize)
                               (Z.of_nat i * wordsize + wordsize)))
      (seq 0 count).

Definition names (self : t) : result (list Z) :=
  let size := name_count self * wordsize self in
  if size >? Z.of_nat (length (buffer self)) then Raise ValueError
  else Ok (unpack_words (wordsize self) (Z.to_nat (name_count self))
                        (slice (buffer self) 0 size)).

End NAM.

Module TIL.

Record t : Set := mk { signature : bytes }.

Definition vsParse (buf : bytes) : result t :=
  signature <- v_bytes buf 0 0x06 ;;
  Ok (mk signature).

Definition validate (self : t) : result bool :=
  if negb (bytes_eqb (signature self) (b "IDATIL")) then Raise ValueError
  else Ok true.

End TIL.

Module FileHeader.

Record t : Set := mk {
  signature : bytes;
  unk04 : Z;
  unk16 : Z;
  sig2 : Z;
  version : Z;
  (* [offset1] .. [offset6], collected by [pcb_offset6] *)
  offsets : list Z;
  (* [checksum1] .. [checksum6], collected by [pcb_checksum6] *)
  checksums : list Z
}.

Definition vsParse (buf : bytes) : result t :=
  signature <- v_bytes buf 0 0x4 ;;
  unk04 <- v_uint 2 buf 4 ;;
  offset1 <- v_uint 8 buf 6 ;;
  offset2 <- v_uint 8 buf 14 ;;
  unk16 <- v_uint 4 buf 22 ;;
  sig2 <- v_uint 4 buf 26 ;;
  version <- v_uint 2 buf 30 ;;
  (* pcb_version *)
  (if negb (version =? 0x6) then Raise NotImplementedError else Ok tt) ;;;
  offset3 <- v_uint 8 buf 32 ;;
  offset4 <- v_uint 8 buf 40 ;;
  offset5 <- v_uint 8 buf 48 ;;
  checksum1 <- v_uint 4 buf 56 ;;
  checksum2 <- v_uint 4 buf 60 ;;
  checksum3 <- v_uint 4 buf 64 ;;
  checksum4 <- v_uint 4 buf 68 ;;
  checksum5 <- v_uint 4 buf 72 ;;
  offset6 <- v_uint 8 buf 76 ;;
  checksum6 <- v_uint 4 buf 84 ;;
  Ok (mk signature unk04 unk16 sig2 version
         [offset1; offset2; offset3; offset4; offset5; offset6]
         [checksum1; checksum2; checksum3; checksum4; checksum5; checksum6]).

Definition validate (self : t) : result bool :=
  if negb (bytes_eqb (signature self) (b "IDA1")) then Raise ValueError
  else if negb (sig2 self =? 0xAABBCCDD) then Raise ValueError
  else if negb (version self =? 0x6) then Raise ValueError
  else Ok true.

End FileHeader.

Module Section.

Record t : Set := mk {
  is_compressed : Z;
  length : Z;
  contents : bytes
}.

Definition vsParse (buf : bytes) : result t :=
  is_compressed <- v_uint 1 buf 0 ;;
  length <- v_uint 8 buf 1 ;;
  (* pcb_header *)
  (if negb (is_compressed =? 0) then Raise NotImplementedError else Ok tt) ;;;
  contents <- v_bytes buf 9 length ;;
  Ok (mk is_compressed length contents).

Definition validate (self : t) : result bool :=
  if length self =? 0 then Raise ValueError else Ok true.

End Section.

(** [bytes(ret)] for a list of integers. *)
Fixpoint bytes_of_ints (ret : list Z) : result bytes :=
  match ret with
  | [] => Ok []
  | x :: rest =>
      if (x <? 0) || (256 <=? x) then Raise ValueError
      else tl <- bytes_of_ints rest ;; Ok (byte_of_Z x :: tl)
  end.

Module IDB.

Record t : Set := mk {
  buf : bytes;
  header : FileHeader.t;
  (* parsed [Section] instances or [None], in [SECTIONS] order *)
  sections : list (option Section.t);
  id0 : option ID0.t;
  id1 : option ID1.t;
  nam : option NAM.t;
  til : option TIL.t;
  wordsize : Z
}.

(** The first loop of [pcb_header]. *)
Fixpoint parse_sections (buf : bytes) (offsets : list Z)
  : result (list (option Section.t)) :=
  match offsets with
  | [] => Ok []
  | offset :: rest =>
      section <-
        (if offset =? 0 then Ok None
         else
           let sectionbuf := slice buf offset (Z.of_nat (length buf)) in
           s <- Section.vsParse sectionbuf ;; Ok (Some s)) ;;
      others <- parse_sections buf rest ;;
      Ok (section :: others)
  end.

(** One turn of the second loop of [pcb_header], for entry [i] of
    [SECTIONS] whose class parses with [cls]: the attribute keeps its
    initial [None] when the section is missing. *)
Definition typed_section {A : Type} (sections : list (option Section.t))
           (i : Z) (cls : bytes -> result A) : result (option A) :=
  if i >? Z.of_nat (length sections) then Ok None
  else
    section <- list_get sections i ;;
    match section with
    | None => Ok None
    | Some sec => s <- cls (Section.contents sec) ;; Ok (Some s)
    end.

Definition vsParse (buf : bytes) : result t :=
  header <- FileHeader.vsParse buf ;;
  let wordsize := 4 in
  sections <- parse_sections buf (FileHeader.offsets header) ;;
  id0 <- typed_section sections 0 ID0.vsParse ;;
  id1 <- typed_section sections 1 (ID1.vsParse wordsize) ;;
  nam <- typed_section sections 2 (NAM.vsParse wordsize) ;;
  til <- typed_section sections 4 TIL.vsParse ;;
  Ok (mk buf header sections id0 id1 nam til wordsize).

(** A method call on an attribute that may still be [None]. *)
Definition call {A B : Type} (attribute : option A) (method : A -> result B)
  : result B :=
  match attribute with
  | None => Raise AttributeError
  | Some obj => method obj
  end.

Definition validate (self : t) : result bool :=
  FileHeader.validate (header self) ;;;
  call (id0 self) ID0.validate ;;;
  call (id1 self) ID1.validate ;;;
  call (nam self) NAM.validate ;;;
  call (til self) TIL.validate ;;;
  Ok true.

Definition SegStart (self : t) (ea : Z) : result Z :=
  seg <- call (id1 self) (fun id1 => ID1.get_segment id1 ea) ;;
  Ok (start (bounds seg)).

Definition SegEnd (self : t) (ea : Z) : result Z :=
  seg <- call (id1 self) (fun id1 => ID1.get_segment id1 ea) ;;
  Ok (end_ (bounds seg)).

Definition FirstSeg (self : t) : result Z :=
  seg <- call (id1 self) (fun id1 => list_get (ID1.segments id1) 0) ;;
  Ok (start (bounds seg)).

Definition NextSeg (self : t) (ea : Z) : result Z :=
  seg <- call (id1 self) (fun id1 => ID1.get_next_segment id1 ea) ;;
  Ok (start (bounds seg)).

Definition GetFlags (self : t) (ea : Z) : result Z :=
  call (id1 self) (fun id1 => ID1.get_flags id1 ea).

Definition IdbByte (self : t) (ea : Z) : result Z :=
  flags <- GetFlags self ea ;;
  if hasValue flags then Ok (Z.land flags FLAGS.MS_VAL)
  else Raise KeyError.

(** The [while not self.isHead(flags)] loop of [Head]. *)
Fixpoint Head_loop (fuel : nat) (self : t) (ea flags : Z) : result Z :=
  if isHead flags then Ok ea
  else match fuel with
       | O => OutOfFuel
       | S fuel' =>
           let ea := ea - 1 in
           flags <- GetFlags self ea ;;
           Head_loop fuel' self ea flags
       end.

Definition Head (fuel : nat) (self : t) (ea : Z) : result Z :=
  flags <- GetFlags self ea ;;
  Head_loop fuel self ea flags.

(** The [while not self.isHead(flags)] loop of [NextHead]. *)
Fixpoint NextHead_loop (fuel : nat) (self : t) (ea flags : Z) : result Z :=
  if isHead flags then Ok ea
  else match fuel with
       | O => OutOfFuel
       | S fuel' =>
           let ea := ea + 1 in
           flags <- GetFlags self ea ;;
           NextHead_loop fuel' self ea flags
       end.

Definition NextHead (fuel : nat) (self : t) (ea : Z) : result Z :=
  let ea := ea + 1 in
  flags <- GetFlags self ea ;;
  NextHead_loop fuel self ea flags.

Definition PrevHead (fuel : nat) (self : t) (ea : Z) : result Z :=
  ea <- Head fuel self ea ;;
  let ea := ea - 1 in
  Head fuel self ea.

(** The [for i in range(ea, ea + size)] loop of [GetManyBytes]. *)
Fixpoint many_bytes_loop (self : t) (i : Z) (todo : nat) (ret : list Z)
  : result (list Z) :=
  match todo with
  | O => Ok ret
  | S todo' =>
      x <- IdbByte self i ;;
      many_bytes_loop self (i + 1) todo' (ret ++ [x])
  end.

Definition GetManyBytes (self : t) (ea size : Z) (use_dbg : bool)
  : result bytes :=
  if use_dbg then Raise NotImplementedError
  else
    s1 <- SegStart self ea ;;
    s2 <- SegStart self (ea + size) ;;
    if negb (s1 =? s2) then Raise IndexError
    else
      ret <- many_bytes_loop self ea (Z.to_nat size) [] ;;
      bytes_of_ints ret.

End IDB.

(** ** Fixture files

    Byte images of small databases in the layout the parsers above
    read, used for the concrete runs below. *)

Module Fixture.

Definition u (n : nat) (z : Z) : bytes := le_bytes n z.

Definition zeros (n : Z) : bytes := repeat x00 (Z.to_nat n).

Definition len (x : bytes) : Z := Z.of_nat (length x).

Definition pad (size : Z) (x : bytes) : bytes := x ++ zeros (size - len x).

(** The 88-byte file header with the six section offsets. *)
Definition file_header (o1 o2 o3 o4 o5 o6 : Z) : bytes :=
  b "IDA1" ++ u 2 0 ++ u 8 o1 ++ u 8 o2 ++ u 4 0 ++ u 4 0xAABBCCDD
    ++ u 2 6 ++ u 8 o3 ++ u 8 o4 ++ u 8 o5
    ++ u 4 0 ++ u 4 0 ++ u 4 0 ++ u 4 0 ++ u 4 0 ++ u 8 o6 ++ u 4 0.

(** An uncompressed section. *)
Definition section (contents : bytes) : bytes :=
  u 1 0 ++ u 8 (len contents) ++ contents.

(** An id1 payload: the header page with the segment table, then one
    page of flags holding [words]. *)
Definition id1_contents (segs : list (Z * Z)) (words : list Z) : bytes :=
  pad 0x2000
      (b "VA*" ++ [x00] ++ u 4 0x3 ++ u 4 (Z.of_nat (length segs))
         ++ u 4 0x800 ++ u 4 1
         ++ flat_map (fun se => u 4 (fst se) ++ u 4 (snd se)) segs)
    ++ pad 0x2000 (flat_map (u 4) words).

(** A nam payload without names. *)
Definition nam_contents : bytes :=
  pad 0x2000
      (b "VA*" ++ [x00] ++ u 4 0x3 ++ u 4 0 ++ u 4 0x800 ++ u 4 0
         ++ u 4 0 ++ u 4 0).

Definition til_contents : bytes := b "IDATIL" ++ zeros 10.

(** One B-tree page.  An entry is [(w, key, value)], [w] the first
    32 bits of its pointer: the child page in a branch page, zero in a
    leaf page (no shared prefix). *)
Definition body (e : Z * bytes * bytes) : bytes :=
  u 2 (len (snd (fst e))) ++ snd (fst e) ++ u 2 (len (snd e)) ++ snd e.

Fixpoint pointers (at_ : Z) (entries : list (Z * bytes * bytes)) : bytes :=
  match entries with
  | [] => []
  | e :: rest =>
      u 4 (fst (fst e)) ++ u 2 at_ ++ pointers (at_ + len (body e)) rest
  end.

Definition btree_page (page_size ppointer : Z)
           (entries : list (Z * bytes * bytes)) : bytes :=
  let n := Z.of_nat (length entries) in
  pad page_size
      (u 4 ppointer ++ u 2 n ++ pointers (6 + 6 * n) entries
         ++ flat_map body entries).

(** An id0 payload: the header page, then pages 1, 2, ... *)
Definition id0_contents (page_size root_page record_count : Z)
           (pages : list bytes) : bytes :=
  pad page_size
      (u 4 0 ++ u 2 page_size ++ u 4 root_page ++ u 4 record_count
         ++ u 4 (Z.of_nat (length pages)) ++ u 1 0 ++ b "B-tree v2")
    ++ concat pages.

(** Scenario E: segments [0x1000, 0x1004) and [0x2000, 0x2008) and
    twelve flag words [wA .. wL].  Every word has [FF_IVL] set and
    carries its letter as byte value. *)
Definition wA : Z := 0x741.
Definition wB : Z := 0x342.
Definition wC : Z := 0x343.
Definition wD : Z := 0x544.
Definition wE : Z := 0x745.
Definition wF : Z := 0x346.
Definition wG : Z := 0x347.
Definition wH : Z := 0x548.
Definition wI : Z := 0x749.
Definition wJ : Z := 0x34A.
Definition wK : Z := 0x34B.
Definition wL : Z := 0x54C.

Definition scenario_E_id1 : bytes :=
  id1_contents [(0x1000, 0x1004); (0x2000, 0x2008)]
               [wA; wB; wC; wD; wE; wF; wG; wH; wI; wJ; wK; wL].

(** A database file with the id1 section of scenario E only. *)
Definition scenario_E_file : bytes :=
  file_header 0 88 0 0 0 0 ++ section scenario_E_id1.

(** The objects that parsing [scenario_E_file] yields. *)
Definition scenario_E : ID1.t :=
  ID1.mk 4 (b "VA*" ++ [x00]) 0x3 2 0x800 1
         [mkBounds 0x1000 0x1004; mkBounds 0x2000 0x2008]
         (pad 0x2000
              (flat_map (u 4) [wA; wB; wC; wD; wE; wF; wG; wH; wI; wJ; wK; wL])).

(** An id1 payload whose two segments overlap, [0x1000, 0x1008) and
    [0x1004, 0x100C), and the object it parses to. *)
Definition overlapping_id1 : bytes :=
  id1_contents [(0x1000, 0x1008); (0x1004, 0x100C)]
               [wA; wB; wC; wD; wE; wF; wG; wH; wI; wJ; wK; wL].

Definition overlapping : ID1.t :=
  ID1.mk 4 (b "VA*" ++ [x00]) 0x3 2 0x800 1
         [mkBounds 0x1000 0x1008; mkBounds 0x1004 0x100C]
         (pad 0x2000
              (flat_map (u 4) [wA; wB; wC; wD; wE; wF; wG; wH; wI; wJ; wK; wL])).

Definition valid_header (offsets : list Z) : FileHeader.t :=
  FileHeader.mk (b "IDA1") 0 0 0xAABBCCDD 6 offsets [0; 0; 0; 0; 0; 0].

Definition scenario_E_idb : IDB.t :=
  IDB.mk scenario_E_file (valid_header [0; 88; 0; 0; 0; 0])
         [None; Some (Section.mk 0 (len scenario_E_id1) scenario_E_id1);
          None; None; None; None]
         None (Some scenario_E) None None 4.

(** Scenario B: a one-page index, page size 64, whose root is a leaf
    with the keys [aa], [ab], [bb]. *)
Definition scenario_B_id0 : bytes :=
  id0_contents 64 1 3
    [btree_page 64 0 [(0, b "aa", b "1"); (0, b "ab", b "2"); (0, b "bb", b "3")]].

(** The page object a raw page parses to. *)
Definition page_of (raw : bytes) : Page.t :=
  Page.mk (le_uint (firstn 4 raw)) (le_uint (firstn 2 (skipn 4 raw)))
          (skipn 6 raw).

Definition scenario_B_page : Page.t :=
  page_of (btree_page 64 0
             [(0, b "aa", b "1"); (0, b "ab", b "2"); (0, b "bb", b "3")]).

(** A leaf page whose two keys are stored in descending order. *)
Definition descending_page : Page.t :=
  page_of (btree_page 64 0 [(0, b "bb", b "1"); (0, b "aa", b "2")]).

(** A two-level index, page size 64: the root (page 1) is a branch
    with the single entry [ba]; its left child (page 2) is the leaf
    [a], the child of its entry (page 3) the leaf [bb]. *)
Definition two_level_id0 : bytes :=
  id0_contents 64 1 3
    [btree_page 64 2 [(3, b "ba", b "2")];
     btree_page 64 0 [(0, b "a", b "1")];
     btree_page 64 0 [(0, b "bb", b "3")]].

(** Scenario D: a two-level index with eight keys; the root (page 1)
    holds [c] and [f], the leaves (pages 2, 3, 4) hold [a b], [d e]
    and [g h]. *)
Definition scenario_D_id0 : bytes :=
  id0_contents 64 1 8
    [btree_page 64 2 [(3, b "c", b "3"); (4, b "f", b "6")];
     btree_page 64 0 [(0, b "a", b "1"); (0, b "b", b "2")];
     btree_page 64 0 [(0, b "d", b "4"); (0, b "e", b "5")];
     btree_page 64 0 [(0, b "g", b "7"); (0, b "h", b "8")]].

(** The index objects the payloads above parse to. *)
Definition scenario_B : ID0.t :=
  ID0.mk scenario_B_id0 0 64 1 3 1 0 (b "B-tree v2").

Definition two_level : ID0.t :=
  ID0.mk two_level_id0 0 64 1 3 3 0 (b "B-tree v2").

Definition scenario_D : ID0.t :=
  ID0.mk scenario_D_id0 0 64 1 8 4 0 (b "B-tree v2").

(** The entries of the two-level index in key order. *)
Definition two_level_entries : list Entry :=
  [LeafEntry (b "a") (b "1"); BranchEntry 3 (b "ba") (b "2");
   LeafEntry (b "bb") (b "3")].

(** A database file with id0, id1 and nam sections and no til
    section (its header offset is zero). *)
Definition no_til_file : bytes :=
  let s0 := section scenario_B_id0 in
  let s1 := section scenario_E_id1 in
  let s2 := section nam_contents in
  file_header 88 (88 + len s0) (88 + len s0 + len s1) 0 0 0
    ++ s0 ++ s1 ++ s2.

(** The same file with a til section as well. *)
Definition all_sections_file : bytes :=
  let s0 := section scenario_B_id0 in
  let s1 := section scenario_E_id1 in
  let s2 := section nam_contents in
  let s4 := section til_contents in
  file_header 88 (88 + len s0) (88 + len s0 + len s1) 0
              (88 + len s0 + len s1 + len s2) 0
    ++ s0 ++ s1 ++ s2 ++ s4.

(** Scenario F: a nam section with three names. *)
Definition scenario_F : NAM.t :=
  NAM.mk 4 (b "VA*" ++ [x00]) 0x3 1 0x800 1 0 3
         (flat_map (le_bytes 4) [0x4000; 0x4010; 0x5000]
            ++ zeros (0x2000 - 12)).

End Fixture.

(** * Specification vocabulary *)

(** [ea] lies in the segment. *)
Definition in_segment (segment : SegmentDescriptor) (ea : Z) : Prop :=
  start (bounds segment) <= ea < end_ (bounds segment).

(** An address above every segment of the table. *)
Definition upper (segs : list SegmentDescriptor) : Z :=
  fold_right (fun s m => Z.max (end_ (bounds s)) m) 0 segs.


(** ** Well-formed trees

    The vocabulary of the B-tree properties: which lists of entries a
    page tree holds, and which entry of it a cursor stands on. *)

Definition keys_lt (x y : Entry) : Prop := bytes_ltb (key x) (key y) = true.

(** Strictly ascending keys. *)
Definition ascending (l : list Entry) : Prop := StronglySorted keys_lt l.

(** The entries under a branch page in key order, after those of its
    leftmost child: each entry followed by the entries of its child. *)
Fixpoint interleave (es : list Entry) (ls : list (list Entry)) : list Entry :=
  match es, ls with
  | e :: es', l :: ls' => e :: l ++ interleave es' ls'
  | _, _ => []
  end.

(** [subtree index h n l]: page [n] is the root of a tree of height [h]
    whose pages all decode and hold at least one entry, whose leaves
    are the pages with [ppointer = 0], and whose entries in key order
    are [l]. *)
#[warnings="-register-all"]
Inductive subtree (index : ID0.t) : nat -> Z -> list Entry -> Prop :=
| subtree_leaf (n : Z) (p : Page.t) (es : list Entry) :
    ID0.get_page index n = Ok p ->
    Page.is_leaf p = true ->
    Page.get_entries p = Ok es ->
    es <> [] ->
    subtree index 0 n es
| subtree_branch (h : nat) (n : Z) (p : Page.t) (es l0 : list Entry)
                 (ls : list (list Entry)) :
    ID0.get_page index n = Ok p ->
    Page.is_leaf p = false ->
    Page.get_entries p = Ok es ->
    es <> [] ->
    subtree index h (Page.ppointer p) l0 ->
    Forall2 (fun e l => exists pg, page e = Ok pg /\ subtree index h pg l)
            es ls ->
    subtree index (S h) n (l0 ++ interleave es ls).

(** The child of a branch entry holds [l]. *)
Definition kid (index : ID0.t) (h : nat) (e : Entry) (l : list Entry) : Prop :=
  exists pg, page e = Ok pg /\ subtree index h pg l.

(** [located index h n rel en before e after]: in the tree of height [h]
    at page [n], the pages [rel] lead from page [n] down to a page whose
    entry number [en] is [e]; [before] and [after] are the entries of
    the tree on either side of [e] in key order. *)
Inductive located (index : ID0.t)
  : nat -> Z -> list Page.t -> Z -> list Entry -> Entry -> list Entry -> Prop :=
| loc_leaf (n : Z) (p : Page.t) (es1 : list Entry) (e : Entry)
           (es2 : list Entry) :
    ID0.get_page index n = Ok p ->
    Page.is_leaf p = true ->
    Page.get_entries p = Ok (es1 ++ e :: es2) ->
    located index 0 n [p] (Z.of_nat (length es1)) es1 e es2
| loc_entry (h : nat) (n : Z) (p : Page.t) (es1 : list Entry) (e : Entry)
            (es2 l0 : list Entry) (ls1 : list (list Entry)) (l : list Entry)
            (ls2 : list (list Entry)) :
    ID0.get_page index n = Ok p ->
    Page.is_leaf p = false ->
    Page.get_entries p = Ok (es1 ++ e :: es2) ->
    subtree index h (Page.ppointer p) l0 ->
    Forall2 (kid index h) es1 ls1 ->
    kid index h e l ->
    Forall2 (kid index h) es2 ls2 ->
    located index (S h) n [p] (Z.of_nat (length es1))
            (l0 ++ interleave es1 ls1) e (l ++ interleave es2 ls2)
| loc_left (h : nat) (n : Z) (p : Page.t) (es : list Entry)
           (ls : list (list Entry)) (rel : list Page.t) (en : Z)
           (bf : list Entry) (e : Entry) (af : list Entry) :
    ID0.get_page index n = Ok p ->
    Page.is_leaf p = false ->
    Page.get_entries p = Ok es ->
    es <> [] ->
    Forall2 (kid index h) es ls ->
    located index h (Page.ppointer p) rel en bf e af ->
    located index (S h) n (p :: rel) en bf e (af ++ interleave es ls)
| loc_child (h : nat) (n : Z) (p : Page.t) (es1 : list Entry) (em : Entry)
            (es2 l0 : list Entry) (ls1 ls2 : list (list Entry)) (pg : Z)
            (rel : list Page.t) (en : Z) (bf : list Entry) (e : Entry)
            (af : list Entry) :
    ID0.get_page index n = Ok p ->
    Page.is_leaf p = false ->
    Page.get_entries p = Ok (es1 ++ em :: es2) ->
    subtree index h (Page.ppointer p) l0 ->
    Forall2 (kid index h) es1 ls1 ->
    page em = Ok pg ->
    located index h pg rel en bf e af ->
    Forall2 (kid index h) es2 ls2 ->
    located index (S h) n (p :: rel) en
            (l0 ++ interleave es1 ls1 ++ em :: bf) e
            (af ++ interleave es2 ls2).

(** A well-formed index: the root page heads a tree of some height
    whose entries [l] have strictly ascending keys, and the header
    counts them. *)
Record well_formed (index : ID0.t) (h : nat) (l : list Entry) : Prop := {
  wf_tree : subtree index h (ID0.root_page index) l;
  wf_ascending : ascending l;
  wf_count : ID0.record_count index = Z.of_nat (length l)
}.

(** [steps] calls of [next] from cursor [c]: the entries under the
    cursor before each call and after the last, and the final cursor. *)
Fixpoint traverse (fuel : nat) (index : ID0.t) (c : Cursor.t) (steps : nat)
  : result (list Entry * Cursor.t) :=
  match steps with
  | O => Ok ([Cursor.entry c], c)
  | S steps' =>
      c' <- Cursor.next fuel index c ;;
      r <- traverse fuel index c' steps' ;;
      Ok (Cursor.entry c :: fst r, snd r)
  end.

(** [a] is an address with flags that is a head, or is not one. *)
Definition head_at (self : IDB.t) (a : Z) : Prop :=
  exists fl, IDB.GetFlags self a = Ok fl /\ isHead fl = true.

Definition not_head_at (self : IDB.t) (a : Z) : Prop :=
  exists fl, IDB.GetFlags self a = Ok fl /\ isHead fl = false.

(** The kind of entry a page holds: leaf entries in a leaf page, and
    in a branch page branch entries whose child is a 32-bit page
    number. *)
Definition entry_of_page (self : Page.t) (e : Entry) : Prop :=
  if Page.is_leaf self then exists k v, e = LeafEntry k v
  else exists pg k v, e = BranchEntry pg k v /\ 0 <= pg < 2 ^ 32.

(** * Properties *)

(** ** Results *)

Lemma bind_Ok {A B : Type} (m : result A) (k : A -> result B) (r : B) :
  bind m k = Ok r -> exists a, m = Ok a /\ k a = Ok r.
Proof.
  destruct m as [a | e | ]; simpl; intros H; try discriminate.
  exists a; split; [reflexivity | exact H].
Qed.

(** ** ID1: segments and flags *)

Lemma contains_spec (segment : SegmentDescriptor) (ea : Z) :
  ID1.contains segment ea = true <-> in_segment segment ea.
Proof.
  unfold ID1.contains, in_segment.
  rewrite andb_true_iff, Z.leb_le, Z.ltb_lt. tauto.
Qed.

Lemma contains_false (segment : SegmentDescriptor) (ea : Z) :
  ID1.contains segment ea = false <-> ~ in_segment segment ea.
Proof.
  rewrite <- contains_spec.
  destruct (ID1.contains segment ea); intuition congruence.
Qed.

(** When [pcb_segment_count] runs, the elements it has just added are
    still zero: descriptor [i] holds element [i], and every offset the
    loop records is 0. *)
Lemma segments_loop_zero (n : nat) :
  forall (i : nat) (acc : list ID1.descriptor),
    ID1.segments_loop (repeat (mkBounds 0 0) n) i 0 acc
    = acc ++ map (fun j => ID1.mkDescriptor j 0) (seq i n).
Proof.
  induction n as [| n IH]; intros i acc; simpl.
  - now rewrite app_nil_r.
  - rewrite IH, <- app_assoc. reflexivity.
Qed.

Lemma segments_built (self : ID1.t) :
  ID1.segments self
  = map (fun j => mkSegment (nth j (ID1._segments self) (mkBounds 0 0)) 0)
        (seq 0 (Z.to_nat (ID1.segment_count self))).
Proof.
  unfold ID1.segments, ID1.pcb_segment_count, ID1.vsAddElements.
  rewrite segments_loop_zero. simpl app. now rewrite map_map.
Qed.

Lemma segments_offset (self : ID1.t) (s : SegmentDescriptor) :
  In s (ID1.segments self) -> offset s = 0.
Proof.
  rewrite segments_built. intros H. apply in_map_iff in H.
  destruct H as [j [<- _]]. reflexivity.
Qed.

Lemma nth_seq_all {A B : Type} (f : A -> B) (d : A) (l : list A) :
  map (fun j => f (nth j l d)) (seq 0 (length l)) = map f l.
Proof.
  induction l as [| x l IH]; simpl; [reflexivity |].
  f_equal. rewrite <- seq_shift, map_map. exact IH.
Qed.

Lemma parse_segments_length (buf : bytes) (todo : nat) :
  forall (offset : Z) (l : list SegmentBounds),
    ID1.parse_segments buf offset todo = Ok l -> length l = todo.
Proof.
  induction todo as [| todo IH]; intros offset l H; simpl in H.
  - injection H as <-. reflexivity.
  - apply bind_Ok in H. destruct H as [s [_ H]].
    apply bind_Ok in H. destruct H as [e [_ H]].
    apply bind_Ok in H. destruct H as [rest [Hrest H]].
    injection H as <-. simpl. f_equal. eapply IH. eassumption.
Qed.

(** A parsed section holds as many table elements as [segment_count]
    says. *)
Lemma parsed_table (wordsize : Z) (buf : bytes) (self : ID1.t) :
  ID1.vsParse wordsize buf = Ok self ->
  length (ID1._segments self) = Z.to_nat (ID1.segment_count self).
Proof.
  unfold ID1.vsParse. intros H.
  repeat (apply bind_Ok in H; destruct H as [? [? H]]).
  injection H as <-. simpl. eapply parse_segments_length. eassumption.
Qed.

Lemma scenario_E_parses :
  IDB.vsParse Fixture.scenario_E_file = Ok Fixture.scenario_E_idb.
Proof. vm_compute. reflexivity. Qed.

Example scenario_E_outside_segments :
  ID1.get_flags Fixture.scenario_E 0x1FFF = Raise KeyError.
Proof. vm_compute. reflexivity. Qed.

(** C1 (the code departs from the claim).  On scenario E, which is
    what the payload parses to, the descriptors carry the bounds of the
    table and the offsets 0 and 0, not 0 and 16: [pcb_segment_count] is
    the parse callback of [segment_count] and adds up
    [4 * (end - start)] over elements that are not parsed yet, whose
    fields are still 0.  [get_flags 0x1002] reads [wC], as the claim
    says, but [get_flags 0x2000], in the second segment, reads the word
    at byte 0, which is [wA] and not [wE]. *)
Theorem C1_scenario_E_second_segment_reads_first_words :
  ID1.vsParse 4 Fixture.scenario_E_id1 = Ok Fixture.scenario_E
  /\ map bounds (ID1.segments Fixture.scenario_E)
     = [mkBounds 0x1000 0x1004; mkBounds 0x2000 0x2008]
  /\ map offset (ID1.segments Fixture.scenario_E) = [0; 0]
  /\ ID1.get_flags Fixture.scenario_E 0x1002 = Ok Fixture.wC
  /\ ID1.get_flags Fixture.scenario_E 0x2000 = Ok Fixture.wA
  /\ Fixture.wA <> Fixture.wE.
Proof.
  repeat split; try (vm_compute; reflexivity); vm_compute; discriminate.
Qed.

(** *** [get_next_segment] *)

(** Case analysis on the integer comparisons of the goal, innermost
    first. *)
Ltac no_if x :=
  lazymatch x with
  | context [if _ then _ else _] => fail
  | _ => idtac
  end.

Ltac zcases :=
  repeat (cbn [orb andb negb];
          match goal with
          | |- context [?x >=? ?y] => rewrite (Z.geb_leb x y)
          | |- context [?x >? ?y] => rewrite (Z.gtb_ltb x y)
          | |- context [?x <? ?y] =>
              no_if x; no_if y; destruct (Z.ltb_spec x y); try lia
          | |- context [?x <=? ?y] =>
              no_if x; no_if y; destruct (Z.leb_spec x y); try lia
          | |- context [?x =? ?y] =>
              no_if x; no_if y; destruct (Z.eqb_spec x y); try lia
          end);
  cbn [orb andb negb].

Lemma list_get_nth {A : Type} (l : list A) (i : nat) (a : A) :
  nth_error l i = Some a -> list_get l (Z.of_nat i) = Ok a.
Proof.
  intros H. unfold list_get. cbv zeta.
  assert (Hlt : (i < length l)%nat) by (apply nth_error_Some; congruence).
  zcases. now rewrite Nat2Z.id, H.
Qed.

Lemma list_get_past {A : Type} (l : list A) (i : Z) :
  Z.of_nat (length l) <= i -> list_get l i = Raise IndexError.
Proof.
  intros H. unfold list_get. cbv zeta. zcases. reflexivity.
Qed.

(** The scan stops at the first segment that contains [ea] and then
    indexes the table one further. *)
Lemma get_next_segment_from_first (all pre rest : list SegmentDescriptor)
      (k : nat) (seg : SegmentDescriptor) (ea : Z) :
  all = pre ++ rest ->
  nth_error rest k = Some seg ->
  in_segment seg ea ->
  (forall j s, (j < k)%nat -> nth_error rest j = Some s -> ~ in_segment s ea) ->
  ID1.get_next_segment_from all rest (Z.of_nat (length pre)) ea
  = list_get all (Z.of_nat (length pre + k) + 1).
Proof.
  revert pre k. induction rest as [| s rest IH]; intros pre k Hall Hk Hin Hfirst.
  - destruct k; discriminate.
  - simpl. destruct k as [| k].
    + simpl in Hk. injection Hk as ->.
      apply contains_spec in Hin. rewrite Hin.
      assert (Hlen : (length pre < length all)%nat).
      { subst all. rewrite length_app. simpl. lia. }
      replace (Z.of_nat (length pre) =? Z.of_nat (length all)) with false
        by (symmetry; apply Z.eqb_neq; lia).
      now rewrite Nat.add_0_r.
    + assert (Hs : ID1.contains s ea = false).
      { apply contains_false. apply (Hfirst 0%nat); [lia | reflexivity]. }
      rewrite Hs.
      replace (Z.of_nat (length pre) + 1) with (Z.of_nat (length (pre ++ [s])))
        by (rewrite length_app; simpl; lia).
      rewrite (IH (pre ++ [s]) k).
      * f_equal. rewrite length_app. simpl. lia.
      * now rewrite <- app_assoc.
      * exact Hk.
      * exact Hin.
      * intros j s' Hj Hn. apply (Hfirst (S j)); [lia | exact Hn].
Qed.

Lemma get_next_segment_from_none (all rest : list SegmentDescriptor)
      (i ea : Z) :
  (forall s, In s rest -> ~ in_segment s ea) ->
  ID1.get_next_segment_from all rest i ea = Raise KeyError.
Proof.
  revert i. induction rest as [| s rest IH]; intros i H; simpl.
  - reflexivity.
  - assert (Hs : ID1.contains s ea = false).
    { apply contains_false. apply H. now left. }
    rewrite Hs. apply IH. intros s' Hin. apply H. now right.
Qed.

(** C8, as stated, fails: the table [0x1000, 0x1008),
    [0x1004, 0x100C) parses and passes [validate], and the address
    0x1005 lies in its last segment, yet [get_next_segment] does not
    raise [IndexError]: the scan stops at the first segment that
    contains the address, segment 0, and returns segment 1. *)
Lemma C8_address_in_two_segments :
  ID1.vsParse 4 Fixture.overlapping_id1 = Ok Fixture.overlapping
  /\ ID1.validate Fixture.overlapping = Ok true
  /\ ~ (forall (ea : Z) (i : nat) (seg : SegmentDescriptor),
          nth_error (ID1.segments Fixture.overlapping) i = Some seg ->
          in_segment seg ea ->
          S i = length (ID1.segments Fixture.overlapping) ->
          ID1.get_next_segment Fixture.overlapping ea = Raise IndexError).
Proof.
  split; [vm_compute; reflexivity |].
  split; [vm_compute; reflexivity |].
  intros H.
  specialize (H 0x1005 1%nat (mkSegment (mkBounds 0x1004 0x100C) 0)).
  assert (E : ID1.get_next_segment Fixture.overlapping 0x1005
              = Raise IndexError).
  { apply H; [reflexivity | unfold in_segment; simpl; lia | reflexivity]. }
  vm_compute in E. discriminate.
Qed.

(** C8, amended.  [get_next_segment ea], with segment [i] the first
    segment of the table that contains [ea] (the only one when segments
    do not overlap): it returns the segment at index [i + 1] when there
    is one, raises [IndexError] when [i] is the last index, and raises
    [KeyError] when no segment contains [ea]. *)
Theorem C8_get_next_segment (self : ID1.t) (ea : Z) :
  (forall (i : nat) (seg : SegmentDescriptor),
      nth_error (ID1.segments self) i = Some seg ->
      in_segment seg ea ->
      (forall j s, (j < i)%nat -> nth_error (ID1.segments self) j = Some s ->
                   ~ in_segment s ea) ->
      (forall nxt, nth_error (ID1.segments self) (S i) = Some nxt ->
                   ID1.get_next_segment self ea = Ok nxt)
      /\ (S i = length (ID1.segments self) ->
          ID1.get_next_segment self ea = Raise IndexError))
  /\ ((forall seg, In seg (ID1.segments self) -> ~ in_segment seg ea) ->
      ID1.get_next_segment self ea = Raise KeyError).
Proof.
  split.
  - intros i seg Hi Hin Hfirst.
    assert (E : ID1.get_next_segment self ea
                = list_get (ID1.segments self) (Z.of_nat (S i))).
    { unfold ID1.get_next_segment.
      pose proof (get_next_segment_from_first (ID1.segments self) [] _ i seg ea
                    eq_refl Hi Hin Hfirst) as E.
      simpl in E. rewrite E. f_equal. lia. }
    split.
    + intros nxt Hn. rewrite E. now apply list_get_nth.
    + intros Hlast. rewrite E. apply list_get_past. lia.
  - intros Hnone. unfold ID1.get_next_segment.
    now apply get_next_segment_from_none.
Qed.

Lemma C8_get_next_segment_witness :
  ID1.get_next_segment Fixture.scenario_E 0x1002
  = Ok (mkSegment (mkBounds 0x2000 0x2008) 0)
  /\ ID1.get_next_segment Fixture.scenario_E 0x2001 = Raise IndexError
  /\ ID1.get_next_segment Fixture.scenario_E 0x1FFF = Raise KeyError.
Proof.
  split; [| split].
  - apply (proj1 (C8_get_next_segment Fixture.scenario_E 0x1002) 0%nat
                 (mkSegment (mkBounds 0x1000 0x1004) 0)).
    + reflexivity.
    + unfold in_segment; simpl; lia.
    + intros j s Hj; lia.
    + reflexivity.
  - apply (proj1 (C8_get_next_segment Fixture.scenario_E 0x2001) 1%nat
                 (mkSegment (mkBounds 0x2000 0x2008) 0)).
    + reflexivity.
    + unfold in_segment; simpl; lia.
    + intros j s Hj Hn. assert (j = 0%nat) by lia. subst j.
      vm_compute in Hn. injection Hn as <-. unfold in_segment; simpl; lia.
    + reflexivity.
  - apply (proj2 (C8_get_next_segment Fixture.scenario_E 0x1FFF)).
    intros seg Hin. vm_compute in Hin.
    destruct Hin as [<- | [<- | []]]; unfold in_segment; simpl; lia.
Defined.

(** *** Heads *)

Lemma NextHead_loop_stops (fuel : nat) (self : IDB.t) (ea flags h : Z) :
  IDB.GetFlags self ea = Ok flags ->
  IDB.NextHead_loop fuel self ea flags = Ok h ->
  exists fl, IDB.GetFlags self h = Ok fl /\ isHead fl = true.
Proof.
  revert ea flags.
  induction fuel as [| fuel IH]; intros ea flags Hfl Hloop; simpl in Hloop;
    destruct (isHead flags) eqn:Hhead.
  - injection Hloop as <-. eauto.
  - discriminate.
  - injection Hloop as <-. eauto.
  - apply bind_Ok in Hloop. destruct Hloop as [fl' [Hfl' Hloop]].
    eapply IH; eassumption.
Qed.

Lemma Head_at_head (fuel : nat) (self : IDB.t) (ea flags : Z) :
  IDB.GetFlags self ea = Ok flags -> isHead flags = true ->
  IDB.Head fuel self ea = Ok ea.
Proof.
  intros Hfl Hhead. unfold IDB.Head. rewrite Hfl. simpl.
  destruct fuel; simpl; now rewrite Hhead.
Qed.

(** No address at or above [upper segs] lies in a segment of [segs]. *)
Lemma get_segment_in_below_upper (segs : list SegmentDescriptor) (ea : Z)
      (s : SegmentDescriptor) :
  ID1.get_segment_in segs ea = Ok s -> ea < upper segs.
Proof.
  induction segs as [| x segs IH]; simpl; [discriminate |].
  destruct (ID1.contains x ea) eqn:E.
  - intros _. apply contains_spec in E. unfold in_segment in E. lia.
  - intros H. apply IH in H. lia.
Qed.

Lemma GetFlags_below_upper (self : IDB.t) (ea flags : Z) :
  IDB.GetFlags self ea = Ok flags ->
  ea < match IDB.id1 self with
       | Some id1 => upper (ID1.segments id1)
       | None => 0
       end.
Proof.
  unfold IDB.GetFlags, IDB.call. destruct (IDB.id1 self) as [id1 |];
    [| discriminate].
  unfold ID1.get_flags. intros H. apply bind_Ok in H.
  destruct H as [s [Hs _]]. eapply get_segment_in_below_upper. exact Hs.
Qed.

Lemma GetFlags_returns_or_raises (self : IDB.t) (ea : Z) :
  IDB.GetFlags self ea <> OutOfFuel.
Proof.
  unfold IDB.GetFlags, IDB.call. destruct (IDB.id1 self) as [id1 |];
    [| discriminate].
  unfold ID1.get_flags, ID1.get_segment.
  assert (G : forall segs, ID1.get_segment_in segs ea <> OutOfFuel).
  { induction segs as [| x segs IH]; simpl; [discriminate |].
    destruct (ID1.contains x ea); [discriminate | exact IH]. }
  specialize (G (ID1.segments id1)).
  destruct (ID1.get_segment_in (ID1.segments id1) ea) as [s | e |];
    simpl; try discriminate; [| congruence].
  unfold unpack_from.
  destruct ((_ <? 0) || (_ <? 4)); discriminate.
Qed.

(** The loop of [NextHead] ends: the address grows with every turn,
    and past the last segment [GetFlags] raises [KeyError].  So with
    enough fuel the model gives what the call gives. *)
Lemma NextHead_decides (self : IDB.t) (ea : Z) :
  exists fuel0, forall fuel,
      (fuel0 <= fuel)%nat -> IDB.NextHead fuel self ea <> OutOfFuel.
Proof.
  set (M := match IDB.id1 self with
            | Some id1 => upper (ID1.segments id1)
            | None => 0
            end).
  assert (L : forall fuel a flags,
             (Z.to_nat (M - a) < fuel)%nat ->
             IDB.NextHead_loop fuel self a flags <> OutOfFuel).
  { induction fuel as [| fuel IH]; intros a flags Hfuel; [lia |].
    simpl. destruct (isHead flags); [discriminate |].
    destruct (IDB.GetFlags self (a + 1)) as [fl | e |] eqn:E; simpl.
    - apply GetFlags_below_upper in E. fold M in E. apply IH. lia.
    - discriminate.
    - now apply GetFlags_returns_or_raises in E. }
  exists (S (Z.to_nat (M - (ea + 1)))). intros fuel Hfuel.
  unfold IDB.NextHead.
  destruct (IDB.GetFlags self (ea + 1)) as [fl | e |] eqn:E; simpl.
  - apply L. lia.
  - discriminate.
  - now apply GetFlags_returns_or_raises in E.
Qed.

(** C9.  Whenever [NextHead ea] returns an address [h], [Head h]
    returns [h]: [NextHead] only stops at an address whose flags
    satisfy [isHead], and there the loop of [Head] is not entered,
    whatever fuel either loop is given. *)
Theorem C9_head_of_next_head (self : IDB.t) (fuel fuel' : nat) (ea h : Z) :
  IDB.NextHead fuel self ea = Ok h ->
  IDB.Head fuel' self h = Ok h.
Proof.
  unfold IDB.NextHead. intros H.
  apply bind_Ok in H. destruct H as [flags [Hfl Hloop]].
  destruct (NextHead_loop_stops _ _ _ _ _ Hfl Hloop) as [fl [Hh Hhead]].
  eapply Head_at_head; eassumption.
Qed.

Lemma C9_head_of_next_head_witness :
  IDB.NextHead 8 Fixture.scenario_E_idb 0x1000 = Ok 0x1003
  /\ IDB.Head 0 Fixture.scenario_E_idb 0x1003 = Ok 0x1003.
Proof.
  assert (H : IDB.NextHead 8 Fixture.scenario_E_idb 0x1000 = Ok 0x1003)
    by (vm_compute; reflexivity).
  split; [exact H |].
  exact (C9_head_of_next_head Fixture.scenario_E_idb 8 0 0x1000 0x1003 H).
Defined.

(** *** [GetManyBytes] *)

(** C4 (the code departs from the claim).  In scenario E the range of
    two bytes at 0x1002 ends at the last byte of segment
    [0x1000, 0x1004) and both bytes have a value, yet [GetManyBytes]
    raises [KeyError]: its guard looks up the segment of [ea + size],
    one past the range, which is in no segment. *)
Theorem C4_range_to_last_byte_of_segment :
  IDB.SegStart Fixture.scenario_E_idb 0x1002 = Ok 0x1000
  /\ IDB.SegStart Fixture.scenario_E_idb (0x1002 + 2 - 1) = Ok 0x1000
  /\ (exists x y, IDB.IdbByte Fixture.scenario_E_idb 0x1002 = Ok x
                  /\ IDB.IdbByte Fixture.scenario_E_idb 0x1003 = Ok y)
  /\ IDB.SegStart Fixture.scenario_E_idb (0x1002 + 2) = Raise KeyError
  /\ IDB.GetManyBytes Fixture.scenario_E_idb 0x1002 2 false = Raise KeyError.
Proof.
  split; [| split; [| split; [| split]]]; try (vm_compute; reflexivity).
  exists 0x43, 0x44. split; vm_compute; reflexivity.
Qed.

(** ** The container *)

(** What [IDB.validate] requires: a valid header and all four typed
    sections present and valid. *)
Lemma IDB_validate_Ok (self : IDB.t) (r : bool) :
  IDB.validate self = Ok r ->
  exists s0 s1 s2 s4,
    IDB.id0 self = Some s0 /\ IDB.id1 self = Some s1
    /\ IDB.nam self = Some s2 /\ IDB.til self = Some s4.
Proof.
  unfold IDB.validate. intros H.
  repeat (apply bind_Ok in H; destruct H as [? [? H]]).
  destruct (IDB.id0 self) as [s0 |]; [| discriminate].
  destruct (IDB.id1 self) as [s1 |]; [| discriminate].
  destruct (IDB.nam self) as [s2 |]; [| discriminate].
  destruct (IDB.til self) as [s4 |]; [| discriminate].
  eauto 10.
Qed.

(** With all four typed sections present and valid, [validate]
    returns [True]. *)
Example validate_all_sections_present :
  (idb <- IDB.vsParse Fixture.all_sections_file ;; IDB.validate idb) = Ok true.
Proof. vm_compute. reflexivity. Qed.

(** C7 (the code departs from the claim).  [no_til_file] parses, its
    header is valid and its id0, id1 and nam sections pass their own
    checks; the til section is absent.  [validate] does not succeed:
    the call on the missing section raises [AttributeError]. *)
Theorem C7_validate_with_absent_til :
  (idb <- IDB.vsParse Fixture.no_til_file ;;
   Ok (FileHeader.validate (IDB.header idb),
       option_map ID0.validate (IDB.id0 idb),
       option_map ID1.validate (IDB.id1 idb),
       option_map NAM.validate (IDB.nam idb),
       IDB.til idb,
       IDB.validate idb))
  = Ok (Ok true, Some (Ok true), Some (Ok true), Some (Ok true), None,
        Raise AttributeError).
Proof. vm_compute. reflexivity. Qed.

(** ** Pages *)

Lemma load_loop_length (self : Page.t) (todo : nat) (i : Z) (k : bytes)
      (acc es : list Entry) :
  Page.load_loop self todo i k acc = Ok es ->
  length es = (length acc + todo)%nat.
Proof.
  revert i k acc. induction todo as [| todo IH]; intros i k acc H; simpl in H.
  - injection H as <-. lia.
  - apply bind_Ok in H. destruct H as [e [_ H]].
    apply IH in H. rewrite H, length_app. simpl. lia.
Qed.

(** A decoded page has as many entries as [entry_count] says. *)
Lemma get_entries_length (self : Page.t) (es : list Entry) :
  Page.get_entries self = Ok es ->
  length es = Z.to_nat (Page.entry_count self).
Proof.
  unfold Page.get_entries, Page._load_entries. intros H.
  apply load_loop_length in H. exact H.
Qed.

Lemma validate_loop_without_last (entries : list Entry) :
  Page.validate_loop None entries = Ok true.
Proof. induction entries as [| e rest IH]; simpl; auto. Qed.

(** Whatever its keys, a page that decodes passes [validate]. *)
Lemma validate_accepts (self : Page.t) (es : list Entry) :
  Page.get_entries self = Ok es -> Page.validate self = Ok true.
Proof.
  intros H. unfold Page.validate. rewrite H. simpl.
  apply validate_loop_without_last.
Qed.

Lemma descending_page_parses :
  Page.vsParse 64 (Fixture.btree_page 64 0
                     [(0, b "bb", b "1"); (0, b "aa", b "2")])
  = Ok Fixture.descending_page.
Proof. vm_compute. reflexivity. Qed.

(** C3 (the code departs from the claim).  [descending_page] decodes to
    the keys [bb], [aa], which are not ascending, and [validate]
    returns [True] on it: the loop never assigns [last], so no pair of
    keys is compared. *)
Theorem C3_validate_accepts_descending_keys :
  option_map (map key)
             (match Page.get_entries Fixture.descending_page with
              | Ok es => Some es
              | _ => None
              end) = Some [b "bb"; b "aa"]
  /\ bytes_ltb (b "bb") (b "aa") = false
  /\ Page.validate Fixture.descending_page = Ok true.
Proof. repeat split; vm_compute; reflexivity. Qed.

(** *** [get_entry] *)




(** ** Byte-string order *)

Lemma byte_val_inj (x y : byte) : byte_val x = byte_val y -> x = y.
Proof.
  unfold byte_val. intros H. apply N2Z.inj in H.
  pose proof (Byte.of_to_N x) as Hx. pose proof (Byte.of_to_N y) as Hy.
  rewrite H in Hx. congruence.
Qed.

Lemma bytes_eqb_eq (x y : bytes) : bytes_eqb x y = true <-> x = y.
Proof.
  revert y. induction x as [| a x IH]; intros [| c y]; simpl;
    try (split; [discriminate | discriminate]); try tauto.
  rewrite andb_true_iff, Z.eqb_eq, IH. split.
  - intros [Hv ->]. now rewrite (byte_val_inj _ _ Hv).
  - intros H. injection H as -> ->. auto.
Qed.

Lemma bytes_eqb_refl (x : bytes) : bytes_eqb x x = true.
Proof. now apply bytes_eqb_eq. Qed.

Lemma bytes_ltb_irrefl (x : bytes) : bytes_ltb x x = false.
Proof.
  induction x as [| a x IH]; simpl; [reflexivity |].
  now rewrite Z.ltb_irrefl, Z.eqb_refl.
Qed.

Lemma bytes_ltb_trans (x y z : bytes) :
  bytes_ltb x y = true -> bytes_ltb y z = true -> bytes_ltb x z = true.
Proof.
  revert y z. induction x as [| a x IH]; intros [| c y] [| d z]; simpl;
    try discriminate; auto.
  destruct (Z.ltb_spec (byte_val a) (byte_val c));
    destruct (Z.eqb_spec (byte_val a) (byte_val c));
    destruct (Z.ltb_spec (byte_val c) (byte_val d));
    destruct (Z.eqb_spec (byte_val c) (byte_val d));
    destruct (Z.ltb_spec (byte_val a) (byte_val d));
    destruct (Z.eqb_spec (byte_val a) (byte_val d));
    try lia; try discriminate; auto.
  apply IH.
Qed.

Lemma bytes_ltb_asym (x y : bytes) :
  bytes_ltb x y = true -> bytes_ltb y x = false.
Proof.
  intros H. destruct (bytes_ltb y x) eqn:E; [| reflexivity].
  pose proof (bytes_ltb_trans _ _ _ H E) as T.
  now rewrite bytes_ltb_irrefl in T.
Qed.

Lemma bytes_ltb_neq (x y : bytes) :
  bytes_ltb x y = true -> bytes_eqb x y = false /\ bytes_eqb y x = false.
Proof.
  intros H. split.
  - destruct (bytes_eqb x y) eqn:E; [| reflexivity].
    apply bytes_eqb_eq in E. subst y. now rewrite bytes_ltb_irrefl in H.
  - destruct (bytes_eqb y x) eqn:E; [| reflexivity].
    apply bytes_eqb_eq in E. subst y. now rewrite bytes_ltb_irrefl in H.
Qed.

(** ** Entries of a decoded page *)

Lemma get_entry_nth (self : Page.t) (es : list Entry) (k : nat) (e : Entry) :
  Page.get_entries self = Ok es ->
  nth_error es k = Some e ->
  Page.get_entry self (Z.of_nat k) = Ok e.
Proof.
  intros Hes Hk. unfold Page.get_entry, Page.get_entries in *.
  rewrite Hes. simpl.
  assert (Hlt : (k < length es)%nat) by (apply nth_error_Some; congruence).
  zcases. now apply list_get_nth.
Qed.

Lemma get_entry_middle (self : Page.t) (es1 es2 : list Entry) (e : Entry) :
  Page.get_entries self = Ok (es1 ++ e :: es2) ->
  Page.get_entry self (Z.of_nat (length es1)) = Ok e.
Proof.
  intros Hes. eapply get_entry_nth; [exact Hes |].
  rewrite nth_error_app2 by lia. now rewrite Nat.sub_diag.
Qed.

Lemma entry_count_length (self : Page.t) (es : list Entry) :
  Page.get_entries self = Ok es -> es <> [] ->
  Page.entry_count self = Z.of_nat (length es).
Proof.
  intros Hes Hne. pose proof (get_entries_length _ _ Hes) as H.
  destruct es as [| e es]; [congruence |]. cbn [length] in *. lia.
Qed.

Lemma list_get_last {A : Type} (l : list A) (x : A) :
  list_get (l ++ [x]) (-1) = Ok x.
Proof.
  unfold list_get. cbv zeta. rewrite length_app. simpl length.
  zcases.
  replace (Z.to_nat (-1 + Z.of_nat (length l + 1))) with (length l) by lia.
  rewrite nth_error_app2 by lia. now rewrite Nat.sub_diag.
Qed.

(** ** Lists of a tree *)

Section Tree.

Variable index : ID0.t.

Lemma interleave_app (es1 es2 : list Entry) (ls1 ls2 : list (list Entry)) :
  length es1 = length ls1 ->
  interleave (es1 ++ es2) (ls1 ++ ls2)
  = interleave es1 ls1 ++ interleave es2 ls2.
Proof.
  revert ls1. induction es1 as [| e es1 IH]; intros [| l ls1] H;
    try discriminate; simpl; [reflexivity |].
  rewrite IH by (simpl in H; lia). now rewrite <- app_assoc.
Qed.

Lemma subtree_nonempty (h : nat) (n : Z) (l : list Entry) :
  subtree index h n l -> l <> [].
Proof.
  revert n l. induction h as [| h IH]; intros n l H; inversion H; subst.
  - assumption.
  - intros E. apply app_eq_nil in E. destruct E as [E _].
    eapply IH; eassumption.
Qed.

Lemma kid_nonempty (h : nat) (e : Entry) (l : list Entry) :
  kid index h e l -> l <> [].
Proof. intros [pg [_ H]]. eapply subtree_nonempty; eassumption. Qed.

Lemma subtree_kids (h : nat) (es : list Entry) (ls : list (list Entry)) :
  Forall2 (fun e l => exists pg, page e = Ok pg /\ subtree index h pg l) es ls
  <-> Forall2 (kid index h) es ls.
Proof. reflexivity. Qed.

Lemma interleave_nil_inv (h : nat) (es : list Entry) (ls : list (list Entry)) :
  Forall2 (kid index h) es ls -> interleave es ls = [] -> es = [].
Proof. intros H E. destruct H; [reflexivity | discriminate]. Qed.

Lemma interleave_cons_inv (h : nat) (es : list Entry) (ls : list (list Entry))
      (e' : Entry) (a' : list Entry) :
  Forall2 (kid index h) es ls ->
  interleave es ls = e' :: a' ->
  exists es' l1 ls',
    es = e' :: es' /\ ls = l1 :: ls' /\ a' = l1 ++ interleave es' ls'
    /\ kid index h e' l1 /\ Forall2 (kid index h) es' ls'.
Proof.
  intros H E. destruct H as [| e l es ls Hk Hrest]; [discriminate |].
  simpl in E. injection E as -> <-. eauto 10.
Qed.

Lemma In_interleave (es : list Entry) (ls : list (list Entry)) (e : Entry) :
  length es = length ls -> In e es -> In e (interleave es ls).
Proof.
  revert ls. induction es as [| x es IH]; intros [| l ls] Hlen Hin;
    try discriminate; simpl in *; [contradiction |].
  destruct Hin as [-> | Hin]; [now left |].
  right. apply in_or_app. right. apply IH; [lia | exact Hin].
Qed.

Lemma located_subtree (h : nat) (n : Z) (rel : list Page.t) (en : Z)
      (bf : list Entry) (e : Entry) (af : list Entry) :
  located index h n rel en bf e af -> subtree index h n (bf ++ e :: af).
Proof.
  induction 1.
  - eapply subtree_leaf; eauto. now destruct es1.
  - replace ((l0 ++ interleave es1 ls1) ++ e :: l ++ interleave es2 ls2)
      with (l0 ++ interleave (es1 ++ e :: es2) (ls1 ++ l :: ls2)).
    + eapply subtree_branch; eauto.
      * now destruct es1.
      * apply Forall2_app; [assumption |]. now constructor.
    + rewrite interleave_app by (eapply Forall2_length; eassumption).
      simpl. now rewrite <- app_assoc.
  - replace (bf ++ e :: af ++ interleave es ls)
      with ((bf ++ e :: af) ++ interleave es ls)
      by (now rewrite <- app_assoc).
    eapply subtree_branch; eauto.
  - replace ((l0 ++ interleave es1 ls1 ++ em :: bf) ++ e :: af ++ interleave es2 ls2)
      with (l0 ++ interleave (es1 ++ em :: es2) (ls1 ++ (bf ++ e :: af) :: ls2)).
    + eapply subtree_branch; eauto.
      * now destruct es1.
      * apply Forall2_app; [assumption |]. constructor; [| assumption].
        exists pg. split; assumption.
    + rewrite interleave_app by (eapply Forall2_length; eassumption).
      simpl. repeat (rewrite <- app_assoc; simpl). reflexivity.
Qed.

(** *** Ascending lists *)

Lemma keys_lt_trans (x y z : Entry) : keys_lt x y -> keys_lt y z -> keys_lt x z.
Proof. unfold keys_lt. apply bytes_ltb_trans. Qed.

Lemma ascending_app (x y : list Entry) :
  ascending (x ++ y) ->
  ascending x /\ ascending y
  /\ (forall u v, In u x -> In v y -> keys_lt u v).
Proof.
  unfold ascending. induction x as [| a x IH]; simpl; intros H.
  - repeat split; [constructor | exact H | contradiction].
  - inversion H as [| ? ? Hs Hall]; subst.
    destruct (IH Hs) as [Hx [Hy Hxy]].
    rewrite Forall_forall in Hall.
    repeat split.
    + constructor; [exact Hx |]. apply Forall_forall. intros u Hu.
      apply Hall. apply in_or_app. now left.
    + exact Hy.
    + intros u v [<- | Hu] Hv.
      * apply Hall. apply in_or_app. now right.
      * now apply Hxy.
Qed.

Lemma ascending_cons (e : Entry) (l : list Entry) :
  ascending (e :: l) -> ascending l /\ (forall v, In v l -> keys_lt e v).
Proof.
  intros H. inversion H as [| ? ? Hs Hall]; subst.
  rewrite Forall_forall in Hall. auto.
Qed.

(** *** [find_index] on a branch page *)

Lemma find_index_branch_all_less (es : list Entry) (i : Z) (k : bytes) :
  (forall x, In x es -> bytes_ltb (key x) k = true) ->
  Cursor.find_index_branch es i k = Raise KeyError.
Proof.
  revert i. induction es as [| e es IH]; intros i H; simpl; [reflexivity |].
  assert (He : bytes_ltb (key e) k = true) by (apply H; now left).
  destruct (bytes_ltb_neq _ _ He) as [_ ->].
  rewrite (bytes_ltb_asym _ _ He).
  apply IH. intros x Hx. apply H. now right.
Qed.

Lemma find_index_branch_first_greater (es1 : list Entry) (e' : Entry)
      (es2 : list Entry) (i : Z) (k : bytes) :
  (forall x, In x es1 -> bytes_ltb (key x) k = true) ->
  bytes_ltb k (key e') = true ->
  Cursor.find_index_branch (es1 ++ e' :: es2) i k
  = Ok (i + Z.of_nat (length es1)).
Proof.
  revert i. induction es1 as [| e es1 IH]; intros i H Hk; simpl.
  - destruct (bytes_eqb k (key e')); rewrite ?Hk; f_equal; lia.
  - assert (He : bytes_ltb (key e) k = true) by (apply H; now left).
    destruct (bytes_ltb_neq _ _ He) as [_ ->].
    rewrite (bytes_ltb_asym _ _ He).
    rewrite IH; [f_equal; lia | | exact Hk].
    intros x Hx. apply H. now right.
Qed.

Lemma find_index_branch_head (e0 : Entry) (es : list Entry) (k : bytes) :
  bytes_ltb k (key e0) = true ->
  Cursor.find_index_branch (e0 :: es) 0 k = Ok 0.
Proof.
  intros H.
  apply (find_index_branch_first_greater [] e0 es 0 k); [contradiction | exact H].
Qed.

Lemma get_entry_first (p : Page.t) (e : Entry) (rest : list Entry) :
  Page.get_entries p = Ok (e :: rest) -> Page.get_entry p 0 = Ok e.
Proof. intros Hes. apply (get_entry_middle p [] rest e Hes). Qed.

Lemma find_index_leaf_page (p : Page.t) (es : list Entry) (k : bytes) :
  Page.get_entries p = Ok es -> Page.is_leaf p = true ->
  Cursor.find_index p k = Cursor.find_index_leaf es 0 k.
Proof. intros Hes Hleaf. unfold Cursor.find_index. now rewrite Hes, Hleaf. Qed.

Lemma find_index_branch_page (p : Page.t) (es : list Entry) (k : bytes) :
  Page.get_entries p = Ok es -> Page.is_leaf p = false ->
  Cursor.find_index p k = Cursor.find_index_branch es 0 k.
Proof. intros Hes Hleaf. unfold Cursor.find_index. now rewrite Hes, Hleaf. Qed.

(** *** Descents *)

Lemma subtree_page (h : nat) (n : Z) (l : list Entry) :
  subtree index h n l -> exists p, ID0.get_page index n = Ok p.
Proof. intros H. inversion H; eauto. Qed.

(** From the root of a tree the loop of [next] reaches the leaf that
    holds the least entry. *)
Lemma descend_min_first (h : nat) :
  forall (n : Z) (l : list Entry) (p : Page.t) (fuel : nat)
         (above : list Page.t),
    subtree index h n l ->
    ID0.get_page index n = Ok p ->
    (h <= fuel)%nat ->
    exists pre leaf e rest,
      l = e :: rest
      /\ Cursor.descend_min fuel index above p = Ok (above ++ pre, leaf)
      /\ located index h n (pre ++ [leaf]) 0 [] e rest
      /\ Page.get_entry leaf 0 = Ok e.
Proof.
  induction h as [| h IH]; intros n l p fuel above Hsub Hp Hfuel;
    inversion Hsub as [n0 p0 es Hp0 Hleaf Hes Hne
                      | h0 n0 p0 es l0 ls Hp0 Hleaf Hes Hne Hleft Hkids];
    subst; rewrite Hp in Hp0; injection Hp0 as <-.
  - destruct l as [| e rest]; [congruence |].
    exists [], p, e, rest. repeat split.
    + rewrite app_nil_r. destruct fuel; simpl; now rewrite Hleaf.
    + apply (loc_leaf index n p [] e rest); assumption.
    + apply (get_entry_first p e rest Hes).
  - destruct fuel as [| fuel]; [lia |].
    destruct (subtree_page _ _ _ Hleft) as [p' Hp'].
    destruct (IH _ _ p' fuel (above ++ [p]) Hleft Hp' ltac:(lia))
      as [pre [leaf [e [rest [-> [Hdesc [Hloc Hget]]]]]]].
    exists (p :: pre), leaf, e, (rest ++ interleave es ls). repeat split.
    + simpl. rewrite Hleaf, Hp'. simpl. rewrite Hdesc.
      now rewrite <- app_assoc.
    + apply (loc_left index h n p es ls (pre ++ [leaf]) 0 [] e rest);
        assumption.
    + exact Hget.
Qed.

(** The exact search for the least key of a tree follows the leftmost
    pointers down to it. *)
Lemma find_least (h : nat) :
  forall (n : Z) (l : list Entry) (fuel : nat) (above : list Page.t),
    subtree index h n l ->
    ascending l ->
    (h < fuel)%nat ->
    exists rel e rest,
      l = e :: rest
      /\ ExactMatchStrategy._find fuel index above n (key e)
         = Ok (Cursor.mk (above ++ rel) e 0)
      /\ located index h n rel 0 [] e rest.
Proof.
  induction h as [| h IH]; intros n l fuel above Hsub Hasc Hfuel;
    (destruct fuel as [| fuel]; [lia |]);
    inversion Hsub as [n0 p es Hp Hleaf Hes Hne
                      | h0 n0 p es l0 ls Hp Hleaf Hes Hne Hleft Hkids];
    subst.
  - destruct l as [| e rest]; [congruence |].
    exists [p], e, rest. repeat split.
    + simpl. rewrite Hp. simpl.
      rewrite (find_index_leaf_page p _ _ Hes Hleaf). simpl.
      rewrite bytes_eqb_refl. simpl.
      rewrite (get_entry_first p e rest Hes). simpl.
      now rewrite bytes_eqb_refl.
    + apply (loc_leaf index n p [] e rest); assumption.
  - apply ascending_app in Hasc. destruct Hasc as [Hasc0 [_ Hcross]].
    destruct (IH _ _ fuel (above ++ [p]) Hleft Hasc0 ltac:(lia))
      as [rel [e [rest [-> [Hfind Hloc]]]]].
    destruct es as [| e0 es']; [congruence |].
    assert (Hlt : bytes_ltb (key e) (key e0) = true).
    { apply Hcross; [now left |].
      apply In_interleave; [eapply Forall2_length; eassumption | now left]. }
    exists (p :: rel), e, (rest ++ interleave (e0 :: es') ls). repeat split.
    + simpl. rewrite Hp. simpl.
      rewrite (find_index_branch_page p _ _ Hes Hleaf).
      rewrite (find_index_branch_head e0 es' (key e) Hlt). simpl.
      rewrite (get_entry_first p e0 es' Hes). simpl.
      destruct (bytes_ltb_neq _ _ Hlt) as [_ ->].
      rewrite Hleaf. simpl. rewrite Hfind. now rewrite <- app_assoc.
    + apply (loc_left index h n p (e0 :: es') ls rel 0 [] e rest);
        assumption.
Qed.

(** *** Climbing from the last entry of a tree *)

Lemma ascending_middle (x y z : list Entry) :
  ascending (x ++ y ++ z) -> ascending y.
Proof.
  intros H. apply ascending_app in H. destruct H as [_ [H _]].
  apply ascending_app in H. tauto.
Qed.

(** When the cursor stands on the last entry of the tree at page [n],
    it is on the last entry of a leaf, and the loop of [next] pops the
    path up to the page of [n] without finding a greater entry. *)
Lemma ascend_from_last (h : nat) (n : Z) (rel : list Page.t) (en : Z)
      (bf : list Entry) (e : Entry) (af : list Entry) :
  located index h n rel en bf e af ->
  af = [] ->
  ascending (bf ++ [e]) ->
  (exists pre leaf,
      rel = pre ++ [leaf] /\ Page.is_leaf leaf = true
      /\ en = Page.entry_count leaf - 1)
  /\ (exists p rest,
         rel = p :: rest
         /\ forall r, Cursor.ascend (rev rel ++ r) (key e)
                      = Cursor.ascend (p :: r) (key e)).
Proof.
  induction 1 as [n p es1 e es2 Hp Hleaf Hes
                 | h n p es1 e es2 l0 ls1 l ls2 Hp Hleaf Hes Hleft Hk1 Hk Hk2
                 | h n p es ls rel en bf e af Hp Hleaf Hes Hne Hk Hloc IH
                 | h n p es1 em es2 l0 ls1 ls2 pg rel en bf e af
                     Hp Hleaf Hes Hleft Hk1 Hpg Hloc IH Hk2];
    intros Haf Hasc.
  - subst es2. split.
    + exists [], p. repeat split; [assumption |].
      rewrite (entry_count_length p _ Hes) by (now destruct es1).
      rewrite length_app. simpl. lia.
    + exists p, []. split; reflexivity.
  - apply app_eq_nil in Haf. destruct Haf as [-> _].
    exfalso. eapply kid_nonempty; eauto.
  - apply app_eq_nil in Haf. destruct Haf as [_ Haf].
    apply (interleave_nil_inv h _ _ Hk) in Haf. congruence.
  - apply app_eq_nil in Haf. destruct Haf as [-> Haf].
    apply (interleave_nil_inv h _ _ Hk2) in Haf. subst es2.
    assert (Hasc' : ascending (bf ++ [e])).
    { apply (ascending_middle (l0 ++ interleave es1 ls1 ++ [em]) _ []).
      rewrite app_nil_r.
      replace ((l0 ++ interleave es1 ls1 ++ [em]) ++ bf ++ [e])
        with ((l0 ++ interleave es1 ls1 ++ em :: bf) ++ [e]); [assumption |].
      repeat (rewrite <- app_assoc; simpl). reflexivity. }
    destruct (IH eq_refl Hasc') as [[pre [leaf [Hrel [Hl Hen]]]]
                                    [pc [restc [Hrel' Hclimb]]]].
    split.
    + exists (p :: pre), leaf. rewrite Hrel. auto.
    + exists p, rel. split; [reflexivity |]. intros r.
      simpl rev. rewrite <- app_assoc. simpl app.
      rewrite Hclimb. simpl.
      rewrite (find_index_branch_page p _ _ Hes Hleaf).
      rewrite find_index_branch_all_less; [reflexivity |].
      intros x Hx. apply ascending_app in Hasc.
      destruct Hasc as [_ [_ Hcross]].
      apply Hcross; [| now left].
      apply in_or_app. right. apply in_or_app.
      apply in_app_or in Hx. destruct Hx as [Hx | [<- | []]].
      * left. apply In_interleave;
          [eapply Forall2_length; eassumption | assumption].
      * right. now left.
Qed.

(** At the last entry of the whole tree [next] raises [IndexError]. *)
Lemma next_at_end (h : nat) (n : Z) (rel : list Page.t) (en : Z)
      (bf : list Entry) (e : Entry) (fuel : nat) :
  located index h n rel en bf e [] ->
  ascending (bf ++ [e]) ->
  Cursor.next fuel index (Cursor.mk rel e en) = Raise IndexError.
Proof.
  intros Hloc Hasc.
  destruct (ascend_from_last _ _ _ _ _ _ _ Hloc eq_refl Hasc)
    as [[pre [leaf [Hrel [Hl Hen]]]] [p [rest [Hrel' Hclimb]]]].
  unfold Cursor.next. cbn [Cursor.path Cursor.entry Cursor.entry_number].
  rewrite Hrel at 1. rewrite list_get_last. cbn [bind].
  rewrite Hl, Hen, Z.eqb_refl.
  specialize (Hclimb []). rewrite app_nil_r in Hclimb.
  rewrite Hclimb. reflexivity.
Qed.

(** *** One step of [next] *)

Lemma rev_path (above : list Page.t) (p : Page.t) (rel : list Page.t) :
  rev (above ++ p :: rel) = rev rel ++ p :: rev above.
Proof. rewrite rev_app_distr. simpl. now rewrite <- app_assoc. Qed.

(** The step of [next] from the last entry of a child, once the climb
    has reached the page [p] above it: the cursor moves to the entry of
    [p] at the index [find_index] gives. *)
Lemma next_climbs_to (fuel : nat) (above : list Page.t) (p : Page.t)
      (rel : list Page.t) (en : Z) (e e' : Entry) (k : nat)
      (es : list Entry) (h : nat) (n : Z) (bf : list Entry) :
  located index h n rel en bf e [] ->
  ascending (bf ++ [e]) ->
  Page.get_entries p = Ok es ->
  Page.is_leaf p = false ->
  Cursor.find_index_branch es 0 (key e) = Ok (Z.of_nat k) ->
  nth_error es k = Some e' ->
  Cursor.next fuel index (Cursor.mk (above ++ p :: rel) e en)
  = Ok (Cursor.mk (above ++ [p]) e' (Z.of_nat k)).
Proof.
  intros Hloc Hasc Hes Hleaf Hfind Hnth.
  destruct (ascend_from_last _ _ _ _ _ _ _ Hloc eq_refl Hasc)
    as [[pre [leaf [Hrel [Hl Hen]]]] [pc [restc [Hrel' Hclimb]]]].
  unfold Cursor.next. cbn [Cursor.path Cursor.entry Cursor.entry_number].
  replace (above ++ p :: rel) with ((above ++ p :: pre) ++ [leaf]) at 1
    by (rewrite Hrel, <- app_assoc; reflexivity).
  rewrite list_get_last. cbn [bind].
  rewrite Hl, Hen, Z.eqb_refl.
  rewrite rev_path, Hclimb. simpl Cursor.ascend.
  rewrite (find_index_branch_page p _ _ Hes Hleaf), Hfind.
  cbn [bind fst snd]. simpl rev. rewrite rev_involutive.
  rewrite list_get_last. cbn [bind].
  now rewrite (get_entry_nth p es k e' Hes Hnth).
Qed.

Lemma next_located (h : nat) (n : Z) (rel : list Page.t) (en : Z)
      (bf : list Entry) (e : Entry) (af : list Entry) :
  located index h n rel en bf e af ->
  forall (e' : Entry) (af' : list Entry) (fuel : nat) (above : list Page.t),
    af = e' :: af' ->
    ascending (bf ++ e :: af) ->
    (h <= fuel)%nat ->
    exists rel' en',
      Cursor.next fuel index (Cursor.mk (above ++ rel) e en)
      = Ok (Cursor.mk (above ++ rel') e' en')
      /\ located index h n rel' en' (bf ++ [e]) e' af'.
Proof.
  induction 1 as [n p es1 e es2 Hp Hleaf Hes
                 | h n p es1 e es2 l0 ls1 l ls2 Hp Hleaf Hes Hleft Hk1 Hk Hk2
                 | h n p es ls rel en bf e af Hp Hleaf Hes Hne Hk Hloc IH
                 | h n p es1 em es2 l0 ls1 ls2 pg rel en bf e af
                     Hp Hleaf Hes Hleft Hk1 Hpg Hloc IH Hk2];
    intros e' af' fuel above Haf Hasc Hfuel.
  - (* inside a leaf *)
    subst es2.
    assert (Hes' : Page.get_entries p = Ok ((es1 ++ [e]) ++ e' :: af'))
      by (now rewrite <- app_assoc).
    exists [p], (Z.of_nat (length (es1 ++ [e]))). split.
    + unfold Cursor.next. cbn [Cursor.path Cursor.entry Cursor.entry_number].
      rewrite list_get_last. cbn [bind]. rewrite Hleaf.
      rewrite (entry_count_length p _ Hes) by (now destruct es1).
      replace (Z.of_nat (length es1)
               =? Z.of_nat (length (es1 ++ e :: e' :: af')) - 1) with false
        by (symmetry; apply Z.eqb_neq; rewrite length_app; simpl; lia).
      replace (Z.of_nat (length es1) + 1)
        with (Z.of_nat (length (es1 ++ [e])))
        by (rewrite length_app; simpl; lia).
      now rewrite (get_entry_middle p _ _ _ Hes').
    + apply loc_leaf; assumption.
  - (* from a branch entry down to the least entry of its child *)
    destruct Hk as [pg [Hpg Hsub]].
    destruct (subtree_page _ _ _ Hsub) as [p' Hp'].
    destruct (descend_min_first h pg l p' fuel (above ++ [p]) Hsub Hp'
                ltac:(lia))
      as [pre [leaf [x [rest [-> [Hdesc [Hloc Hget]]]]]]].
    simpl in Haf. injection Haf as -> <-.
    exists (p :: pre ++ [leaf]), 0. split.
    + unfold Cursor.next. cbn [Cursor.path Cursor.entry Cursor.entry_number].
      rewrite list_get_last. cbn [bind]. rewrite Hleaf.
      rewrite Hpg. cbn [bind]. rewrite Hp'. cbn [bind].
      rewrite Hdesc. cbn [bind fst snd]. rewrite Hget. cbn [bind].
      repeat (rewrite <- app_assoc; simpl). reflexivity.
    + replace ((l0 ++ interleave es1 ls1) ++ [e])
        with (l0 ++ interleave es1 ls1 ++ e :: [])
        by (now rewrite <- app_assoc).
      eapply loc_child; eauto.
  - (* under the leftmost child *)
    destruct af as [| x af''].
    + simpl in Haf.
      destruct (interleave_cons_inv h _ _ _ _ Hk Haf)
        as [es' [l1 [ls' [-> [-> [-> [Hk1 Hk']]]]]]].
      assert (Hasc' : ascending (bf ++ [e])).
      { apply (ascending_middle [] _ (interleave (e' :: es') (l1 :: ls'))).
        simpl. now rewrite <- app_assoc. }
      exists [p], 0. split.
      * apply (next_climbs_to fuel above p rel en e e' 0 (e' :: es')
                              h (Page.ppointer p) bf); auto.
        apply find_index_branch_head.
        apply ascending_app in Hasc. destruct Hasc as [_ [Hasc _]].
        apply ascending_cons in Hasc. destruct Hasc as [_ Hasc].
        apply Hasc. now left.
      * pose proof (loc_entry index h n p [] e' es' (bf ++ [e]) [] l1 ls'
                      Hp Hleaf Hes (located_subtree _ _ _ _ _ _ _ Hloc)
                      (Forall2_nil _) Hk1 Hk') as L.
        simpl in L. now rewrite app_nil_r in L.
    + simpl in Haf. injection Haf as -> <-.
      assert (Hasc' : ascending (bf ++ e :: e' :: af'')).
      { apply (ascending_middle [] _ (interleave es ls)).
        simpl. now rewrite <- app_assoc. }
      destruct (IH e' af'' fuel (above ++ [p]) eq_refl Hasc' ltac:(lia))
        as [rel' [en' [Hnext Hloc']]].
      exists (p :: rel'), en'. split.
      * rewrite <- app_assoc in Hnext. simpl in Hnext. rewrite Hnext.
        now rewrite <- app_assoc.
      * apply loc_left; assumption.
  - (* under the child of entry [em] *)
    destruct af as [| x af''].
    + simpl in Haf.
      destruct (interleave_cons_inv h _ _ _ _ Hk2 Haf)
        as [es' [l1 [ls' [-> [-> [-> [Hke Hk']]]]]]].
      assert (Hasc' : ascending (bf ++ [e])).
      { apply (ascending_middle (l0 ++ interleave es1 ls1 ++ [em]) _
                                (interleave (e' :: es') (l1 :: ls'))).
        replace ((l0 ++ interleave es1 ls1 ++ [em])
                   ++ (bf ++ [e]) ++ interleave (e' :: es') (l1 :: ls'))
          with ((l0 ++ interleave es1 ls1 ++ em :: bf)
                  ++ e :: [] ++ interleave (e' :: es') (l1 :: ls'));
          [assumption |].
        repeat (rewrite <- app_assoc; simpl). reflexivity. }
      assert (Hes' : Page.get_entries p = Ok ((es1 ++ [em]) ++ e' :: es'))
        by (now rewrite <- app_assoc).
      apply ascending_app in Hasc. destruct Hasc as [_ [Hasc Hcross]].
      exists [p], (Z.of_nat (length (es1 ++ [em]))). split.
      * apply (next_climbs_to fuel above p rel en e e'
                              (length (es1 ++ [em]))
                              ((es1 ++ [em]) ++ e' :: es') h pg bf
                              Hloc Hasc' Hes' Hleaf).
        -- apply (find_index_branch_first_greater (es1 ++ [em]) e' es' 0).
           ++ intros y Hy. apply Hcross; [| now left].
              apply in_or_app. right. apply in_or_app.
              apply in_app_or in Hy. destruct Hy as [Hy | [<- | []]].
              ** left. apply In_interleave;
                   [eapply Forall2_length; eassumption | assumption].
              ** right. now left.
           ++ apply ascending_cons in Hasc. destruct Hasc as [_ Hasc].
              apply Hasc. now left.
        -- rewrite nth_error_app2 by lia. now rewrite Nat.sub_diag.
      * pose proof (loc_entry index h n p (es1 ++ [em]) e' es' l0
                      (ls1 ++ [bf ++ [e]]) l1 ls' Hp Hleaf Hes' Hleft) as L.
        rewrite interleave_app in L
          by (eapply Forall2_length; eassumption).
        replace ((l0 ++ interleave es1 ls1 ++ em :: bf) ++ [e])
          with (l0 ++ interleave es1 ls1 ++ interleave [em] [bf ++ [e]])
          by (simpl; repeat (rewrite <- app_assoc; simpl);
              rewrite ?app_nil_r; reflexivity).
        apply L; auto.
        apply Forall2_app; [assumption |].
        constructor; [| constructor].
        exists pg. split; [assumption |].
        apply (located_subtree _ _ _ _ _ _ _ Hloc).
    + simpl in Haf. injection Haf as -> <-.
      assert (Hasc' : ascending (bf ++ e :: e' :: af'')).
      { apply (ascending_middle (l0 ++ interleave es1 ls1 ++ [em]) _
                                (interleave es2 ls2)).
        replace ((l0 ++ interleave es1 ls1 ++ [em])
                   ++ (bf ++ e :: e' :: af'') ++ interleave es2 ls2)
          with ((l0 ++ interleave es1 ls1 ++ em :: bf)
                  ++ e :: (e' :: af'') ++ interleave es2 ls2);
          [assumption |].
        repeat (rewrite <- app_assoc; simpl). reflexivity. }
      destruct (IH e' af'' fuel (above ++ [p]) eq_refl Hasc' ltac:(lia))
        as [rel' [en' [Hnext Hloc']]].
      exists (p :: rel'), en'. split.
      * rewrite <- app_assoc in Hnext. simpl in Hnext. rewrite Hnext.
        now rewrite <- app_assoc.
      * replace ((l0 ++ interleave es1 ls1 ++ em :: bf) ++ [e])
          with (l0 ++ interleave es1 ls1 ++ em :: (bf ++ [e]))
          by (repeat (rewrite <- app_assoc; simpl); reflexivity).
        eapply loc_child; eauto.
Qed.

(** *** The whole traversal *)

Lemma traverse_visits (h : nat) (n : Z) (fuel : nat) :
  (h <= fuel)%nat ->
  forall (af : list Entry) (rel : list Page.t) (en : Z) (bf : list Entry)
         (e : Entry),
    located index h n rel en bf e af ->
    ascending (bf ++ e :: af) ->
    exists c,
      traverse fuel index (Cursor.mk rel e en) (length af) = Ok (e :: af, c)
      /\ Cursor.next fuel index c = Raise IndexError.
Proof.
  intros Hfuel. induction af as [| e' af IH]; intros rel en bf e Hloc Hasc.
  - exists (Cursor.mk rel e en). split; [reflexivity |].
    eapply next_at_end; eassumption.
  - destruct (next_located _ _ _ _ _ _ _ Hloc e' af fuel [] eq_refl Hasc Hfuel)
      as [rel' [en' [Hnext Hloc']]].
    simpl app in Hnext.
    assert (Hasc' : ascending ((bf ++ [e]) ++ e' :: af))
      by (now rewrite <- app_assoc).
    destruct (IH rel' en' (bf ++ [e]) e' Hloc' Hasc') as [c [Htr Hend]].
    exists c. split; [| exact Hend].
    simpl. rewrite Hnext. cbn [bind]. rewrite Htr. reflexivity.
Qed.

End Tree.

(** C6.  In a well-formed index (the pages under the root form a tree
    whose pages hold at least one entry each, the keys of its entries
    [l] in key order are strictly ascending, and [record_count] is their
    number), the exact search for the least key returns a cursor from
    which [record_count - 1] calls of [next] succeed and visit exactly
    the entries [l], every key once and in strictly ascending order;
    one further call of [next] raises [IndexError].  This holds for any
    fuel above the height of the tree. *)
Theorem C6_next_visits_every_key (index : ID0.t) (h : nat) (l : list Entry)
        (fuel : nat) :
  well_formed index h l ->
  (h < fuel)%nat ->
  exists (least : Entry) (c0 c_last : Cursor.t),
    hd_error l = Some least
    /\ ID0_find fuel index (key least) EXACT_MATCH = Ok c0
    /\ traverse fuel index c0 (Z.to_nat (ID0.record_count index - 1))
       = Ok (l, c_last)
    /\ ascending l
    /\ Cursor.next fuel index c_last = Raise IndexError.
Proof.
  intros [Htree Hasc Hcount] Hfuel.
  destruct (find_least index h _ _ fuel [] Htree Hasc Hfuel)
    as [rel [e [rest [-> [Hfind Hloc]]]]].
  destruct (traverse_visits index h _ fuel ltac:(lia) rest rel 0 [] e Hloc Hasc)
    as [c [Htr Hend]].
  exists e, (Cursor.mk rel e 0), c. repeat split; auto.
  rewrite Hcount. simpl length.
  replace (Z.to_nat (Z.of_nat (S (length rest)) - 1)) with (length rest) by lia.
  exact Htr.
Qed.

Lemma scenario_D_parses :
  ID0.vsParse Fixture.scenario_D_id0 = Ok Fixture.scenario_D.
Proof. vm_compute. reflexivity. Qed.

Lemma C6_next_visits_every_key_witness :
  exists c0 c_last : Cursor.t,
    ID0_find 2 Fixture.scenario_D (b "a") EXACT_MATCH = Ok c0
    /\ traverse 2 Fixture.scenario_D c0 7
       = Ok ([LeafEntry (b "a") (b "1"); LeafEntry (b "b") (b "2");
              BranchEntry 3 (b "c") (b "3");
              LeafEntry (b "d") (b "4"); LeafEntry (b "e") (b "5");
              BranchEntry 4 (b "f") (b "6");
              LeafEntry (b "g") (b "7"); LeafEntry (b "h") (b "8")], c_last)
    /\ Cursor.next 2 Fixture.scenario_D c_last = Raise IndexError.
Proof.
  destruct (C6_next_visits_every_key Fixture.scenario_D 1
              [LeafEntry (b "a") (b "1"); LeafEntry (b "b") (b "2");
               BranchEntry 3 (b "c") (b "3");
               LeafEntry (b "d") (b "4"); LeafEntry (b "e") (b "5");
               BranchEntry 4 (b "f") (b "6");
               LeafEntry (b "g") (b "7"); LeafEntry (b "h") (b "8")] 2)
    as [least [c0 [c_last [Hhd [Hfind [Htr [_ Hend]]]]]]].
  - split.
    + eapply (subtree_branch _ 0 1 _
                [BranchEntry 3 (b "c") (b "3"); BranchEntry 4 (b "f") (b "6")]
                [LeafEntry (b "a") (b "1"); LeafEntry (b "b") (b "2")]
                [[LeafEntry (b "d") (b "4"); LeafEntry (b "e") (b "5")];
                 [LeafEntry (b "g") (b "7"); LeafEntry (b "h") (b "8")]]).
      * vm_compute. reflexivity.
      * vm_compute. reflexivity.
      * vm_compute. reflexivity.
      * discriminate.
      * eapply subtree_leaf;
          [vm_compute; reflexivity | vm_compute; reflexivity
           | vm_compute; reflexivity | discriminate].
      * repeat constructor;
          (eexists; split; [reflexivity |]);
          (eapply subtree_leaf;
           [vm_compute; reflexivity | vm_compute; reflexivity
            | vm_compute; reflexivity | discriminate]).
    + repeat constructor.
    + reflexivity.
  - lia.
  - injection Hhd as <-. exists c0, c_last. auto.
Defined.

(** *** Searches for a key the tree does not hold *)

Section Absent.

Variable index : ID0.t.

Lemma startswith_refl (x : bytes) : startswith x x = true.
Proof.
  induction x as [| a x IH]; simpl; [reflexivity |].
  now rewrite Z.eqb_refl, IH.
Qed.

(** The child of an entry of a branch page is a tree whose entries are
    among those under the page. *)
Lemma kid_of_entry (h : nat) (es : list Entry) (ls : list (list Entry))
      (e : Entry) :
  Forall2 (kid index h) es ls -> In e es ->
  exists pg le, page e = Ok pg /\ subtree index h pg le
                /\ incl le (interleave es ls).
Proof.
  induction 1 as [| x l es ls [pg [Hpg Hsub]] Hrest IH]; intros Hin;
    [contradiction |].
  destruct Hin as [<- | Hin].
  - exists pg, l. repeat split; auto.
    intros y Hy. simpl. right. apply in_or_app. now left.
  - destruct (IH Hin) as [pg' [le [Hpg' [Hsub' Hincl]]]].
    exists pg', le. repeat split; auto.
    intros y Hy. simpl. right. apply in_or_app. right. now apply Hincl.
Qed.

Lemma scan_leaf_absent (es : list Entry) (i : Z) (k : bytes) :
  (forall e, In e es -> startswith (key e) k = false) ->
  PrefixMatchStrategy.scan_leaf es i k = Raise KeyError.
Proof.
  revert i. induction es as [| e es IH]; intros i H; simpl; [reflexivity |].
  rewrite (H e) by now left.
  destruct (bytes_gtb (key e) k); [reflexivity |].
  apply IH. intros x Hx. apply H. now right.
Qed.

(** The branch scan, when no entry starts with the key, decides to
    descend, into the leftmost child or the child of an entry. *)
Lemma scan_branch_absent (es : list Entry) (i next_page : Z) (k : bytes)
      (good : Z -> Prop) :
  (forall e, In e es -> startswith (key e) k = false) ->
  (forall e, In e es -> exists pg, page e = Ok pg /\ good pg) ->
  good next_page ->
  exists pg, PrefixMatchStrategy.scan_branch es i next_page k
             = Ok (PrefixMatchStrategy.Descend pg)
             /\ good pg.
Proof.
  revert i next_page. induction es as [| e es IH]; intros i np Hno Hkids Hnp;
    simpl.
  - eauto.
  - assert (Hs : startswith (key e) k = false) by (apply Hno; now left).
    assert (He : bytes_eqb (key e) k = false).
    { destruct (bytes_eqb (key e) k) eqn:E; [| reflexivity].
      apply bytes_eqb_eq in E. rewrite E, startswith_refl in Hs.
      discriminate. }
    rewrite He, Hs.
    destruct (bytes_gtb (key e) k); [eauto |].
    destruct (Hkids e ltac:(now left)) as [pg [Hpg Hgood]].
    rewrite Hpg. simpl.
    apply IH; auto.
    + intros x Hx. apply Hno. now right.
    + intros x Hx. apply Hkids. now right.
Qed.

(** In any tree, [find_prefix] raises [KeyError] for a key that no
    stored key starts with. *)
Lemma prefix_find_absent (h : nat) :
  forall (n : Z) (l : list Entry) (k : bytes) (fuel : nat)
         (above : list Page.t),
    subtree index h n l ->
    (forall e, In e l -> startswith (key e) k = false) ->
    (h < fuel)%nat ->
    PrefixMatchStrategy._find fuel index above n k = Raise KeyError.
Proof.
  induction h as [| h IH]; intros n l k fuel above Hsub Hno Hfuel;
    (destruct fuel as [| fuel]; [lia |]);
    inversion Hsub as [n0 p es Hp Hleaf Hes Hne
                      | h0 n0 p es l0 ls Hp Hleaf Hes Hne Hleft Hkids];
    subst; simpl; rewrite Hp; simpl;
    unfold Page.get_entries in *; rewrite Hes; simpl; rewrite Hleaf.
  - now rewrite scan_leaf_absent.
  - set (good := fun pg => exists le, subtree index h pg le
                                      /\ incl le (l0 ++ interleave es ls)).
    destruct (scan_branch_absent es 0 (Page.ppointer p) k good)
      as [pg [-> [le [Hle Hincl]]]].
    + intros e He. apply Hno. apply in_or_app. right.
      apply In_interleave; [eapply Forall2_length; eassumption | exact He].
    + intros e He.
      destruct (kid_of_entry h es ls e Hkids He) as [pg [le [Hpg [Hs Hi]]]].
      exists pg. split; [exact Hpg |]. exists le. split; [exact Hs |].
      intros y Hy. apply in_or_app. right. now apply Hi.
    + exists l0. split; [exact Hleft |].
      intros y Hy. apply in_or_app. now left.
    + simpl. apply (IH pg le); auto. lia.
Qed.

Lemma bytes_eqb_sym (x y : bytes) : bytes_eqb x y = bytes_eqb y x.
Proof.
  destruct (bytes_eqb x y) eqn:E1, (bytes_eqb y x) eqn:E2; auto.
  - apply bytes_eqb_eq in E1. subst. now rewrite bytes_eqb_refl in E2.
  - apply bytes_eqb_eq in E2. subst. now rewrite bytes_eqb_refl in E1.
Qed.

Lemma find_index_leaf_absent (es : list Entry) (i : Z) (k : bytes) :
  (forall e, In e es -> bytes_eqb (key e) k = false) ->
  Cursor.find_index_leaf es i k = Raise KeyError.
Proof.
  revert i. induction es as [| e es IH]; intros i H; simpl; [reflexivity |].
  rewrite bytes_eqb_sym, (H e) by now left.
  apply IH. intros x Hx. apply H. now right.
Qed.

(** The branch scan of [find_index] returns an index of the page or
    raises [KeyError]. *)
Lemma find_index_branch_outcome (es : list Entry) (i : Z) (k : bytes) :
  (exists j, Cursor.find_index_branch es i k = Ok (i + Z.of_nat j)
             /\ (j < length es)%nat)
  \/ Cursor.find_index_branch es i k = Raise KeyError.
Proof.
  revert i. induction es as [| e es IH]; intros i; simpl; [now right |].
  destruct (bytes_eqb k (key e)).
  { left. exists 0%nat. split; [f_equal; lia | lia]. }
  destruct (bytes_ltb k (key e)).
  { left. exists 0%nat. split; [f_equal; lia | lia]. }
  destruct (IH (i + 1)) as [[j [-> Hj]] | ->]; [left | now right].
  exists (S j). split; [f_equal; lia | lia].
Qed.

(** Where the exact search goes from a branch page: a child of the
    page, whichever of the three cases selects it. *)
Lemma exact_child (h : nat) (p : Page.t) (es l0 : list Entry)
      (ls : list (list Entry)) (is_largest : bool) (idx : nat) :
  Page.get_entries p = Ok es ->
  subtree index h (Page.ppointer p) l0 ->
  Forall2 (kid index h) es ls ->
  (idx < length es)%nat ->
  exists pg le,
    (if Z.of_nat idx =? 0 then Ok (Page.ppointer p)
     else if is_largest then
       e <- Page.get_entry p (Page.entry_count p - 1) ;; page e
     else
       e <- Page.get_entry p (Z.of_nat idx - 1) ;; page e) = Ok pg
    /\ subtree index h pg le
    /\ incl le (l0 ++ interleave es ls).
Proof.
  intros Hes Hleft Hkids Hidx.
  assert (Hcount : Page.entry_count p = Z.of_nat (length es)).
  { apply entry_count_length; [exact Hes |]. destruct es; [simpl in Hidx; lia |].
    discriminate. }
  assert (Hat : forall j, (j < length es)%nat ->
                  exists e pg le,
                    Page.get_entry p (Z.of_nat j) = Ok e /\ page e = Ok pg
                    /\ subtree index h pg le
                    /\ incl le (l0 ++ interleave es ls)).
  { intros j Hj. destruct (nth_error es j) as [e |] eqn:E;
      [| apply nth_error_None in E; lia].
    destruct (kid_of_entry h es ls e Hkids (nth_error_In _ _ E))
      as [pg [le [Hpg [Hs Hi]]]].
    exists e, pg, le. repeat split; auto.
    - eapply get_entry_nth; eassumption.
    - intros y Hy. apply in_or_app. right. now apply Hi. }
  destruct (Z.eqb_spec (Z.of_nat idx) 0).
  - exists (Page.ppointer p), l0. repeat split; auto.
    intros y Hy. apply in_or_app. now left.
  - destruct is_largest.
    + destruct (Hat (length es - 1)%nat ltac:(lia))
        as [e [pg [le [Hget [Hpg [Hs Hi]]]]]].
      exists pg, le. repeat split; auto.
      rewrite Hcount.
      replace (Z.of_nat (length es) - 1) with (Z.of_nat (length es - 1))
        by lia.
      now rewrite Hget.
    + destruct (Hat (idx - 1)%nat ltac:(lia))
        as [e [pg [le [Hget [Hpg [Hs Hi]]]]]].
      exists pg, le. repeat split; auto.
      replace (Z.of_nat idx - 1) with (Z.of_nat (idx - 1)) by lia.
      now rewrite Hget.
Qed.

(** In any tree, the exact search raises [KeyError] for a key that is
    not stored, once the descent has reached a leaf. *)
Lemma exact_find_absent (h : nat) :
  forall (n : Z) (l : list Entry) (k : bytes) (fuel : nat)
         (above : list Page.t),
    subtree index h n l ->
    (forall e, In e l -> bytes_eqb (key e) k = false) ->
    (h < fuel)%nat ->
    ExactMatchStrategy._find fuel index above n k = Raise KeyError.
Proof.
  induction h as [| h IH]; intros n l k fuel above Hsub Hno Hfuel;
    (destruct fuel as [| fuel]; [lia |]);
    inversion Hsub as [n0 p es Hp Hleaf Hes Hne
                      | h0 n0 p es l0 ls Hp Hleaf Hes Hne Hleft Hkids];
    subst; simpl; rewrite Hp; simpl.
  - rewrite (find_index_leaf_page p _ _ Hes Hleaf).
    rewrite (find_index_leaf_absent _ _ _ Hno). simpl.
    rewrite (entry_count_length p _ Hes Hne).
    assert (Hlen : (0 < length l)%nat)
      by (destruct l; [congruence | simpl; lia]).
    destruct (nth_error l (length l - 1)) as [e |] eqn:E;
      [| apply nth_error_None in E; lia].
    replace (Z.of_nat (length l) - 1) with (Z.of_nat (length l - 1)) by lia.
    rewrite (get_entry_nth p l _ e Hes E). simpl.
    rewrite (Hno e (nth_error_In _ _ E)). now rewrite Hleaf.
  - rewrite (find_index_branch_page p _ _ Hes Hleaf).
    assert (Hcount : Page.entry_count p = Z.of_nat (length es))
      by (apply entry_count_length; assumption).
    assert (Hstep : forall (is_largest : bool) (idx : nat),
               (idx < length es)%nat ->
               (entry <- Page.get_entry p (Z.of_nat idx) ;;
                if bytes_eqb (key entry) k
                then Ok (Cursor.mk (above ++ [p]) entry (Z.of_nat idx))
                else if Page.is_leaf p then Raise KeyError
                else
                  next_page_number <-
                    (if Z.of_nat idx =? 0 then Ok (Page.ppointer p)
                     else if is_largest then
                       e <- Page.get_entry p (Page.entry_count p - 1) ;; page e
                     else
                       e <- Page.get_entry p (Z.of_nat idx - 1) ;; page e) ;;
                  ExactMatchStrategy._find fuel index (above ++ [p])
                                           next_page_number k)
               = Raise KeyError).
    { intros is_largest idx Hidx.
      destruct (nth_error es idx) as [e |] eqn:E;
        [| apply nth_error_None in E; lia].
      rewrite (get_entry_nth p es idx e Hes E). cbn [bind].
      rewrite Hno
        by (apply in_or_app; right;
            apply In_interleave;
            [eapply Forall2_length; eassumption
            | eapply nth_error_In; eassumption]).
      rewrite Hleaf.
      destruct (exact_child h p es l0 ls is_largest idx Hes Hleft Hkids Hidx)
        as [pg [le [-> [Hs Hi]]]].
      cbn [bind]. apply (IH pg le); auto. lia. }
    assert (Hlen : (0 < length es)%nat)
      by (destruct es; [congruence | simpl; lia]).
    destruct (find_index_branch_outcome es 0 k) as [[j [-> Hj]] | ->].
    + simpl. apply (Hstep false j Hj).
    + simpl.
      pose proof (Hstep true (length es - 1)%nat ltac:(lia)) as Hlast.
      replace (Z.of_nat (length es - 1)) with (Page.entry_count p - 1)
        in Hlast by lia.
      exact Hlast.
Qed.

End Absent.

(** *** Searches on the one-page index of scenario B *)

Lemma scenario_B_parses :
  ID0.vsParse Fixture.scenario_B_id0 = Ok Fixture.scenario_B.
Proof. vm_compute. reflexivity. Qed.

Example scenario_B_searches :
  (c <- ID0_find 1 Fixture.scenario_B (b "ab") EXACT_MATCH ;;
   Ok (value (Cursor.entry c))) = Ok (b "2")
  /\ ID0_find 1 Fixture.scenario_B (b "ac") EXACT_MATCH = Raise KeyError
  /\ (c <- ID0_find_prefix 1 Fixture.scenario_B (b "a") ;;
      Ok (key (Cursor.entry c))) = Ok (b "aa").
Proof. repeat split; vm_compute; reflexivity. Qed.

(** *** Searches on the two-level index *)

Lemma two_level_parses :
  ID0.vsParse Fixture.two_level_id0 = Ok Fixture.two_level.
Proof. vm_compute. reflexivity. Qed.


Lemma two_level_well_formed :
  well_formed Fixture.two_level 1 Fixture.two_level_entries.
Proof.
  split.
  - eapply (subtree_branch _ 0 1 _ [BranchEntry 3 (b "ba") (b "2")]
                           [LeafEntry (b "a") (b "1")]
                           [[LeafEntry (b "bb") (b "3")]]).
    + vm_compute. reflexivity.
    + vm_compute. reflexivity.
    + vm_compute. reflexivity.
    + discriminate.
    + eapply subtree_leaf;
        [vm_compute; reflexivity | vm_compute; reflexivity
         | vm_compute; reflexivity | discriminate].
    + repeat constructor.
      eexists; split; [reflexivity |].
      eapply subtree_leaf;
        [vm_compute; reflexivity | vm_compute; reflexivity
         | vm_compute; reflexivity | discriminate].
  - repeat constructor.
  - reflexivity.
Qed.

(** C5 (the code departs from the claim).  The two-level index is
    well formed and holds the keys [a], [ba] (in the root, a branch
    page with that single entry) and [bb] (in the child of that
    entry).  The exact search finds [a] in its leaf and [ba] in the
    root without descending, but for [bb] it raises [KeyError]: no entry
    of the root is greater, so the index found is [entry_count - 1 = 0],
    and the test [entry_number == 0] comes first and sends the search
    to [ppointer], the leftmost child, instead of the child of the last
    entry. *)
Theorem C5_exact_find_misses_present_key :
  well_formed Fixture.two_level 1 Fixture.two_level_entries
  /\ In (LeafEntry (b "bb") (b "3")) Fixture.two_level_entries
  /\ (forall fuel, (2 <= fuel)%nat ->
        ID0_find fuel Fixture.two_level (b "bb") EXACT_MATCH = Raise KeyError)
  /\ (forall fuel, (2 <= fuel)%nat ->
        exists c, ID0_find fuel Fixture.two_level (b "a") EXACT_MATCH = Ok c
                  /\ Cursor.entry c = LeafEntry (b "a") (b "1")
                  /\ length (Cursor.path c) = 2%nat)
  /\ (forall fuel, (2 <= fuel)%nat ->
        exists c, ID0_find fuel Fixture.two_level (b "ba") EXACT_MATCH = Ok c
                  /\ Cursor.entry c = BranchEntry 3 (b "ba") (b "2")
                  /\ length (Cursor.path c) = 1%nat).
Proof.
  split; [exact two_level_well_formed |].
  split; [simpl; auto |].
  split; [| split]; intros [| [| fuel]] Hfuel; try lia.
  - vm_compute. reflexivity.
  - eexists. split; [vm_compute; reflexivity |]. split; reflexivity.
  - eexists. split; [vm_compute; reflexivity |]. split; reflexivity.
Qed.

(** C2 (the code departs from the claim).  In the two-level index the
    keys that start with [b] are [ba] and [bb]; the least, [ba], is held
    by the entry of the root, and the subtree to its left holds only
    [a].  [find_prefix b] raises [KeyError]: at the root the entry
    [ba] starts with the key, so the search descends into the page to
    its left, and that leaf has no entry that starts with [b]. *)
Theorem C2_find_prefix_misses_branch_entry :
  well_formed Fixture.two_level 1 Fixture.two_level_entries
  /\ map (fun e => startswith (key e) (b "b")) Fixture.two_level_entries
     = [false; true; true]
  /\ (forall fuel, (2 <= fuel)%nat ->
        ID0_find_prefix fuel Fixture.two_level (b "b") = Raise KeyError).
Proof.
  split; [exact two_level_well_formed |].
  split; [reflexivity |].
  intros [| [| fuel]] Hfuel; try lia.
  vm_compute. reflexivity.
Qed.

(** * Further properties *)

(** ** Segments *)

(** X1.  [get_segment ea] returns the first segment of the table that
    contains [ea], and raises [KeyError] exactly when no segment
    contains it. *)
Theorem get_segment_first_match (self : ID1.t) (ea : Z) :
  (forall s, ID1.get_segment self ea = Ok s <->
             exists i, nth_error (ID1.segments self) i = Some s
                       /\ in_segment s ea
                       /\ forall j s', (j < i)%nat ->
                                       nth_error (ID1.segments self) j = Some s' ->
                                       ~ in_segment s' ea)
  /\ (ID1.get_segment self ea = Raise KeyError <->
      forall s, In s (ID1.segments self) -> ~ in_segment s ea).
Proof.
  unfold ID1.get_segment. generalize (ID1.segments self) as segs.
  induction segs as [| x segs [IHok IHno]]; simpl.
  - split.
    + intros s. split; [discriminate |].
      intros [i [H _]]. destruct i; discriminate.
    + split; [intros _ s [] | reflexivity].
  - destruct (ID1.contains x ea) eqn:E.
    + apply contains_spec in E. split.
      * intros s. split.
        -- intros H. injection H as <-. exists 0%nat.
           split; [reflexivity | split; [exact E |]].
           intros j s' Hj. lia.
        -- intros [i [Hi [Hin Hfirst]]]. destruct i as [| i].
           ++ simpl in Hi. congruence.
           ++ exfalso. apply (Hfirst 0%nat x); [lia | reflexivity | exact E].
      * split; [discriminate |].
        intros H. exfalso. apply (H x); [now left | exact E].
    + apply contains_false in E. split.
      * intros s. rewrite IHok. split.
        -- intros [i [Hi [Hin Hfirst]]]. exists (S i).
           split; [exact Hi | split; [exact Hin |]].
           intros [| j] s' Hj Hs'.
           ++ simpl in Hs'. injection Hs' as <-. exact E.
           ++ apply (Hfirst j); [lia | exact Hs'].
        -- intros [i [Hi [Hin Hfirst]]]. destruct i as [| i].
           ++ simpl in Hi. injection Hi as <-. contradiction.
           ++ exists i. split; [exact Hi | split; [exact Hin |]].
              intros j s' Hj Hs'. apply (Hfirst (S j)); [lia | exact Hs'].
      * rewrite IHno. split.
        -- intros H s [<- | Hs]; auto.
        -- intros H s Hs. apply H. now right.
Qed.

Lemma get_segment_in_nth (segs : list SegmentDescriptor) (ea : Z)
      (s : SegmentDescriptor) :
  ID1.get_segment_in segs ea = Ok s ->
  exists i, nth_error segs i = Some s /\ in_segment s ea.
Proof.
  induction segs as [| x segs IH]; simpl; [discriminate |].
  destruct (ID1.contains x ea) eqn:E.
  - intros H. injection H as <-. exists 0%nat. split; [reflexivity |].
    now apply contains_spec.
  - intros H. destruct (IH H) as [i [Hi Hin]]. exists (S i). auto.
Qed.

(** X2.  When [SegStart ea] returns, [SegEnd ea] returns as well and
    the two bracket the address: [SegStart ea <= ea < SegEnd ea]. *)
Theorem SegStart_SegEnd_bracket (self : IDB.t) (ea a : Z) :
  IDB.SegStart self ea = Ok a ->
  exists z, IDB.SegEnd self ea = Ok z /\ a <= ea < z.
Proof.
  unfold IDB.SegStart, IDB.SegEnd. intros H.
  apply bind_Ok in H. destruct H as [seg [Hseg H]]. injection H as <-.
  rewrite Hseg. simpl. eexists. split; [reflexivity |].
  unfold IDB.call in Hseg. destruct (IDB.id1 self) as [id1 |]; [| discriminate].
  apply get_segment_in_nth in Hseg.
  destruct Hseg as [i [_ Hin]]. exact Hin.
Qed.

Lemma SegStart_SegEnd_bracket_witness :
  exists z, IDB.SegEnd Fixture.scenario_E_idb 0x2003 = Ok z
            /\ 0x2000 <= 0x2003 < z.
Proof.
  apply (SegStart_SegEnd_bracket Fixture.scenario_E_idb 0x2003 0x2000).
  vm_compute. reflexivity.
Defined.

(** X3.  In a parsed section the descriptors carry the bounds of the
    segment table, one per segment and in table order, and every
    descriptor carries the offset 0: [pcb_segment_count] adds up the
    sizes of elements that are not parsed yet. *)
Theorem descriptors_of_parsed_table (wordsize : Z) (buf : bytes)
        (self : ID1.t) :
  ID1.vsParse wordsize buf = Ok self ->
  map bounds (ID1.segments self) = ID1._segments self
  /\ forall s, In s (ID1.segments self) -> offset s = 0.
Proof.
  intros H. apply parsed_table in H. split.
  - rewrite segments_built, map_map. cbn [bounds]. rewrite <- H.
    rewrite (nth_seq_all (fun s => s)). apply map_id.
  - apply segments_offset.
Qed.

Lemma descriptors_of_parsed_table_witness :
  map bounds (ID1.segments Fixture.scenario_E)
  = ID1._segments Fixture.scenario_E
  /\ forall s, In s (ID1.segments Fixture.scenario_E) -> offset s = 0.
Proof.
  apply (descriptors_of_parsed_table 4 Fixture.scenario_E_id1
                                     Fixture.scenario_E).
  vm_compute. reflexivity.
Defined.

(** X4.  For an address inside a segment, [get_flags] reads the 32-bit
    word at byte [4 * (ea - start)] of the flags buffer, [start] being
    the start of the first segment that contains the address, whatever
    the place of that segment in the table; the offset is never
    negative, so [unpack_from] never counts it from the end of the
    buffer. *)
Theorem get_flags_reads (self : ID1.t) (ea : Z) (seg : SegmentDescriptor) :
  ID1.get_segment self ea = Ok seg ->
  0 <= 4 * (ea - start (bounds seg))
  /\ ID1.get_flags self ea
     = unpack_from 4 (ID1.buffer self) (4 * (ea - start (bounds seg))).
Proof.
  intros Hseg. pose proof Hseg as Hn. apply get_segment_in_nth in Hn.
  destruct Hn as [i [Hi Hin]].
  assert (Hoff : offset seg = 0).
  { apply (segments_offset self). eapply nth_error_In. eassumption. }
  split; [unfold in_segment in Hin; lia |].
  unfold ID1.get_flags. rewrite Hseg. cbn [bind]. cbv zeta.
  now rewrite Hoff, Z.add_0_l.
Qed.

Lemma get_flags_reads_witness :
  0 <= 4 * (0x2001 - 0x2000)
  /\ ID1.get_flags Fixture.scenario_E 0x2001
     = unpack_from 4 (ID1.buffer Fixture.scenario_E) (4 * (0x2001 - 0x2000)).
Proof.
  apply (get_flags_reads Fixture.scenario_E 0x2001
                         (mkSegment (mkBounds 0x2000 0x2008) 0)).
  vm_compute. reflexivity.
Defined.

(** ** The flag word *)

Lemma land_bit (a n : Z) :
  0 <= n -> Z.land a (2 ^ n) = if Z.testbit a n then 2 ^ n else 0.
Proof.
  intros Hn. apply Z.bits_inj'. intros m Hm.
  rewrite Z.land_spec, Z.pow2_bits_eqb by lia.
  destruct (Z.eqb_spec n m) as [-> | Hne].
  - destruct (Z.testbit a m); simpl.
    + now rewrite Z.pow2_bits_eqb, Z.eqb_refl by lia.
    + now rewrite Z.bits_0.
  - rewrite andb_false_r. destruct (Z.testbit a n).
    + rewrite Z.pow2_bits_eqb by lia. symmetry. now apply Z.eqb_neq.
    + now rewrite Z.bits_0.
Qed.

Lemma land_class (flags : Z) :
  Z.land flags FLAGS.MS_CLS
  = (if Z.testbit flags 10 then 0x400 else 0)
    + (if Z.testbit flags 9 then 0x200 else 0).
Proof.
  change FLAGS.MS_CLS with (Z.lor (2 ^ 10) (2 ^ 9)).
  rewrite Z.land_lor_distr_r, !land_bit by lia.
  destruct (Z.testbit flags 10), (Z.testbit flags 9); reflexivity.
Qed.

(** X5.  The class of a flag word is decided by its bits 10 and 9:
    exactly one of [isCode], [isData], [isTail], [isUnknown] holds, and
    [isHead] holds exactly when bit 10 is set. *)
Theorem class_by_bits (flags : Z) :
  (isCode flags, isData flags, isTail flags, isUnknown flags)
  = match Z.testbit flags 10, Z.testbit flags 9 with
    | true, true => (true, false, false, false)
    | true, false => (false, true, false, false)
    | false, true => (false, false, true, false)
    | false, false => (false, false, false, true)
    end
  /\ isHead flags = Z.testbit flags 10
  /\ isNotTail flags = negb (isTail flags).
Proof.
  unfold isHead, isNotTail, isCode, isData, isTail, isUnknown.
  rewrite land_class.
  destruct (Z.testbit flags 10), (Z.testbit flags 9); repeat split.
Qed.

Lemma comm_bit_testbit (flags n : Z) :
  0 <= n -> Z.land FLAGS.MS_COMM (2 ^ n) = 2 ^ n ->
  comm_bit flags (2 ^ n) = Z.testbit flags n.
Proof.
  intros Hn Hmask. unfold comm_bit.
  rewrite <- Z.land_assoc, Hmask, land_bit by lia.
  destruct (Z.testbit flags n); [| reflexivity].
  apply Z.gtb_lt. apply Z.pow_pos_nonneg; lia.
Qed.

Lemma hasValue_testbit (flags : Z) : hasValue flags = Z.testbit flags 8.
Proof.
  unfold hasValue. change FLAGS.FF_IVL with (2 ^ 8).
  rewrite land_bit by lia. now destruct (Z.testbit flags 8).
Qed.

(** X6.  Each predicate of the common bits tests one bit of the flag
    word (the mask [MS_COMM] covers all of them), and [hasValue] tests
    bit 8. *)
Theorem bit_predicates (flags : Z) :
  hasValue flags = Z.testbit flags 8
  /\ has_cmt flags = Z.testbit flags 11
  /\ hasRef flags = Z.testbit flags 12
  /\ hasExtra flags = Z.testbit flags 13
  /\ has_name flags = Z.testbit flags 14
  /\ has_dummy_name flags = Z.testbit flags 15
  /\ isFlow flags = Z.testbit flags 16
  /\ is_invsign flags = Z.testbit flags 17
  /\ is_bnot flags = Z.testbit flags 18
  /\ isVar flags = Z.testbit flags 19.
Proof.
  split.
  - apply hasValue_testbit.
  - repeat split;
      [ apply (comm_bit_testbit flags 11) | apply (comm_bit_testbit flags 12)
      | apply (comm_bit_testbit flags 13) | apply (comm_bit_testbit flags 14)
      | apply (comm_bit_testbit flags 15) | apply (comm_bit_testbit flags 16)
      | apply (comm_bit_testbit flags 17) | apply (comm_bit_testbit flags 18)
      | apply (comm_bit_testbit flags 19) ]; (lia || reflexivity).
Qed.

(** ** Bytes of the program *)

Lemma byte_val_range (x : byte) : 0 <= byte_val x < 256.
Proof.
  unfold byte_val. pose proof (Byte.to_N_bounded x). lia.
Qed.

Lemma byte_val_of_Z (x : Z) : 0 <= x < 256 -> byte_val (byte_of_Z x) = x.
Proof.
  intros Hx. unfold byte_of_Z, byte_val.
  rewrite Z.mod_small by lia.
  destruct (Byte.of_N (Z.to_N x)) as [y |] eqn:E.
  - apply Byte.to_of_N in E. rewrite E. lia.
  - apply Byte.of_N_None_iff in E. lia.
Qed.

(** X7.  A byte that [IdbByte] returns is a value in [0, 255]: the low
    eight bits of a flag word whose [FF_IVL] bit (bit 8) is set.  When
    the bit is clear [IdbByte] raises [KeyError]. *)
Theorem IdbByte_value (self : IDB.t) (ea flags : Z) :
  IDB.GetFlags self ea = Ok flags ->
  (Z.testbit flags 8 = true ->
   IDB.IdbByte self ea = Ok (flags mod 256) /\ 0 <= flags mod 256 < 256)
  /\ (Z.testbit flags 8 = false -> IDB.IdbByte self ea = Raise KeyError).
Proof.
  intros Hfl. unfold IDB.IdbByte. rewrite Hfl. cbn [bind].
  rewrite hasValue_testbit.
  split; intros ->.
  - change FLAGS.MS_VAL with (Z.ones 8). rewrite Z.land_ones by lia.
    split; [reflexivity |]. apply Z.mod_pos_bound. lia.
  - reflexivity.
Qed.

Lemma IdbByte_value_witness :
  IDB.IdbByte Fixture.scenario_E_idb 0x1001 = Ok (Fixture.wB mod 256)
  /\ 0 <= Fixture.wB mod 256 < 256.
Proof.
  apply (proj1 (IdbByte_value Fixture.scenario_E_idb 0x1001 Fixture.wB
                  ltac:(vm_compute; reflexivity))).
  vm_compute. reflexivity.
Defined.

Lemma many_bytes_loop_spec (self : IDB.t) (todo : nat) :
  forall (i : Z) (acc ret : list Z),
    IDB.many_bytes_loop self i todo acc = Ok ret ->
    exists vals,
      ret = acc ++ vals /\ length vals = todo
      /\ forall k x, nth_error vals k = Some x ->
                     IDB.IdbByte self (i + Z.of_nat k) = Ok x.
Proof.
  induction todo as [| todo IH]; intros i acc ret H; simpl in H.
  - injection H as <-. exists []. rewrite app_nil_r. repeat split.
    intros k x Hk. destruct k; discriminate.
  - apply bind_Ok in H. destruct H as [x [Hx H]].
    apply IH in H. destruct H as [vals [-> [Hlen Hvals]]].
    exists (x :: vals). split; [now rewrite <- app_assoc |].
    split; [simpl; lia |].
    intros [| k] y Hk.
    + simpl in Hk. injection Hk as <-. now rewrite Z.add_0_r.
    + simpl in Hk. apply Hvals in Hk.
      replace (i + Z.of_nat (S k)) with (i + 1 + Z.of_nat k) by lia.
      exact Hk.
Qed.

Lemma bytes_of_ints_spec (ret : list Z) :
  forall bs, bytes_of_ints ret = Ok bs ->
             length bs = length ret
             /\ forall k y, nth_error bs k = Some y ->
                            nth_error ret k = Some (byte_val y).
Proof.
  induction ret as [| x ret IH]; intros bs H; simpl in H.
  - injection H as <-. split; [reflexivity |].
    intros k y Hk. destruct k; discriminate.
  - destruct ((x <? 0) || (256 <=? x)) eqn:E; [discriminate |].
    apply orb_false_iff in E. destruct E as [E1 E2].
    apply Z.ltb_ge in E1. apply Z.leb_gt in E2.
    apply bind_Ok in H. destruct H as [tl [Htl H]]. injection H as <-.
    destruct (IH tl Htl) as [Hlen Hnth].
    split; [simpl; lia |].
    intros [| k] y Hk; simpl in *.
    + injection Hk as <-. now rewrite byte_val_of_Z by lia.
    + now apply Hnth.
Qed.

(** X8.  When [GetManyBytes ea size] returns, it returns exactly
    [size] bytes, byte [k] being the value [IdbByte] gives for address
    [ea + k], and the addresses [ea] and [ea + size] lie in segments
    with the same start. *)
Theorem GetManyBytes_returns (self : IDB.t) (ea size : Z) (bs : bytes) :
  IDB.GetManyBytes self ea size false = Ok bs ->
  length bs = Z.to_nat size
  /\ (exists a, IDB.SegStart self ea = Ok a
                /\ IDB.SegStart self (ea + size) = Ok a)
  /\ forall k y, nth_error bs k = Some y ->
                 IDB.IdbByte self (ea + Z.of_nat k) = Ok (byte_val y).
Proof.
  unfold IDB.GetManyBytes. intros H.
  apply bind_Ok in H. destruct H as [s1 [Hs1 H]].
  apply bind_Ok in H. destruct H as [s2 [Hs2 H]].
  destruct (Z.eqb_spec s1 s2) as [<- | Hne]; simpl in H; [| discriminate].
  apply bind_Ok in H. destruct H as [ret [Hret H]].
  apply many_bytes_loop_spec in Hret.
  destruct Hret as [vals [-> [Hlen Hvals]]]. simpl in H.
  destruct (bytes_of_ints_spec _ _ H) as [Hl Hnth].
  split; [lia |]. split; [eauto |].
  intros k y Hk. apply Hvals. now apply Hnth.
Qed.

Lemma GetManyBytes_returns_witness :
  length (b "BC") = Z.to_nat 2
  /\ (exists a, IDB.SegStart Fixture.scenario_E_idb 0x1001 = Ok a
                /\ IDB.SegStart Fixture.scenario_E_idb (0x1001 + 2) = Ok a)
  /\ forall k y, nth_error (b "BC") k = Some y ->
                 IDB.IdbByte Fixture.scenario_E_idb (0x1001 + Z.of_nat k)
                 = Ok (byte_val y).
Proof.
  apply (GetManyBytes_returns Fixture.scenario_E_idb 0x1001 2 (b "BC")).
  vm_compute. reflexivity.
Defined.

(** ** Heads: the nearest head below and above *)

Section Heads.

Variable self : IDB.t.

Lemma head_or_not (a : Z) : head_at self a -> not_head_at self a -> False.
Proof.
  intros [fl [H1 H2]] [fl' [H1' H2']]. congruence.
Qed.

Lemma Head_loop_stops (fuel : nat) :
  forall ea flags h,
    IDB.GetFlags self ea = Ok flags ->
    IDB.Head_loop fuel self ea flags = Ok h ->
    h <= ea /\ head_at self h
    /\ forall a, h < a <= ea -> not_head_at self a.
Proof.
  induction fuel as [| fuel IH]; intros ea flags h Hfl Hloop;
    simpl in Hloop; destruct (isHead flags) eqn:Hhead;
    try discriminate.
  - injection Hloop as <-. split; [lia |]. split; [exists flags; auto |].
    intros a Ha. lia.
  - injection Hloop as <-. split; [lia |]. split; [exists flags; auto |].
    intros a Ha. lia.
  - apply bind_Ok in Hloop. destruct Hloop as [fl' [Hfl' Hloop]].
    destruct (IH _ _ _ Hfl' Hloop) as [Hle [Hh Hbetween]].
    split; [lia |]. split; [exact Hh |].
    intros a Ha. destruct (Z.eq_dec a ea) as [-> | Hne].
    + exists flags. auto.
    + apply Hbetween. lia.
Qed.

Lemma Head_loop_reaches (fuel : nat) :
  forall ea flags h,
    IDB.GetFlags self ea = Ok flags ->
    h <= ea -> head_at self h ->
    (forall a, h < a <= ea -> not_head_at self a) ->
    (Z.to_nat (ea - h) <= fuel)%nat ->
    IDB.Head_loop fuel self ea flags = Ok h.
Proof.
  induction fuel as [| fuel IH]; intros ea flags h Hfl Hle Hh Hbetween Hfuel.
  - assert (ea = h) by lia. subst ea.
    destruct Hh as [fl [Hfl' Hhead]]. rewrite Hfl in Hfl'.
    injection Hfl' as <-. simpl. now rewrite Hhead.
  - simpl. destruct (Z.eq_dec ea h) as [-> | Hne].
    + destruct Hh as [fl [Hfl' Hhead]]. rewrite Hfl in Hfl'.
      injection Hfl' as <-. now rewrite Hhead.
    + destruct (Hbetween ea ltac:(lia)) as [fl [Hfl' Hhead]].
      rewrite Hfl in Hfl'. injection Hfl' as <-. rewrite Hhead.
      assert (Hprev : exists fl', IDB.GetFlags self (ea - 1) = Ok fl').
      { destruct (Z.eq_dec (ea - 1) h) as [-> | Hne'].
        - destruct Hh as [fl' [Hf _]]. eauto.
        - destruct (Hbetween (ea - 1) ltac:(lia)) as [fl' [Hf _]]. eauto. }
      destruct Hprev as [fl' Hf]. rewrite Hf. cbn [bind].
      apply IH; auto; try lia.
      intros a Ha. apply Hbetween. lia.
Qed.

Lemma NextHead_loop_least (fuel : nat) :
  forall ea flags h,
    IDB.GetFlags self ea = Ok flags ->
    IDB.NextHead_loop fuel self ea flags = Ok h ->
    ea <= h /\ head_at self h
    /\ forall a, ea <= a < h -> not_head_at self a.
Proof.
  induction fuel as [| fuel IH]; intros ea flags h Hfl Hloop;
    simpl in Hloop; destruct (isHead flags) eqn:Hhead;
    try discriminate.
  - injection Hloop as <-. split; [lia |]. split; [exists flags; auto |].
    intros a Ha. lia.
  - injection Hloop as <-. split; [lia |]. split; [exists flags; auto |].
    intros a Ha. lia.
  - apply bind_Ok in Hloop. destruct Hloop as [fl' [Hfl' Hloop]].
    destruct (IH _ _ _ Hfl' Hloop) as [Hle [Hh Hbetween]].
    split; [lia |]. split; [exact Hh |].
    intros a Ha. destruct (Z.eq_dec a ea) as [-> | Hne].
    + exists flags. auto.
    + apply Hbetween. lia.
Qed.

Lemma NextHead_loop_reaches (fuel : nat) :
  forall ea flags h,
    IDB.GetFlags self ea = Ok flags ->
    ea <= h -> head_at self h ->
    (forall a, ea <= a < h -> not_head_at self a) ->
    (Z.to_nat (h - ea) <= fuel)%nat ->
    IDB.NextHead_loop fuel self ea flags = Ok h.
Proof.
  induction fuel as [| fuel IH]; intros ea flags h Hfl Hle Hh Hbetween Hfuel.
  - assert (ea = h) by lia. subst ea.
    destruct Hh as [fl [Hfl' Hhead]]. rewrite Hfl in Hfl'.
    injection Hfl' as <-. simpl. now rewrite Hhead.
  - simpl. destruct (Z.eq_dec ea h) as [-> | Hne].
    + destruct Hh as [fl [Hfl' Hhead]]. rewrite Hfl in Hfl'.
      injection Hfl' as <-. now rewrite Hhead.
    + destruct (Hbetween ea ltac:(lia)) as [fl [Hfl' Hhead]].
      rewrite Hfl in Hfl'. injection Hfl' as <-. rewrite Hhead.
      assert (Hnext : exists fl', IDB.GetFlags self (ea + 1) = Ok fl').
      { destruct (Z.eq_dec (ea + 1) h) as [<- | Hne'].
        - destruct Hh as [fl' [Hf _]]. eauto.
        - destruct (Hbetween (ea + 1) ltac:(lia)) as [fl' [Hf _]]. eauto. }
      destruct Hnext as [fl' Hf]. rewrite Hf. cbn [bind].
      apply IH; auto; try lia.
      intros a Ha. apply Hbetween. lia.
Qed.

Lemma Head_stops (fuel : nat) (ea h : Z) :
  IDB.Head fuel self ea = Ok h ->
  h <= ea /\ head_at self h
  /\ forall a, h < a <= ea -> not_head_at self a.
Proof.
  unfold IDB.Head. intros H.
  apply bind_Ok in H. destruct H as [flags [Hfl Hloop]].
  eapply Head_loop_stops; eassumption.
Qed.

Lemma NextHead_stops (fuel : nat) (ea h : Z) :
  IDB.NextHead fuel self ea = Ok h ->
  ea < h /\ head_at self h
  /\ forall a, ea < a < h -> not_head_at self a.
Proof.
  unfold IDB.NextHead. intros H.
  apply bind_Ok in H. destruct H as [flags [Hfl Hloop]].
  destruct (NextHead_loop_least _ _ _ _ Hfl Hloop) as [Hle [Hh Hb]].
  split; [lia |]. split; [exact Hh |].
  intros a Ha. apply Hb. lia.
Qed.

(** X9.  The address [Head ea] returns is the nearest head at or
    below [ea]: a head, with no head strictly between it and [ea],
    [ea] included. *)
Theorem Head_nearest_below (fuel : nat) (ea h : Z) :
  IDB.Head fuel self ea = Ok h ->
  h <= ea /\ head_at self h
  /\ forall a, h < a <= ea -> not_head_at self a.
Proof.
  unfold IDB.Head. intros H.
  apply bind_Ok in H. destruct H as [flags [Hfl Hloop]].
  eapply Head_loop_stops; eassumption.
Qed.

(** X10.  The address [NextHead ea] returns is the least head above
    [ea]: a head greater than [ea], with no head strictly between [ea]
    and it. *)
Theorem NextHead_least_above (fuel : nat) (ea h : Z) :
  IDB.NextHead fuel self ea = Ok h ->
  ea < h /\ head_at self h
  /\ forall a, ea < a < h -> not_head_at self a.
Proof.
  unfold IDB.NextHead. intros H.
  apply bind_Ok in H. destruct H as [flags [Hfl Hloop]].
  destruct (NextHead_loop_least _ _ _ _ Hfl Hloop) as [Hle [Hh Hb]].
  split; [lia |]. split; [exact Hh |].
  intros a Ha. apply Hb. lia.
Qed.

Lemma Head_reaches (fuel : nat) (ea h : Z) :
  h <= ea -> head_at self h ->
  (forall a, h < a <= ea -> not_head_at self a) ->
  (Z.to_nat (ea - h) <= fuel)%nat ->
  IDB.Head fuel self ea = Ok h.
Proof.
  intros Hle Hh Hb Hfuel. unfold IDB.Head.
  assert (Hfl : exists fl, IDB.GetFlags self ea = Ok fl).
  { destruct (Z.eq_dec ea h) as [-> | Hne].
    - destruct Hh as [fl [Hf _]]. eauto.
    - destruct (Hb ea ltac:(lia)) as [fl [Hf _]]. eauto. }
  destruct Hfl as [fl Hfl]. rewrite Hfl. cbn [bind].
  now apply Head_loop_reaches.
Qed.

(** X11.  From the head before, [NextHead] comes back: when
    [PrevHead ea] returns [p], [Head ea] returns some [h0] above [p],
    and [NextHead p] returns [h0] for any fuel that covers the distance
    between them. *)
Theorem NextHead_of_PrevHead (fuel : nat) (ea p : Z) :
  IDB.PrevHead fuel self ea = Ok p ->
  exists h0,
    IDB.Head fuel self ea = Ok h0 /\ p < h0
    /\ forall fuel', (Z.to_nat (h0 - p) <= fuel')%nat ->
                     IDB.NextHead fuel' self p = Ok h0.
Proof.
  unfold IDB.PrevHead. intros H.
  apply bind_Ok in H. destruct H as [h0 [Hh0 Hp]].
  exists h0. split; [exact Hh0 |].
  destruct (Head_stops _ _ _ Hh0) as [_ [Hhead0 _]].
  destruct (Head_stops _ _ _ Hp) as [Hle [Hheadp Hb]].
  split; [lia |]. intros fuel' Hfuel. unfold IDB.NextHead.
  assert (Hfl : exists fl, IDB.GetFlags self (p + 1) = Ok fl).
  { destruct (Z.eq_dec (p + 1) h0) as [-> | Hne].
    - destruct Hhead0 as [fl [Hf _]]. eauto.
    - destruct (Hb (p + 1) ltac:(lia)) as [fl [Hf _]]. eauto. }
  destruct Hfl as [fl Hfl]. rewrite Hfl. cbn [bind].
  apply NextHead_loop_reaches; auto; try lia.
  intros a Ha. apply Hb. lia.
Qed.

(** X12.  From the next head, [PrevHead] comes back to the head of
    the address: when [NextHead ea] returns [h] and [Head ea] returns
    [h0], [PrevHead h] returns [h0] for any fuel that covers the
    distance between them. *)
Theorem PrevHead_of_NextHead (fuel1 fuel2 : nat) (ea h h0 : Z) :
  IDB.NextHead fuel1 self ea = Ok h ->
  IDB.Head fuel2 self ea = Ok h0 ->
  forall fuel, (Z.to_nat (h - h0) <= fuel)%nat ->
               IDB.PrevHead fuel self h = Ok h0.
Proof.
  intros Hn Hh fuel Hfuel.
  destruct (NextHead_stops _ _ _ Hn) as [Hlt [Hhead Hb]].
  destruct (Head_stops _ _ _ Hh) as [Hle [Hhead0 Hb0]].
  unfold IDB.PrevHead.
  rewrite (Head_reaches fuel h h) by (auto; try lia; intros a Ha; lia).
  cbn [bind].
  apply Head_reaches; auto; try lia.
  intros a Ha. destruct (Z_le_gt_dec a ea).
  - apply Hb0. lia.
  - apply Hb. lia.
Qed.

End Heads.

Lemma Head_nearest_below_witness :
  0x1000 <= 0x1002 /\ head_at Fixture.scenario_E_idb 0x1000
  /\ forall a, 0x1000 < a <= 0x1002 -> not_head_at Fixture.scenario_E_idb a.
Proof.
  apply (Head_nearest_below Fixture.scenario_E_idb 4 0x1002 0x1000).
  vm_compute. reflexivity.
Defined.

Lemma NextHead_least_above_witness :
  0x1000 < 0x1003 /\ head_at Fixture.scenario_E_idb 0x1003
  /\ forall a, 0x1000 < a < 0x1003 -> not_head_at Fixture.scenario_E_idb a.
Proof.
  apply (NextHead_least_above Fixture.scenario_E_idb 4 0x1000 0x1003).
  vm_compute. reflexivity.
Defined.

Lemma NextHead_of_PrevHead_witness :
  exists h0,
    IDB.Head 4 Fixture.scenario_E_idb 0x1003 = Ok h0 /\ 0x1000 < h0
    /\ forall fuel', (Z.to_nat (h0 - 0x1000) <= fuel')%nat ->
                     IDB.NextHead fuel' Fixture.scenario_E_idb 0x1000 = Ok h0.
Proof.
  apply (NextHead_of_PrevHead Fixture.scenario_E_idb 4 0x1003 0x1000).
  vm_compute. reflexivity.
Defined.

Lemma PrevHead_of_NextHead_witness :
  IDB.PrevHead 3 Fixture.scenario_E_idb 0x1003 = Ok 0x1000.
Proof.
  apply (PrevHead_of_NextHead Fixture.scenario_E_idb 4 4 0x1000 0x1003 0x1000).
  - vm_compute. reflexivity.
  - vm_compute. reflexivity.
  - vm_compute. lia.
Defined.

(** ** Slices and little-endian words *)

Lemma slice_inside {A : Type} (buf : list A) (lo hi : Z) :
  0 <= lo <= hi -> hi <= Z.of_nat (length buf) ->
  slice buf lo hi = firstn (Z.to_nat (hi - lo)) (skipn (Z.to_nat lo) buf).
Proof.
  intros H1 H2. unfold slice, clamp. cbv zeta. zcases.
  rewrite !Z.min_l by lia. reflexivity.
Qed.

Lemma slice_length {A : Type} (buf : list A) (lo hi : Z) :
  0 <= lo <= hi -> hi <= Z.of_nat (length buf) ->
  length (slice buf lo hi) = Z.to_nat (hi - lo).
Proof.
  intros H1 H2. rewrite slice_inside by assumption.
  rewrite length_firstn, length_skipn. lia.
Qed.

Lemma slice_nth {A : Type} (buf : list A) (lo hi : Z) (k : nat) :
  0 <= lo <= hi -> hi <= Z.of_nat (length buf) ->
  (k < Z.to_nat (hi - lo))%nat ->
  nth_error (slice buf lo hi) k = nth_error buf (Z.to_nat lo + k).
Proof.
  intros H1 H2 Hk. rewrite slice_inside by assumption.
  rewrite nth_error_firstn.
  destruct (Nat.ltb_spec k (Z.to_nat (hi - lo))); [| lia].
  now rewrite nth_error_skipn.
Qed.

Lemma slice_slice {A : Type} (buf : list A) (size lo hi : Z) :
  0 <= lo <= hi -> hi <= size -> size <= Z.of_nat (length buf) ->
  slice (slice buf 0 size) lo hi = slice buf lo hi.
Proof.
  intros H1 H2 H3.
  rewrite (slice_inside (slice buf 0 size))
    by (rewrite ?slice_length; lia).
  rewrite (slice_inside buf 0 size), (slice_inside buf lo hi) by lia.
  simpl skipn. rewrite Z.sub_0_r.
  rewrite skipn_firstn_comm, firstn_firstn.
  f_equal. lia.
Qed.

Lemma le_uint_cons (x : byte) (bs : bytes) :
  le_uint (x :: bs) = byte_val x + 256 * le_uint bs.
Proof. reflexivity. Qed.

Lemma le_uint_range (bs : bytes) : 0 <= le_uint bs < 256 ^ Z.of_nat (length bs).
Proof.
  induction bs as [| x bs IH]; [simpl; lia |].
  rewrite le_uint_cons. pose proof (byte_val_range x).
  simpl length. rewrite Nat2Z.inj_succ, Z.pow_succ_r by apply Nat2Z.is_nonneg.
  set (P := 256 ^ Z.of_nat (length bs)) in *. clearbody P. lia.
Qed.

Lemma le_uint_le_bytes (n : nat) (z : Z) :
  0 <= z < 256 ^ Z.of_nat n -> le_uint (le_bytes n z) = z.
Proof.
  revert z. induction n as [| n IH]; intros z Hz.
  - simpl in *. lia.
  - rewrite Nat2Z.inj_succ, Z.pow_succ_r in Hz by apply Nat2Z.is_nonneg.
    change (le_bytes (S n) z) with (byte_of_Z z :: le_bytes n (z / 256)).
    rewrite le_uint_cons.
    assert (Hb : 0 <= z mod 256 < 256) by (apply Z.mod_pos_bound; lia).
    assert (Hv : byte_val (byte_of_Z z) = z mod 256).
    { unfold byte_of_Z, byte_val.
      destruct (Byte.of_N (Z.to_N (z mod 256))) as [y |] eqn:E.
      - apply Byte.to_of_N in E. rewrite E. lia.
      - apply Byte.of_N_None_iff in E. lia. }
    rewrite Hv, IH.
    + pose proof (Z.div_mod z 256 ltac:(lia)). lia.
    + set (P := 256 ^ Z.of_nat n) in *. clearbody P.
      split; [apply Z.div_pos; lia |].
      apply Z.div_lt_upper_bound; lia.
Qed.

Lemma le_bytes_length (n : nat) (z : Z) : length (le_bytes n z) = n.
Proof. revert z. induction n; intros z; simpl; auto. Qed.

Lemma v_uint_range (size : Z) (buf : bytes) (off z : Z) :
  0 <= size -> v_uint size buf off = Ok z -> 0 <= z < 256 ^ size.
Proof.
  unfold v_uint. cbv zeta. intros Hs H.
  destruct (Z.eqb_spec (Z.of_nat (length (slice buf off (off + size)))) size)
    as [Hlen | Hlen]; [| discriminate].
  injection H as <-.
  pose proof (le_uint_range (slice buf off (off + size))) as R.
  now rewrite Hlen in R.
Qed.

(** ** NAM: the named addresses *)

Lemma names_words (self : NAM.t) :
  0 < NAM.wordsize self -> 0 <= NAM.name_count self ->
  NAM.name_count self * NAM.wordsize self
  <= Z.of_nat (length (NAM.buffer self)) ->
  exists ns,
    NAM.names self = Ok ns
    /\ length ns = Z.to_nat (NAM.name_count self)
    /\ forall i, (i < Z.to_nat (NAM.name_count self))%nat ->
         nth_error ns i
         = Some (le_uint (slice (NAM.buffer self)
                                (Z.of_nat i * NAM.wordsize self)
                                (Z.of_nat i * NAM.wordsize self
                                 + NAM.wordsize self))).
Proof.
  intros Hws Hcount Hsize. unfold NAM.names.
  rewrite Z.gtb_ltb.
  destruct (Z.ltb_spec (Z.of_nat (length (NAM.buffer self)))
                       (NAM.name_count self * NAM.wordsize self)); [lia |].
  eexists. split; [reflexivity |]. unfold NAM.unpack_words.
  split; [now rewrite length_map, length_seq |].
  intros i Hi.
  rewrite nth_error_map, nth_error_seq.
  destruct (Nat.ltb_spec i (Z.to_nat (NAM.name_count self))); [| lia].
  simpl. f_equal. f_equal. apply slice_slice; try lia. nia.
Qed.

(** X13.  [names] raises [ValueError] exactly when the buffer is
    shorter than [name_count] words; otherwise it returns [name_count]
    addresses, address [i] being the little-endian word at byte
    [i * wordsize] of the buffer. *)
Theorem names_outcome (self : NAM.t) :
  0 < NAM.wordsize self -> 0 <= NAM.name_count self ->
  let size := NAM.name_count self * NAM.wordsize self in
  (Z.of_nat (length (NAM.buffer self)) < size ->
   NAM.names self = Raise ValueError)
  /\ (size <= Z.of_nat (length (NAM.buffer self)) ->
      exists ns,
        NAM.names self = Ok ns
        /\ length ns = Z.to_nat (NAM.name_count self)
        /\ forall i, (i < Z.to_nat (NAM.name_count self))%nat ->
             nth_error ns i
             = Some (le_uint (slice (NAM.buffer self)
                                    (Z.of_nat i * NAM.wordsize self)
                                    (Z.of_nat i * NAM.wordsize self
                                     + NAM.wordsize self)))).
Proof.
  intros Hws Hcount size. split; intros Hsize.
  - unfold NAM.names. fold size. rewrite Z.gtb_ltb.
    destruct (Z.ltb_spec (Z.of_nat (length (NAM.buffer self))) size);
      [reflexivity | lia].
  - now apply names_words.
Qed.

Lemma names_outcome_witness :
  (Z.of_nat (length (NAM.buffer Fixture.scenario_F)) < 3 * 4 ->
   NAM.names Fixture.scenario_F = Raise ValueError)
  /\ (3 * 4 <= Z.of_nat (length (NAM.buffer Fixture.scenario_F)) ->
      exists ns,
        NAM.names Fixture.scenario_F = Ok ns
        /\ length ns = 3%nat
        /\ forall i, (i < 3)%nat ->
             nth_error ns i
             = Some (le_uint (slice (NAM.buffer Fixture.scenario_F)
                                    (Z.of_nat i * 4) (Z.of_nat i * 4 + 4)))).
Proof.
  apply (names_outcome Fixture.scenario_F); simpl; lia.
Defined.

Lemma le_words_chunk (ws : nat) (addrs : list Z) (rest : bytes) (i : nat)
      (a : Z) :
  nth_error addrs i = Some a ->
  firstn ws (skipn (i * ws) (flat_map (le_bytes ws) addrs ++ rest))
  = le_bytes ws a.
Proof.
  revert i. induction addrs as [| x addrs IH]; intros i H.
  - destruct i; discriminate.
  - simpl flat_map. rewrite <- app_assoc. destruct i as [| i].
    + simpl in H. injection H as ->. simpl skipn.
      rewrite firstn_app, le_bytes_length, Nat.sub_diag.
      rewrite firstn_all2 by (rewrite le_bytes_length; lia).
      simpl. now rewrite app_nil_r.
    + simpl in H.
      replace (S i * ws)%nat with (i * ws + ws)%nat by lia.
      rewrite <- skipn_skipn.
      rewrite skipn_app, le_bytes_length, Nat.sub_diag.
      rewrite (skipn_all2 (n := ws) (le_bytes ws x))
        by (rewrite le_bytes_length; lia).
      simpl. now apply IH.
Qed.

Lemma flat_map_le_bytes_length (ws : nat) (addrs : list Z) :
  length (flat_map (le_bytes ws) addrs) = (length addrs * ws)%nat.
Proof.
  induction addrs as [| x addrs IH]; simpl; [reflexivity |].
  rewrite length_app, le_bytes_length, IH. lia.
Qed.

(** X14.  Round trip: when the buffer begins with the little-endian
    [wordsize]-byte encodings of the addresses [addrs], each of which
    fits in a word, and [name_count] is their number, [names] returns
    [addrs]. *)
Theorem names_of_encoded (self : NAM.t) (ws : nat) (addrs : list Z)
        (rest : bytes) :
  NAM.wordsize self = Z.of_nat ws -> (0 < ws)%nat ->
  NAM.name_count self = Z.of_nat (length addrs) ->
  NAM.buffer self = flat_map (le_bytes ws) addrs ++ rest ->
  (forall a, In a addrs -> 0 <= a < 256 ^ Z.of_nat ws) ->
  NAM.names self = Ok addrs.
Proof.
  intros Hws Hpos Hcount Hbuf Hfit.
  assert (Hlen : Z.of_nat (length addrs) * Z.of_nat ws
                 <= Z.of_nat (length (NAM.buffer self))).
  { rewrite Hbuf, length_app, flat_map_le_bytes_length. lia. }
  destruct (names_words self ltac:(lia) ltac:(lia)) as [ns [Hns [Hl Hnth]]].
  { rewrite Hcount, Hws. exact Hlen. }
  rewrite Hns. f_equal. apply nth_error_ext. intros i.
  destruct (Nat.ltb_spec i (length addrs)) as [Hi | Hi].
  - rewrite Hnth by lia.
    destruct (nth_error addrs i) as [a |] eqn:E;
      [| apply nth_error_None in E; lia].
    f_equal. rewrite Hws, slice_inside by nia.
    replace (Z.to_nat (Z.of_nat i * Z.of_nat ws + Z.of_nat ws
                       - Z.of_nat i * Z.of_nat ws)) with ws by lia.
    replace (Z.to_nat (Z.of_nat i * Z.of_nat ws)) with (i * ws)%nat by lia.
    rewrite Hbuf, (le_words_chunk ws addrs rest i a E).
    apply le_uint_le_bytes. apply Hfit. eapply nth_error_In. exact E.
  - rewrite (proj2 (nth_error_None addrs i)) by lia.
    apply nth_error_None. lia.
Qed.

Lemma names_of_encoded_witness :
  NAM.names Fixture.scenario_F = Ok [0x4000; 0x4010; 0x5000].
Proof.
  apply (names_of_encoded Fixture.scenario_F 4 [0x4000; 0x4010; 0x5000]
                          (Fixture.zeros (0x2000 - 12))).
  - reflexivity.
  - lia.
  - reflexivity.
  - reflexivity.
  - intros a [<- | [<- | [<- | []]]]; simpl; lia.
Defined.

(** ** Decoded pages *)

(** X15.  A page that decodes yields exactly [entry_count] entries. *)
Theorem entries_as_counted (self : Page.t) (es : list Entry) :
  Page.get_entries self = Ok es ->
  0 <= Page.entry_count self ->
  Z.of_nat (length es) = Page.entry_count self.
Proof.
  unfold Page.get_entries, Page._load_entries. intros H Hcount.
  apply load_loop_length in H. simpl in H. lia.
Qed.

Lemma entries_as_counted_witness :
  Z.of_nat (length [LeafEntry (b "aa") (b "1"); LeafEntry (b "ab") (b "2");
                    LeafEntry (b "bb") (b "3")])
  = Page.entry_count Fixture.scenario_B_page.
Proof.
  apply (entries_as_counted Fixture.scenario_B_page).
  - vm_compute. reflexivity.
  - vm_compute. discriminate.
Defined.

Lemma parse_entry_kind (self : Page.t) (i : Z) (pkey : bytes) (e : Entry) :
  Page.parse_entry self i pkey = Ok e -> entry_of_page self e.
Proof.
  unfold Page.parse_entry, entry_of_page.
  destruct (Page.is_leaf self); intros H.
  - repeat (apply bind_Ok in H; destruct H as [? [? H]]).
    injection H as <-. eauto.
  - apply bind_Ok in H. destruct H as [pg [Hpg H]].
    repeat (apply bind_Ok in H; destruct H as [? [? H]]).
    injection H as <-. do 3 eexists. split; [reflexivity |].
    apply (v_uint_range 4) in Hpg; [exact Hpg | lia].
Qed.

Lemma load_loop_kind (self : Page.t) (todo : nat) :
  forall (i : Z) (k : bytes) (acc es : list Entry),
    Page.load_loop self todo i k acc = Ok es ->
    (forall e, In e acc -> entry_of_page self e) ->
    forall e, In e es -> entry_of_page self e.
Proof.
  induction todo as [| todo IH]; intros i k acc es H Hacc; simpl in H.
  - injection H as <-. exact Hacc.
  - apply bind_Ok in H. destruct H as [e0 [He0 H]].
    apply (IH _ _ _ _ H). intros e He.
    apply in_app_or in He. destruct He as [He | [<- | []]].
    + now apply Hacc.
    + eapply parse_entry_kind. exact He0.
Qed.

(** X16.  The entries of a decoded page are all of the page's kind:
    leaf entries in a leaf page; in a branch page branch entries, each
    with a child page number in [0, 2^32), so that reading [entry.page]
    on an entry of a branch page never fails. *)
Theorem entries_of_one_kind (self : Page.t) (es : list Entry) (e : Entry) :
  Page.get_entries self = Ok es -> In e es ->
  (Page.is_leaf self = true -> exists k v, e = LeafEntry k v)
  /\ (Page.is_leaf self = false ->
      exists pg, page e = Ok pg /\ 0 <= pg < 2 ^ 32).
Proof.
  unfold Page.get_entries, Page._load_entries. intros H Hin.
  pose proof (load_loop_kind _ _ _ _ _ _ H ltac:(intros ? []) e Hin) as K.
  unfold entry_of_page in K. split; intros Hleaf; rewrite Hleaf in K.
  - exact K.
  - destruct K as [pg [k [v [-> Hpg]]]]. exists pg. auto.
Qed.

Lemma entries_of_one_kind_witness :
  (Page.is_leaf (Fixture.page_of (Fixture.btree_page 64 2 [(3, b "ba", b "2")]))
   = true -> exists k v, BranchEntry 3 (b "ba") (b "2") = LeafEntry k v)
  /\ (Page.is_leaf (Fixture.page_of (Fixture.btree_page 64 2 [(3, b "ba", b "2")]))
      = false ->
      exists pg, page (BranchEntry 3 (b "ba") (b "2")) = Ok pg
                 /\ 0 <= pg < 2 ^ 32).
Proof.
  apply (entries_of_one_kind
           (Fixture.page_of (Fixture.btree_page 64 2 [(3, b "ba", b "2")]))
           [BranchEntry 3 (b "ba") (b "2")]).
  - vm_compute. reflexivity.
  - simpl. auto.
Defined.

(** ** Pages of the index *)

(** X17.  Page [n] of an index occupies the [page_size] bytes from
    byte [n * page_size] of the payload: when they lie inside the
    buffer, [get_page_buffer n] has [page_size] bytes and its byte [k]
    is byte [n * page_size + k] of the buffer. *)
Theorem get_page_buffer_bytes (self : ID0.t) (n : Z) :
  0 <= n -> 0 <= ID0.page_size self ->
  (n + 1) * ID0.page_size self <= Z.of_nat (length (ID0.buf self)) ->
  length (ID0.get_page_buffer self n) = Z.to_nat (ID0.page_size self)
  /\ forall k, (k < Z.to_nat (ID0.page_size self))%nat ->
               nth_error (ID0.get_page_buffer self n) k
               = nth_error (ID0.buf self)
                           (Z.to_nat (n * ID0.page_size self) + k).
Proof.
  intros Hn Hps Hin. unfold ID0.get_page_buffer.
  set (ps := ID0.page_size self) in *.
  assert (H0 : 0 <= ps * n <= ps * n + ps) by nia.
  assert (H1 : ps * n + ps <= Z.of_nat (length (ID0.buf self))) by nia.
  split.
  - rewrite slice_length by assumption. f_equal. lia.
  - intros k Hk. rewrite slice_nth by (try assumption; lia).
    f_equal. f_equal. f_equal. lia.
Qed.

Lemma get_page_buffer_bytes_witness :
  length (ID0.get_page_buffer Fixture.two_level 2) = Z.to_nat 64
  /\ forall k, (k < Z.to_nat 64)%nat ->
               nth_error (ID0.get_page_buffer Fixture.two_level 2) k
               = nth_error (ID0.buf Fixture.two_level)
                           (Z.to_nat (2 * 64) + k).
Proof.
  apply (get_page_buffer_bytes Fixture.two_level 2).
  - lia.
  - vm_compute. discriminate.
  - vm_compute. discriminate.
Defined.

(** ** The container *)

Lemma validate_true_or_raises :
  (forall h r, FileHeader.validate h = Ok r -> r = true)
  /\ (forall s r, ID0.validate s = Ok r -> r = true)
  /\ (forall s r, ID1.validate s = Ok r -> r = true)
  /\ (forall s r, NAM.validate s = Ok r -> r = true)
  /\ (forall s r, TIL.validate s = Ok r -> r = true).
Proof.
  repeat split; intros s r;
    unfold FileHeader.validate, ID0.validate, ID1.validate, NAM.validate,
      TIL.validate;
    repeat match goal with
           | |- context [if ?c then _ else _] => destruct c
           end; congruence.
Qed.

(** X18.  [IDB.validate] returns [True] exactly when the header
    validates and the id0, id1, nam and til sections are all present
    and each validates; it never returns [False]. *)
Theorem IDB_validate_iff (self : IDB.t) :
  (IDB.validate self = Ok true <->
   FileHeader.validate (IDB.header self) = Ok true
   /\ exists s0 s1 s2 s4,
       IDB.id0 self = Some s0 /\ IDB.id1 self = Some s1
       /\ IDB.nam self = Some s2 /\ IDB.til self = Some s4
       /\ ID0.validate s0 = Ok true /\ ID1.validate s1 = Ok true
       /\ NAM.validate s2 = Ok true /\ TIL.validate s4 = Ok true)
  /\ IDB.validate self <> Ok false.
Proof.
  destruct validate_true_or_raises as [Hh [H0 [H1 [H2 H4]]]].
  unfold IDB.validate, IDB.call. split; [split |].
  - intros H.
    apply bind_Ok in H. destruct H as [rh [Eh H]].
    apply bind_Ok in H. destruct H as [r0 [E0 H]].
    apply bind_Ok in H. destruct H as [r1 [E1 H]].
    apply bind_Ok in H. destruct H as [r2 [E2 H]].
    apply bind_Ok in H. destruct H as [r4 [E4 _]].
    destruct (IDB.id0 self) as [s0 |]; [| discriminate].
    destruct (IDB.id1 self) as [s1 |]; [| discriminate].
    destruct (IDB.nam self) as [s2 |]; [| discriminate].
    destruct (IDB.til self) as [s4 |]; [| discriminate].
    rewrite (Hh _ _ Eh) in Eh. rewrite (H0 _ _ E0) in E0.
    rewrite (H1 _ _ E1) in E1. rewrite (H2 _ _ E2) in E2.
    rewrite (H4 _ _ E4) in E4.
    split; [exact Eh |]. exists s0, s1, s2, s4. auto 10.
  - intros [Eh [s0 [s1 [s2 [s4 [-> [-> [-> [-> [E0 [E1 [E2 E4]]]]]]]]]]]].
    now rewrite Eh, E0, E1, E2, E4.
  - destruct (FileHeader.validate (IDB.header self)); simpl; try discriminate.
    destruct (IDB.id0 self) as [s0 |]; simpl; [| discriminate].
    destruct (ID0.validate s0); simpl; try discriminate.
    destruct (IDB.id1 self) as [s1 |]; simpl; [| discriminate].
    destruct (ID1.validate s1); simpl; try discriminate.
    destruct (IDB.nam self) as [s2 |]; simpl; [| discriminate].
    destruct (NAM.validate s2); simpl; try discriminate.
    destruct (IDB.til self) as [s4 |]; simpl; [| discriminate].
    destruct (TIL.validate s4); simpl; discriminate.
Qed.

(** X19.  A file header only parses with [version = 6] (the parse
    callback raises otherwise), and it carries six offsets and six
    checksums; so on a parsed header [validate] succeeds exactly when
    the signature is [IDA1] and [sig2] is [0xAABBCCDD]. *)
Theorem parsed_header (buf : bytes) (h : FileHeader.t) :
  FileHeader.vsParse buf = Ok h ->
  FileHeader.version h = 6
  /\ length (FileHeader.offsets h) = 6%nat
  /\ length (FileHeader.checksums h) = 6%nat
  /\ (FileHeader.validate h = Ok true <->
      FileHeader.signature h = b "IDA1" /\ FileHeader.sig2 h = 0xAABBCCDD).
Proof.
  unfold FileHeader.vsParse. intros H.
  repeat (apply bind_Ok in H; destruct H as [? [? H]]).
  match goal with
  | Hv : (if negb (?v =? 6) then _ else _) = Ok _ |- _ =>
      destruct (Z.eqb_spec v 6) as [Hv6 | Hv6]; simpl in Hv;
      [| discriminate]
  end.
  injection H as <-. subst.
  split; [reflexivity | split; [reflexivity | split; [reflexivity |]]].
  unfold FileHeader.validate.
  cbn [FileHeader.signature FileHeader.sig2 FileHeader.version].
  match goal with
  | |- context [bytes_eqb ?s ?t] => destruct (bytes_eqb s t) eqn:Es
  end;
    match goal with
    | |- context [?a =? 2864434397] => destruct (Z.eqb_spec a 2864434397)
    end; simpl; split; try discriminate.
  - intros _. apply bytes_eqb_eq in Es. auto.
  - reflexivity.
  - intros [_ Hsig]. contradiction.
  - intros [Hs _]. rewrite Hs, bytes_eqb_refl in Es. discriminate.
  - intros [Hs _]. rewrite Hs, bytes_eqb_refl in Es. discriminate.
Qed.

Lemma parsed_header_witness :
  FileHeader.version (Fixture.valid_header [0; 88; 0; 0; 0; 0]) = 6
  /\ length (FileHeader.offsets (Fixture.valid_header [0; 88; 0; 0; 0; 0]))
     = 6%nat
  /\ length (FileHeader.checksums (Fixture.valid_header [0; 88; 0; 0; 0; 0]))
     = 6%nat
  /\ (FileHeader.validate (Fixture.valid_header [0; 88; 0; 0; 0; 0]) = Ok true
      <-> FileHeader.signature (Fixture.valid_header [0; 88; 0; 0; 0; 0])
          = b "IDA1"
          /\ FileHeader.sig2 (Fixture.valid_header [0; 88; 0; 0; 0; 0])
             = 0xAABBCCDD).
Proof.
  apply (parsed_header Fixture.scenario_E_file).
  vm_compute. reflexivity.
Defined.

Lemma parse_sections_spec (buf : bytes) (offsets : list Z) :
  forall secs,
    IDB.parse_sections buf offsets = Ok secs ->
    Forall2 (fun o sec => sec = None <-> o = 0) offsets secs.
Proof.
  induction offsets as [| o offsets IH]; intros secs H; simpl in H.
  - injection H as <-. constructor.
  - apply bind_Ok in H. destruct H as [sec [Hsec H]].
    apply bind_Ok in H. destruct H as [others [Hothers H]].
    injection H as <-. constructor; [| now apply IH].
    destruct (Z.eqb_spec o 0) as [-> | Hne].
    + injection Hsec as <-. tauto.
    + apply bind_Ok in Hsec. destruct Hsec as [s [_ Hs]].
      injection Hs as <-. split; [discriminate | contradiction].
Qed.

Lemma typed_section_spec {A : Type} (sections : list (option Section.t))
      (i : nat) (cls : bytes -> result A) (r : option A)
      (sec : option Section.t) :
  IDB.typed_section sections (Z.of_nat i) cls = Ok r ->
  nth_error sections i = Some sec ->
  (r = None <-> sec = None).
Proof.
  unfold IDB.typed_section. intros H Hnth.
  assert (Hlt : (i < length sections)%nat)
    by (apply nth_error_Some; congruence).
  rewrite Z.gtb_ltb in H.
  destruct (Z.ltb_spec (Z.of_nat (length sections)) (Z.of_nat i)); [lia |].
  rewrite (list_get_nth _ _ _ Hnth) in H. cbn [bind] in H.
  destruct sec as [s |].
  - apply bind_Ok in H. destruct H as [x [_ H]]. injection H as <-.
    split; discriminate.
  - injection H as <-. tauto.
Qed.

(** X20.  In a parsed container a typed section is absent exactly when
    its header offset is zero: with the six offsets of the header
    [o1 .. o6], [id0] is [None] iff [o1 = 0], [id1] iff [o2 = 0], [nam]
    iff [o3 = 0] and [til] iff [o5 = 0]; and the word size is 4. *)
Theorem sections_follow_offsets (buf : bytes) (idb : IDB.t) :
  IDB.vsParse buf = Ok idb ->
  exists o1 o2 o3 o4 o5 o6,
    FileHeader.offsets (IDB.header idb) = [o1; o2; o3; o4; o5; o6]
    /\ (IDB.id0 idb = None <-> o1 = 0)
    /\ (IDB.id1 idb = None <-> o2 = 0)
    /\ (IDB.nam idb = None <-> o3 = 0)
    /\ (IDB.til idb = None <-> o5 = 0)
    /\ IDB.wordsize idb = 4.
Proof.
  unfold IDB.vsParse. intros H.
  apply bind_Ok in H. destruct H as [h [Hh H]].
  apply bind_Ok in H. destruct H as [secs [Hsecs H]].
  apply bind_Ok in H. destruct H as [s0 [H0 H]].
  apply bind_Ok in H. destruct H as [s1 [H1 H]].
  apply bind_Ok in H. destruct H as [s2 [H2 H]].
  apply bind_Ok in H. destruct H as [s4 [H4 H]].
  injection H as <-. simpl.
  assert (Hoff : exists o1 o2 o3 o4 o5 o6,
             FileHeader.offsets h = [o1; o2; o3; o4; o5; o6]).
  { clear - Hh. unfold FileHeader.vsParse in Hh.
    repeat (apply bind_Ok in Hh; destruct Hh as [? [? Hh]]).
    injection Hh as <-. simpl. eauto 10. }
  destruct Hoff as [o1 [o2 [o3 [o4 [o5 [o6 Hoff]]]]]].
  exists o1, o2, o3, o4, o5, o6. split; [exact Hoff |].
  apply parse_sections_spec in Hsecs. rewrite Hoff in Hsecs.
  inversion Hsecs as [| ? c1 ? r1 E1 R1]; subst.
  inversion R1 as [| ? c2 ? r2 E2 R2]; subst.
  inversion R2 as [| ? c3 ? r3 E3 R3]; subst.
  inversion R3 as [| ? c4 ? r4 E4 R4]; subst.
  inversion R4 as [| ? c5 ? r5 E5 R5]; subst.
  inversion R5 as [| ? c6 ? r6 E6 R6]; subst.
  inversion R6; subst.
  pose proof (typed_section_spec _ 0 _ _ c1 H0 eq_refl) as T0.
  pose proof (typed_section_spec _ 1 _ _ c2 H1 eq_refl) as T1.
  pose proof (typed_section_spec _ 2 _ _ c3 H2 eq_refl) as T2.
  pose proof (typed_section_spec _ 4 _ _ c5 H4 eq_refl) as T4.
  repeat split; tauto.
Qed.

Lemma sections_follow_offsets_witness :
  exists o1 o2 o3 o4 o5 o6,
    FileHeader.offsets (IDB.header Fixture.scenario_E_idb)
    = [o1; o2; o3; o4; o5; o6]
    /\ (IDB.id0 Fixture.scenario_E_idb = None <-> o1 = 0)
    /\ (IDB.id1 Fixture.scenario_E_idb = None <-> o2 = 0)
    /\ (IDB.nam Fixture.scenario_E_idb = None <-> o3 = 0)
    /\ (IDB.til Fixture.scenario_E_idb = None <-> o5 = 0)
    /\ IDB.wordsize Fixture.scenario_E_idb = 4.
Proof.
  apply (sections_follow_offsets Fixture.scenario_E_file).
  vm_compute. reflexivity.
Defined.

(** ** Searches: the cursor a search returns *)

Section Sound.

Variable index : ID0.t.

Lemma exact_find_cursor (fuel : nat) :
  forall (above : list Page.t) (n : Z) (k : bytes) (c : Cursor.t),
    ExactMatchStrategy._find fuel index above n k = Ok c ->
    key (Cursor.entry c) = k
    /\ exists mid p,
        Cursor.path c = above ++ mid ++ [p]
        /\ Page.get_entry p (Cursor.entry_number c) = Ok (Cursor.entry c).
Proof.
  induction fuel as [| fuel IH]; intros above n k c H; simpl in H;
    [discriminate |].
  apply bind_Ok in H. destruct H as [page0 [_ H]].
  apply bind_Ok in H. destruct H as [[is_largest en] [_ H]].
  cbn [fst snd] in H.
  apply bind_Ok in H. destruct H as [entry [Hentry H]].
  destruct (bytes_eqb (key entry) k) eqn:Heq.
  - injection H as <-. cbn [Cursor.entry Cursor.path Cursor.entry_number].
    split; [now apply bytes_eqb_eq |].
    exists [], page0. split; [reflexivity | exact Hentry].
  - destruct (Page.is_leaf page0); [discriminate |].
    apply bind_Ok in H. destruct H as [next_page_number [_ H]].
    apply IH in H. destruct H as [Hkey [mid [p [Hpath Hget]]]].
    split; [exact Hkey |].
    exists (page0 :: mid), p. split; [| exact Hget].
    rewrite Hpath, <- app_assoc. reflexivity.
Qed.

Lemma scan_leaf_hit (es : list Entry) (i : Z) (k : bytes) (e : Entry) (j : Z) :
  PrefixMatchStrategy.scan_leaf es i k = Ok (e, j) ->
  startswith (key e) k = true
  /\ exists m, j = i + Z.of_nat m /\ nth_error es m = Some e.
Proof.
  revert i. induction es as [| x es IH]; intros i H; simpl in H;
    [discriminate |].
  destruct (startswith (key x) k) eqn:Hsw.
  - injection H as <- <-. split; [exact Hsw |].
    exists 0%nat. split; [lia | reflexivity].
  - destruct (bytes_gtb (key x) k); [discriminate |].
    apply IH in H. destruct H as [Hs [m [-> Hm]]].
    split; [exact Hs |]. exists (S m). split; [lia | exact Hm].
Qed.

Lemma scan_branch_hit (es : list Entry) (i next_page : Z) (k : bytes)
      (e : Entry) (j : Z) :
  PrefixMatchStrategy.scan_branch es i next_page k
  = Ok (PrefixMatchStrategy.Found e j) ->
  key e = k
  /\ exists m, j = i + Z.of_nat m /\ nth_error es m = Some e.
Proof.
  revert i next_page. induction es as [| x es IH]; intros i next_page H;
    simpl in H; [discriminate |].
  destruct (bytes_eqb (key x) k) eqn:Heq.
  - injection H as <- <-. split; [now apply bytes_eqb_eq |].
    exists 0%nat. split; [lia | reflexivity].
  - destruct (startswith (key x) k); [discriminate |].
    destruct (bytes_gtb (key x) k); [discriminate |].
    apply bind_Ok in H. destruct H as [pg [_ H]].
    apply IH in H. destruct H as [Hs [m [-> Hm]]].
    split; [exact Hs |]. exists (S m). split; [lia | exact Hm].
Qed.

Lemma prefix_find_cursor (fuel : nat) :
  forall (above : list Page.t) (n : Z) (k : bytes) (c : Cursor.t),
    PrefixMatchStrategy._find fuel index above n k = Ok c ->
    startswith (key (Cursor.entry c)) k = true
    /\ 0 <= Cursor.entry_number c
    /\ exists mid p,
        Cursor.path c = above ++ mid ++ [p]
        /\ Page.get_entry p (Cursor.entry_number c) = Ok (Cursor.entry c).
Proof.
  induction fuel as [| fuel IH]; intros above n k c H; simpl in H;
    [discriminate |].
  apply bind_Ok in H. destruct H as [page0 [_ H]].
  apply bind_Ok in H. destruct H as [entries [Hes H]].
  destruct (Page.is_leaf page0).
  - apply bind_Ok in H. destruct H as [[e j] [Hscan H]].
    injection H as <-. cbn [Cursor.entry Cursor.path Cursor.entry_number fst snd].
    apply scan_leaf_hit in Hscan. destruct Hscan as [Hs [m [-> Hm]]].
    split; [exact Hs |]. split; [lia |].
    exists [], page0. split; [reflexivity |].
    apply (get_entry_nth page0 entries m e Hes Hm).
  - apply bind_Ok in H. destruct H as [s [Hscan H]].
    destruct s as [e j | next_page].
    + injection H as <-.
      cbn [Cursor.entry Cursor.path Cursor.entry_number].
      apply scan_branch_hit in Hscan. destruct Hscan as [Hs [m [-> Hm]]].
      split; [rewrite Hs; apply startswith_refl |]. split; [lia |].
      exists [], page0. split; [reflexivity |].
      apply (get_entry_nth page0 entries m e Hes Hm).
    + apply IH in H. destruct H as [Hs [Hen [mid [p [Hpath Hget]]]]].
      split; [exact Hs |]. split; [exact Hen |].
      exists (page0 :: mid), p. split; [| exact Hget].
      rewrite Hpath, <- app_assoc. reflexivity.
Qed.

End Sound.

(** X21.  An exact search that returns a cursor returned the key asked
    for, on any index: the cursor's entry has exactly that key, and it
    is the entry [entry_number] of the last page of the cursor's path. *)
Theorem exact_find_sound (fuel : nat) (index : ID0.t) (k : bytes)
        (c : Cursor.t) :
  ID0_find fuel index k EXACT_MATCH = Ok c ->
  key (Cursor.entry c) = k
  /\ exists above p,
      Cursor.path c = above ++ [p]
      /\ Page.get_entry p (Cursor.entry_number c) = Ok (Cursor.entry c).
Proof.
  intros H. apply exact_find_cursor in H.
  destruct H as [Hkey [mid [p [Hpath Hget]]]].
  split; [exact Hkey |]. exists mid, p. split; [exact Hpath | exact Hget].
Qed.

Lemma exact_find_sound_witness :
  exists c,
    ID0_find 2 Fixture.scenario_D (b "e") EXACT_MATCH = Ok c
    /\ key (Cursor.entry c) = b "e"
    /\ exists above p,
        Cursor.path c = above ++ [p]
        /\ Page.get_entry p (Cursor.entry_number c) = Ok (Cursor.entry c).
Proof.
  assert (H : exists c,
             ID0_find 2 Fixture.scenario_D (b "e") EXACT_MATCH = Ok c)
    by (vm_compute; eexists; reflexivity).
  destruct H as [c H]. exists c. split; [exact H |].
  apply (exact_find_sound 2 Fixture.scenario_D (b "e") c H).
Defined.

(** X22.  A prefix search that returns a cursor returned a key that
    starts with the key asked for, on any index; the cursor's entry is
    the entry [entry_number] of the last page of its path, and
    [entry_number] is not negative. *)
Theorem prefix_find_sound (fuel : nat) (index : ID0.t) (k : bytes)
        (c : Cursor.t) :
  ID0_find_prefix fuel index k = Ok c ->
  startswith (key (Cursor.entry c)) k = true
  /\ 0 <= Cursor.entry_number c
  /\ exists above p,
      Cursor.path c = above ++ [p]
      /\ Page.get_entry p (Cursor.entry_number c) = Ok (Cursor.entry c).
Proof.
  intros H. apply prefix_find_cursor in H.
  destruct H as [Hs [Hen [mid [p [Hpath Hget]]]]].
  split; [exact Hs |]. split; [exact Hen |].
  exists mid, p. split; [exact Hpath | exact Hget].
Qed.

Lemma prefix_find_sound_witness :
  exists c,
    ID0_find_prefix 2 Fixture.scenario_D (b "e") = Ok c
    /\ startswith (key (Cursor.entry c)) (b "e") = true
    /\ 0 <= Cursor.entry_number c
    /\ exists above p,
        Cursor.path c = above ++ [p]
        /\ Page.get_entry p (Cursor.entry_number c) = Ok (Cursor.entry c).
Proof.
  assert (H : exists c, ID0_find_prefix 2 Fixture.scenario_D (b "e") = Ok c)
    by (vm_compute; eexists; reflexivity).
  destruct H as [c H]. exists c. split; [exact H |].
  apply (prefix_find_sound 2 Fixture.scenario_D (b "e") c H).
Defined.

(** ** Searches on a well-formed index *)

(** X23.  On a well-formed index the exact search for a key that no
    entry holds raises [KeyError]: it does not return another entry,
    and it does not fail in another way. *)
Theorem exact_find_absent_key (index : ID0.t) (h : nat) (l : list Entry)
        (fuel : nat) (k : bytes) :
  well_formed index h l ->
  (forall e, In e l -> key e <> k) ->
  (h < fuel)%nat ->
  ID0_find fuel index k EXACT_MATCH = Raise KeyError.
Proof.
  intros [Htree _ _] Habs Hfuel.
  apply (exact_find_absent index h (ID0.root_page index) l k fuel []);
    [exact Htree | | exact Hfuel].
  intros e He. specialize (Habs e He).
  destruct (bytes_eqb (key e) k) eqn:Heq; [| reflexivity].
  apply bytes_eqb_eq in Heq. contradiction.
Qed.

Lemma exact_find_absent_key_witness :
  ID0_find 2 Fixture.two_level (b "b") EXACT_MATCH = Raise KeyError.
Proof.
  apply (exact_find_absent_key Fixture.two_level 1 Fixture.two_level_entries
                               2 (b "b")).
  - exact two_level_well_formed.
  - intros e [<- | [<- | [<- | []]]]; discriminate.
  - lia.
Defined.

(** X24.  On a well-formed index the prefix search for a key that no
    entry starts with raises [KeyError]. *)
Theorem prefix_find_absent_key (index : ID0.t) (h : nat) (l : list Entry)
        (fuel : nat) (k : bytes) :
  well_formed index h l ->
  (forall e, In e l -> startswith (key e) k = false) ->
  (h < fuel)%nat ->
  ID0_find_prefix fuel index k = Raise KeyError.
Proof.
  intros [Htree _ _] Habs Hfuel.
  exact (prefix_find_absent index h (ID0.root_page index) l k fuel []
                            Htree Habs Hfuel).
Qed.

Lemma prefix_find_absent_key_witness :
  ID0_find_prefix 2 Fixture.two_level (b "c") = Raise KeyError.
Proof.
  apply (prefix_find_absent_key Fixture.two_level 1 Fixture.two_level_entries
                                2 (b "c")).
  - exact two_level_well_formed.
  - intros e [<- | [<- | [<- | []]]]; reflexivity.
  - lia.
Defined.

Section Present.

Variable index : ID0.t.

Lemma find_index_leaf_at (es1 : list Entry) (e : Entry) (es2 : list Entry)
      (i : Z) :
  (forall x, In x es1 -> keys_lt x e) ->
  Cursor.find_index_leaf (es1 ++ e :: es2) i (key e)
  = Ok (i + Z.of_nat (length es1)).
Proof.
  revert i. induction es1 as [| x es1 IH]; intros i H; simpl.
  - rewrite bytes_eqb_refl. f_equal. lia.
  - assert (Hx : bytes_ltb (key x) (key e) = true) by (apply H; now left).
    destruct (bytes_ltb_neq _ _ Hx) as [_ ->].
    rewrite IH; [f_equal; lia |]. intros y Hy. apply H. now right.
Qed.

Lemma find_index_branch_at (es1 : list Entry) (e : Entry) (es2 : list Entry)
      (i : Z) :
  (forall x, In x es1 -> keys_lt x e) ->
  Cursor.find_index_branch (es1 ++ e :: es2) i (key e)
  = Ok (i + Z.of_nat (length es1)).
Proof.
  revert i. induction es1 as [| x es1 IH]; intros i H; simpl.
  - rewrite bytes_eqb_refl. f_equal. lia.
  - assert (Hx : bytes_ltb (key x) (key e) = true) by (apply H; now left).
    destruct (bytes_ltb_neq _ _ Hx) as [_ ->].
    rewrite (bytes_ltb_asym _ _ Hx).
    rewrite IH; [f_equal; lia |]. intros y Hy. apply H. now right.
Qed.

(** The entries of a page that come before the cursor's entry in the
    page come before it in the tree. *)
Lemma page_entries_before (h : nat) (es1 : list Entry)
      (ls1 : list (list Entry)) (x : Entry) :
  Forall2 (kid index h) es1 ls1 -> In x es1 -> In x (interleave es1 ls1).
Proof.
  intros Hk Hx. apply In_interleave; [| exact Hx].
  eapply Forall2_length; eassumption.
Qed.

Lemma exact_find_located (h : nat) (n : Z) (rel : list Page.t) (en : Z)
      (bf : list Entry) (e : Entry) (af : list Entry) :
  located index h n rel en bf e af ->
  forall (fuel : nat) (above : list Page.t),
    ascending (bf ++ e :: af) ->
    Forall (fun p => Page.is_leaf p = false -> 2 <= Page.entry_count p) rel ->
    (h < fuel)%nat ->
    ExactMatchStrategy._find fuel index above n (key e)
    = Ok (Cursor.mk (above ++ rel) e en).
Proof.
  induction 1 as [n p es1 e es2 Hp Hleaf Hes
                 | h n p es1 e es2 l0 ls1 l ls2 Hp Hleaf Hes Hleft Hk1 Hk Hk2
                 | h n p es ls rel en bf e af Hp Hleaf Hes Hne Hk Hloc IH
                 | h n p es1 em es2 l0 ls1 ls2 pg rel en bf e af
                     Hp Hleaf Hes Hleft Hk1 Hpg Hloc IH Hk2];
    intros fuel above Hasc Hwide Hfuel;
    (destruct fuel as [| fuel]; [lia |]).
  - (* the entry of a leaf *)
    apply ascending_app in Hasc. destruct Hasc as [_ [_ Hcross]].
    simpl. rewrite Hp. cbn [bind].
    rewrite (find_index_leaf_page p _ _ Hes Hleaf).
    rewrite find_index_leaf_at by (intros x Hx; apply Hcross; [| left]; auto).
    cbn [bind try_except fst snd]. rewrite Z.add_0_l.
    rewrite (get_entry_middle p _ _ _ Hes). cbn [bind].
    now rewrite bytes_eqb_refl.
  - (* the entry of a branch page *)
    apply ascending_app in Hasc. destruct Hasc as [_ [_ Hcross]].
    simpl. rewrite Hp. cbn [bind].
    rewrite (find_index_branch_page p _ _ Hes Hleaf).
    rewrite find_index_branch_at.
    + cbn [bind try_except fst snd]. rewrite Z.add_0_l.
      rewrite (get_entry_middle p _ _ _ Hes). cbn [bind].
      now rewrite bytes_eqb_refl.
    + intros x Hx. apply Hcross; [| now left].
      apply in_or_app. right. eapply page_entries_before; eassumption.
  - (* under the leftmost child *)
    destruct es as [| e0 es']; [congruence |].
    assert (Hlt : bytes_ltb (key e) (key e0) = true).
    { apply ascending_app in Hasc. destruct Hasc as [_ [Hasc _]].
      apply ascending_cons in Hasc. destruct Hasc as [_ Hasc].
      apply Hasc. apply in_or_app. right.
      eapply page_entries_before; [eassumption | now left]. }
    assert (Hasc' : ascending (bf ++ e :: af)).
    { apply (ascending_middle [] _ (interleave (e0 :: es') ls)).
      simpl app at 1. now rewrite <- app_assoc. }
    inversion Hwide as [| ? ? _ Hwide']; subst.
    simpl. rewrite Hp. cbn [bind].
    rewrite (find_index_branch_page p _ _ Hes Hleaf).
    rewrite (find_index_branch_head e0 es' (key e) Hlt).
    cbn [bind try_except fst snd].
    rewrite (get_entry_first p e0 es' Hes). cbn [bind].
    destruct (bytes_ltb_neq _ _ Hlt) as [_ ->].
    rewrite Hleaf. cbn [bind]. rewrite Z.eqb_refl. cbn [bind].
    rewrite (IH fuel (above ++ [p]) Hasc' Hwide' ltac:(lia)).
    now rewrite <- app_assoc.
  - (* under the child of entry [em] *)
    assert (Hbefore : forall x, In x (es1 ++ [em]) ->
                                bytes_ltb (key x) (key e) = true).
    { apply ascending_app in Hasc. destruct Hasc as [_ [_ Hcross]].
      intros x Hx. apply Hcross; [| now left].
      apply in_or_app. right. apply in_or_app.
      apply in_app_or in Hx. destruct Hx as [Hx | [<- | []]].
      - left. eapply page_entries_before; eassumption.
      - right. now left. }
    assert (Hem : bytes_eqb (key em) (key e) = false).
    { apply (bytes_ltb_neq (key em) (key e)). apply Hbefore.
      apply in_or_app. right. now left. }
    assert (Hasc' : ascending (bf ++ e :: af)).
    { apply (ascending_middle (l0 ++ interleave es1 ls1 ++ [em]) _
                              (interleave es2 ls2)).
      replace ((l0 ++ interleave es1 ls1 ++ [em])
                 ++ (bf ++ e :: af) ++ interleave es2 ls2)
        with ((l0 ++ interleave es1 ls1 ++ em :: bf)
                ++ e :: af ++ interleave es2 ls2); [assumption |].
      repeat (rewrite <- app_assoc; simpl). reflexivity. }
    inversion Hwide as [| ? ? Hp2 Hwide']; subst.
    specialize (Hp2 Hleaf).
    assert (Hes' : Page.get_entries p = Ok ((es1 ++ [em]) ++ es2))
      by (now rewrite <- app_assoc).
    assert (Hcount : Page.entry_count p
                     = Z.of_nat (length (es1 ++ em :: es2)))
      by (apply (entry_count_length p _ Hes); now destruct es1).
    simpl. rewrite Hp. cbn [bind].
    rewrite (find_index_branch_page p _ _ Hes' Hleaf).
    destruct es2 as [| e2 es2'].
    + (* no greater entry in the page: the last entry is taken *)
      rewrite app_nil_r.
      rewrite (find_index_branch_all_less _ 0 _ Hbefore).
      cbn [bind try_except fst snd].
      assert (Hlast : Page.entry_count p - 1 = Z.of_nat (length es1))
        by (rewrite Hcount, length_app; simpl; lia).
      rewrite Hlast.
      rewrite (get_entry_middle p _ _ _ Hes). cbn [bind].
      rewrite Hem, Hleaf.
      replace (Z.of_nat (length es1) =? 0) with false
        by (symmetry; apply Z.eqb_neq; lia).
      rewrite Hpg. cbn [bind].
      rewrite (IH fuel (above ++ [p]) Hasc' Hwide' ltac:(lia)).
      now rewrite <- app_assoc.
    + (* the least greater entry of the page follows [em] *)
      assert (He2 : bytes_ltb (key e) (key e2) = true).
      { apply ascending_app in Hasc. destruct Hasc as [_ [Hasc _]].
        apply ascending_cons in Hasc. destruct Hasc as [_ Hasc].
        apply Hasc. apply in_or_app. right.
        eapply page_entries_before; [eassumption | now left]. }
      rewrite (find_index_branch_first_greater _ e2 es2' 0 _ Hbefore He2).
      cbn [bind try_except fst snd]. rewrite Z.add_0_l.
      rewrite (get_entry_middle p _ _ _ Hes'). cbn [bind].
      destruct (bytes_ltb_neq _ _ He2) as [_ ->].
      rewrite Hleaf.
      replace (Z.of_nat (length (es1 ++ [em])) =? 0) with false
        by (symmetry; apply Z.eqb_neq; rewrite length_app; simpl; lia).
      replace (Z.of_nat (length (es1 ++ [em])) - 1)
        with (Z.of_nat (length es1))
        by (rewrite length_app; simpl; lia).
      rewrite (get_entry_middle p _ _ _ Hes). cbn [bind]. rewrite Hpg.
      cbn [bind].
      rewrite (IH fuel (above ++ [p]) Hasc' Hwide' ltac:(lia)).
      now rewrite <- app_assoc.
Qed.

End Present.

(** X25.  On a well-formed index the exact search for the key of an
    entry returns the cursor on that entry (the pages from the root
    down to the entry's page, the entry, and its number in that page),
    provided every branch page on that path holds at least two
    entries. *)
Theorem exact_find_present (index : ID0.t) (h : nat) (rel : list Page.t)
        (en : Z) (bf : list Entry) (e : Entry) (af : list Entry)
        (fuel : nat) :
  well_formed index h (bf ++ e :: af) ->
  located index h (ID0.root_page index) rel en bf e af ->
  Forall (fun p => Page.is_leaf p = false -> 2 <= Page.entry_count p) rel ->
  (h < fuel)%nat ->
  ID0_find fuel index (key e) EXACT_MATCH = Ok (Cursor.mk rel e en).
Proof.
  intros [_ Hasc _] Hloc Hwide Hfuel.
  unfold ID0_find, ExactMatchStrategy.find.
  now rewrite (exact_find_located index h _ rel en bf e af Hloc fuel []
                                  Hasc Hwide Hfuel).
Qed.

(** The index of scenario D, its entries in key order and the place of
    its greatest entry. *)
Lemma scenario_D_well_formed :
  well_formed Fixture.scenario_D 1
    ([LeafEntry (b "a") (b "1"); LeafEntry (b "b") (b "2");
      BranchEntry 3 (b "c") (b "3");
      LeafEntry (b "d") (b "4"); LeafEntry (b "e") (b "5");
      BranchEntry 4 (b "f") (b "6"); LeafEntry (b "g") (b "7")]
       ++ LeafEntry (b "h") (b "8") :: []).
Proof.
  split.
  - eapply (subtree_branch _ 0 1 _
              [BranchEntry 3 (b "c") (b "3"); BranchEntry 4 (b "f") (b "6")]
              [LeafEntry (b "a") (b "1"); LeafEntry (b "b") (b "2")]
              [[LeafEntry (b "d") (b "4"); LeafEntry (b "e") (b "5")];
               [LeafEntry (b "g") (b "7"); LeafEntry (b "h") (b "8")]]).
    + vm_compute. reflexivity.
    + vm_compute. reflexivity.
    + vm_compute. reflexivity.
    + discriminate.
    + eapply subtree_leaf;
        [vm_compute; reflexivity | vm_compute; reflexivity
         | vm_compute; reflexivity | discriminate].
    + repeat constructor;
        (eexists; split; [reflexivity |]);
        (eapply subtree_leaf;
         [vm_compute; reflexivity | vm_compute; reflexivity
          | vm_compute; reflexivity | discriminate]).
  - repeat constructor.
  - reflexivity.
Qed.

Lemma scenario_D_greatest :
  exists root leaf,
    located Fixture.scenario_D 1 1 [root; leaf] 1
      [LeafEntry (b "a") (b "1"); LeafEntry (b "b") (b "2");
       BranchEntry 3 (b "c") (b "3");
       LeafEntry (b "d") (b "4"); LeafEntry (b "e") (b "5");
       BranchEntry 4 (b "f") (b "6"); LeafEntry (b "g") (b "7")]
      (LeafEntry (b "h") (b "8")) []
    /\ Page.is_leaf root = false /\ Page.entry_count root = 2
    /\ Page.is_leaf leaf = true.
Proof.
  do 2 eexists. split; [| split; [| split]].
  - eapply (loc_child Fixture.scenario_D 0 1 _
              [BranchEntry 3 (b "c") (b "3")] (BranchEntry 4 (b "f") (b "6")) []
              [LeafEntry (b "a") (b "1"); LeafEntry (b "b") (b "2")]
              [[LeafEntry (b "d") (b "4"); LeafEntry (b "e") (b "5")]] []
              4 [_] 1 [LeafEntry (b "g") (b "7")]
              (LeafEntry (b "h") (b "8")) []).
    + vm_compute. reflexivity.
    + vm_compute. reflexivity.
    + vm_compute. reflexivity.
    + eapply subtree_leaf;
        [vm_compute; reflexivity | vm_compute; reflexivity
         | vm_compute; reflexivity | discriminate].
    + repeat constructor.
      eexists; split; [reflexivity |].
      eapply subtree_leaf;
        [vm_compute; reflexivity | vm_compute; reflexivity
         | vm_compute; reflexivity | discriminate].
    + reflexivity.
    + eapply (loc_leaf Fixture.scenario_D 4 _ [LeafEntry (b "g") (b "7")]
                       (LeafEntry (b "h") (b "8")) []);
        [vm_compute; reflexivity | vm_compute; reflexivity
         | vm_compute; reflexivity].
    + constructor.
  - vm_compute. reflexivity.
  - vm_compute. reflexivity.
  - vm_compute. reflexivity.
Qed.

Lemma exact_find_present_witness :
  exists root leaf,
    ID0_find 2 Fixture.scenario_D (b "h") EXACT_MATCH
    = Ok (Cursor.mk [root; leaf] (LeafEntry (b "h") (b "8")) 1).
Proof.
  destruct scenario_D_greatest as [root [leaf [Hloc [Hb [Hc Hl]]]]].
  exists root, leaf.
  apply (exact_find_present Fixture.scenario_D 1 [root; leaf] 1 _
                            (LeafEntry (b "h") (b "8")) [] 2
                            scenario_D_well_formed Hloc).
  - constructor; [intros _; rewrite Hc; lia |].
    constructor; [intros Hf; congruence | constructor].
  - lia.
Defined.

(** *** The order of keys and their prefixes *)

Lemma prefix_below (k m x : bytes) :
  startswith m k = true -> bytes_ltb m x = true -> bytes_ltb k x = true.
Proof.
  revert m x. induction k as [| c k IH]; intros m x Hs Hlt.
  - destruct x; [destruct m; discriminate | reflexivity].
  - destruct m as [| a m]; [discriminate |].
    destruct x as [| d x]; [discriminate |].
    simpl in Hs, Hlt |- *.
    apply andb_prop in Hs. destruct Hs as [Hac Hs].
    apply Z.eqb_eq in Hac. rewrite <- Hac.
    destruct (byte_val a <? byte_val d); [reflexivity |].
    destruct (byte_val a =? byte_val d); [| discriminate].
    now apply (IH m x).
Qed.

Lemma before_prefix (k m x : bytes) :
  bytes_ltb x m = true -> startswith m k = true ->
  startswith x k = false ->
  bytes_gtb x k = false /\ bytes_eqb x k = false.
Proof.
  intros Hlt Hs Hx. split.
  - unfold bytes_gtb. revert m x Hlt Hs Hx.
    induction k as [| c k IH]; intros m x Hlt Hs Hx.
    + destruct x; discriminate.
    + destruct m as [| a m]; [discriminate |].
      destruct x as [| d x]; [reflexivity |].
      simpl in Hs, Hlt, Hx |- *.
      apply andb_prop in Hs. destruct Hs as [Hac Hs].
      apply Z.eqb_eq in Hac. rewrite <- Hac.
      rewrite <- Hac in Hx.
      destruct (Z.ltb_spec (byte_val d) (byte_val a)) as [Hda | Hda].
      * destruct (Z.ltb_spec (byte_val a) (byte_val d)); [lia |].
        destruct (Z.eqb_spec (byte_val a) (byte_val d)); [lia | reflexivity].
      * destruct (Z.eqb_spec (byte_val d) (byte_val a)) as [Heq | Hne];
          [| discriminate].
        rewrite Heq, Z.ltb_irrefl, Z.eqb_refl.
        simpl in Hx. now apply (IH m x).
  - destruct (bytes_eqb x k) eqn:Heq; [| reflexivity].
    apply bytes_eqb_eq in Heq. subst x.
    now rewrite startswith_refl in Hx.
Qed.

Lemma scan_leaf_at (es1 : list Entry) (e : Entry) (es2 : list Entry) (i : Z)
      (k : bytes) :
  (forall x, In x es1 ->
             startswith (key x) k = false /\ bytes_gtb (key x) k = false) ->
  startswith (key e) k = true ->
  PrefixMatchStrategy.scan_leaf (es1 ++ e :: es2) i k
  = Ok (e, i + Z.of_nat (length es1)).
Proof.
  revert i. induction es1 as [| x es1 IH]; intros i H He; simpl.
  - rewrite He. do 2 f_equal. lia.
  - destruct (H x (or_introl eq_refl)) as [-> ->].
    rewrite IH; [do 2 f_equal; lia | | exact He].
    intros y Hy. apply H. now right.
Qed.

(** A branch entry that the scan passes: it is not the key, does not
    start with it and is not greater. *)
Lemma scan_branch_skip (es1 : list Entry) (rest : list Entry) (i np : Z)
      (k : bytes) :
  (forall x, In x es1 ->
             bytes_eqb (key x) k = false /\ startswith (key x) k = false
             /\ bytes_gtb (key x) k = false) ->
  (forall x, In x es1 -> exists pg, page x = Ok pg) ->
  exists np',
    PrefixMatchStrategy.scan_branch (es1 ++ rest) i np k
    = PrefixMatchStrategy.scan_branch rest (i + Z.of_nat (length es1)) np' k.
Proof.
  revert i np. induction es1 as [| x es1 IH]; intros i np H Hpg.
  - exists np. simpl. now rewrite Z.add_0_r.
  - destruct (H x (or_introl eq_refl)) as [Heq [Hs Hgt]].
    destruct (Hpg x (or_introl eq_refl)) as [pg Hx].
    destruct (IH (i + 1) pg) as [np' Hnp'].
    + intros y Hy. apply H. now right.
    + intros y Hy. apply Hpg. now right.
    + exists np'. simpl. rewrite Heq, Hs, Hgt, Hx. cbn [bind].
      rewrite Hnp'. f_equal. lia.
Qed.

Lemma scan_branch_skip_to (es1 : list Entry) (em : Entry) (rest : list Entry)
      (i np pg : Z) (k : bytes) :
  (forall x, In x (es1 ++ [em]) ->
             bytes_eqb (key x) k = false /\ startswith (key x) k = false
             /\ bytes_gtb (key x) k = false) ->
  (forall x, In x es1 -> exists pg, page x = Ok pg) ->
  page em = Ok pg ->
  PrefixMatchStrategy.scan_branch (es1 ++ em :: rest) i np k
  = PrefixMatchStrategy.scan_branch rest (i + Z.of_nat (length es1) + 1) pg k.
Proof.
  revert i np. induction es1 as [| x es1 IH]; intros i np H Hpg Hem.
  - destruct (H em (or_introl eq_refl)) as [Heq [Hs Hgt]].
    simpl. rewrite Heq, Hs, Hgt, Hem. cbn [bind]. f_equal. lia.
  - destruct (H x (or_introl eq_refl)) as [Heq [Hs Hgt]].
    destruct (Hpg x (or_introl eq_refl)) as [pgx Hx].
    simpl. rewrite Heq, Hs, Hgt, Hx. cbn [bind].
    rewrite (IH (i + 1) pgx); [f_equal; lia | | | exact Hem].
    + intros y Hy. apply H. now right.
    + intros y Hy. apply Hpg. now right.
Qed.

Lemma scan_branch_stop (e0 : Entry) (rest : list Entry) (i np : Z)
      (k : bytes) :
  bytes_ltb k (key e0) = true ->
  PrefixMatchStrategy.scan_branch (e0 :: rest) i np k
  = Ok (PrefixMatchStrategy.Descend np).
Proof.
  intros H. simpl.
  destruct (bytes_ltb_neq _ _ H) as [_ ->].
  destruct (startswith (key e0) k); [reflexivity |].
  unfold bytes_gtb. now rewrite H.
Qed.

Section Least.

Variable index : ID0.t.

Lemma kids_have_pages (h : nat) (es : list Entry) (ls : list (list Entry)) :
  Forall2 (kid index h) es ls ->
  forall x, In x es -> exists pg, page x = Ok pg.
Proof.
  induction 1 as [| e l es ls [pg [Hpg _]] _ IH]; intros x Hx;
    [contradiction |].
  destruct Hx as [<- | Hx]; [eauto | now apply IH].
Qed.

Lemma prefix_find_located (h : nat) (n : Z) (rel : list Page.t) (en : Z)
      (bf : list Entry) (e : Entry) (af : list Entry) :
  located index h n rel en bf e af ->
  forall (fuel : nat) (above : list Page.t) (k : bytes),
    ascending (bf ++ e :: af) ->
    startswith (key e) k = true ->
    (forall x, In x bf -> startswith (key x) k = false) ->
    page e = Raise AttributeError \/ key e = k ->
    (h < fuel)%nat ->
    PrefixMatchStrategy._find fuel index above n k
    = Ok (Cursor.mk (above ++ rel) e en).
Proof.
  induction 1 as [n p es1 e es2 Hp Hleaf Hes
                 | h n p es1 e es2 l0 ls1 l ls2 Hp Hleaf Hes Hleft Hk1 Hk Hk2
                 | h n p es ls rel en bf e af Hp Hleaf Hes Hne Hk Hloc IH
                 | h n p es1 em es2 l0 ls1 ls2 pg rel en bf e af
                     Hp Hleaf Hes Hleft Hk1 Hpg Hloc IH Hk2];
    intros fuel above k Hasc Hs Hbf Hkind Hfuel;
    (destruct fuel as [| fuel]; [lia |]);
    pose proof Hasc as Hcross; apply ascending_app in Hcross;
    destruct Hcross as [_ [Hafter Hcross]].
  - (* the entry of a leaf *)
    simpl. rewrite Hp. cbn [bind]. rewrite Hes. cbn [bind]. rewrite Hleaf.
    rewrite scan_leaf_at; [rewrite Z.add_0_l; reflexivity | | exact Hs].
    intros x Hx. split; [now apply Hbf |].
    apply (before_prefix k (key e) (key x));
      [apply Hcross; [exact Hx | now left] | exact Hs | now apply Hbf].
  - (* the entry of a branch page: its key is the key searched *)
    destruct Hkind as [Hkind | Hkey];
      [destruct Hk as [pg [Hpg _]]; congruence |].
    assert (Hin : forall x, In x es1 -> In x (l0 ++ interleave es1 ls1)).
    { intros x Hx. apply in_or_app. right.
      eapply page_entries_before; eassumption. }
    destruct (scan_branch_skip es1 (e :: es2) 0 (Page.ppointer p) k)
      as [np' Hscan].
    + intros x Hx.
      destruct (before_prefix k (key e) (key x)) as [Hgt Heq];
        [apply Hcross; [now apply Hin | now left] | exact Hs
         | apply Hbf; now apply Hin |].
      split; [exact Heq |]. split; [apply Hbf; now apply Hin | exact Hgt].
    + apply (kids_have_pages h es1 ls1 Hk1).
    + simpl. rewrite Hp. cbn [bind]. rewrite Hes. cbn [bind]. rewrite Hleaf.
      rewrite Hscan. simpl.
      replace (bytes_eqb (key e) k) with true
        by (symmetry; apply bytes_eqb_eq; exact Hkey).
      cbn [bind]. rewrite ?Z.add_0_l. reflexivity.
  - (* under the leftmost child *)
    destruct es as [| e0 es']; [congruence |].
    assert (Hlt : bytes_ltb (key e) (key e0) = true).
    { apply ascending_cons in Hafter. destruct Hafter as [_ Hafter].
      apply Hafter. apply in_or_app. right.
      eapply page_entries_before; [eassumption | now left]. }
    assert (Hasc' : ascending (bf ++ e :: af)).
    { apply (ascending_middle [] _ (interleave (e0 :: es') ls)).
      simpl app at 1. now rewrite <- app_assoc. }
    simpl. rewrite Hp. cbn [bind]. rewrite Hes. cbn [bind]. rewrite Hleaf.
    rewrite scan_branch_stop by (now apply (prefix_below k (key e))).
    cbn [bind].
    rewrite (IH fuel (above ++ [p]) k Hasc' Hs Hbf Hkind ltac:(lia)).
    now rewrite <- app_assoc.
  - (* under the child of entry [em] *)
    assert (Hin : forall x, In x (es1 ++ [em]) ->
                            In x (l0 ++ interleave es1 ls1 ++ em :: bf)).
    { intros x Hx. apply in_or_app. right. apply in_or_app.
      apply in_app_or in Hx. destruct Hx as [Hx | [<- | []]].
      - left. eapply page_entries_before; eassumption.
      - right. now left. }
    assert (Hpass : forall x, In x (es1 ++ [em]) ->
                      bytes_eqb (key x) k = false
                      /\ startswith (key x) k = false
                      /\ bytes_gtb (key x) k = false).
    { intros x Hx.
      destruct (before_prefix k (key e) (key x)) as [Hgt Heq];
        [apply Hcross; [now apply Hin | now left] | exact Hs
         | apply Hbf; now apply Hin |].
      split; [exact Heq |]. split; [apply Hbf; now apply Hin | exact Hgt]. }
    assert (Hasc' : ascending (bf ++ e :: af)).
    { apply (ascending_middle (l0 ++ interleave es1 ls1 ++ [em]) _
                              (interleave es2 ls2)).
      replace ((l0 ++ interleave es1 ls1 ++ [em])
                 ++ (bf ++ e :: af) ++ interleave es2 ls2)
        with ((l0 ++ interleave es1 ls1 ++ em :: bf)
                ++ e :: af ++ interleave es2 ls2); [assumption |].
      repeat (rewrite <- app_assoc; simpl). reflexivity. }
    assert (Hbf' : forall x, In x bf -> startswith (key x) k = false).
    { intros x Hx. apply Hbf. apply in_or_app. right. apply in_or_app.
      right. now right. }
    simpl. rewrite Hp. cbn [bind]. rewrite Hes. cbn [bind]. rewrite Hleaf.
    rewrite (scan_branch_skip_to es1 em es2 0 (Page.ppointer p) pg k Hpass
               (kids_have_pages h es1 ls1 Hk1) Hpg).
    destruct es2 as [| e2 es2'].
    + simpl. rewrite (IH fuel (above ++ [p]) k Hasc' Hs Hbf' Hkind ltac:(lia)).
      now rewrite <- app_assoc.
    + assert (He2 : bytes_ltb (key e) (key e2) = true).
      { apply ascending_cons in Hafter. destruct Hafter as [_ Hafter].
        apply Hafter. apply in_or_app. right.
        eapply page_entries_before; [eassumption | now left]. }
      rewrite scan_branch_stop by (now apply (prefix_below k (key e))).
      cbn [bind].
      rewrite (IH fuel (above ++ [p]) k Hasc' Hs Hbf' Hkind ltac:(lia)).
      now rewrite <- app_assoc.
Qed.

End Least.

(** X26.  On a well-formed index the prefix search returns the cursor
    on the least entry whose key starts with the key searched, whenever
    that entry is a leaf entry or its key is exactly the key searched. *)
Theorem prefix_find_least (index : ID0.t) (h : nat) (rel : list Page.t)
        (en : Z) (bf : list Entry) (e : Entry) (af : list Entry)
        (fuel : nat) (k : bytes) :
  well_formed index h (bf ++ e :: af) ->
  located index h (ID0.root_page index) rel en bf e af ->
  startswith (key e) k = true ->
  (forall x, In x bf -> startswith (key x) k = false) ->
  page e = Raise AttributeError \/ key e = k ->
  (h < fuel)%nat ->
  ID0_find_prefix fuel index k = Ok (Cursor.mk rel e en).
Proof.
  intros [_ Hasc _] Hloc Hs Hbf Hkind Hfuel.
  unfold ID0_find_prefix, ID0_find, PrefixMatchStrategy.find.
  now rewrite (prefix_find_located index h _ rel en bf e af Hloc fuel [] k
                                   Hasc Hs Hbf Hkind Hfuel).
Qed.

Lemma prefix_find_least_witness :
  exists root leaf,
    ID0_find_prefix 2 Fixture.scenario_D (b "h")
    = Ok (Cursor.mk [root; leaf] (LeafEntry (b "h") (b "8")) 1).
Proof.
  destruct scenario_D_greatest as [root [leaf [Hloc _]]].
  exists root, leaf.
  apply (prefix_find_least Fixture.scenario_D 1 [root; leaf] 1 _
                           (LeafEntry (b "h") (b "8")) [] 2 (b "h")
                           scenario_D_well_formed Hloc).
  - reflexivity.
  - intros x Hx. repeat (destruct Hx as [<- | Hx]; [reflexivity |]).
    contradiction.
  - left. reflexivity.
  - lia.
Defined.

(** ** [prev]: the traversal backwards *)

Lemma last_case {A : Type} (l : list A) :
  l = [] \/ exists l' a, l = l' ++ [a].
Proof.
  destruct l as [| x l]; [now left | right].
  destruct (@exists_last _ (x :: l)) as [l' [a H]]; [discriminate |].
  eauto.
Qed.

Lemma get_entry_last (p : Page.t) (es1 : list Entry) (e : Entry) :
  Page.get_entries p = Ok (es1 ++ [e]) ->
  Page.entry_count p - 1 = Z.of_nat (length es1)
  /\ Page.get_entry p (Page.entry_count p - 1) = Ok e.
Proof.
  intros Hes.
  assert (Hc : Page.entry_count p - 1 = Z.of_nat (length es1)).
  { rewrite (entry_count_length p _ Hes) by (now destruct es1).
    rewrite length_app. simpl. lia. }
  split; [exact Hc |]. rewrite Hc. apply (get_entry_middle p _ _ _ Hes).
Qed.

Lemma interleave_last (es1 : list Entry) (ls1 : list (list Entry))
      (em : Entry) (lm : list Entry) :
  length es1 = length ls1 ->
  interleave (es1 ++ [em]) (ls1 ++ [lm]) = interleave es1 ls1 ++ em :: lm.
Proof.
  intros H. rewrite (interleave_app _ _ _ _ H). simpl.
  now rewrite app_nil_r.
Qed.

Section Backwards.

Variable index : ID0.t.

Lemma kids_last (h : nat) (es1 : list Entry) (em : Entry)
      (ls : list (list Entry)) :
  Forall2 (kid index h) (es1 ++ [em]) ls ->
  exists ls1 lm,
    ls = ls1 ++ [lm] /\ Forall2 (kid index h) es1 ls1 /\ kid index h em lm.
Proof.
  intros H. apply Forall2_app_inv_l in H.
  destruct H as [ls1 [l2 [H1 [H2 ->]]]].
  inversion H2 as [| ? lm ? ? Hk Hnil]; subst. inversion Hnil; subst.
  exists ls1, lm. auto.
Qed.

(** From the root of a tree the loop of [prev] reaches the leaf that
    holds the greatest entry. *)
Lemma descend_max_last (h : nat) :
  forall (n : Z) (l : list Entry) (p : Page.t) (fuel : nat)
         (above : list Page.t),
    subtree index h n l ->
    ID0.get_page index n = Ok p ->
    (h <= fuel)%nat ->
    exists pre leaf e rest,
      l = rest ++ [e]
      /\ Cursor.descend_max fuel index above p = Ok (above ++ pre, leaf)
      /\ located index h n (pre ++ [leaf]) (Page.entry_count leaf - 1)
                 rest e []
      /\ Page.get_entry leaf (Page.entry_count leaf - 1) = Ok e.
Proof.
  induction h as [| h IH]; intros n l p fuel above Hsub Hp Hfuel;
    inversion Hsub as [n0 p0 es Hp0 Hleaf Hes Hne
                      | h0 n0 p0 es l0 ls Hp0 Hleaf Hes Hne Hleft Hkids];
    subst; rewrite Hp in Hp0; injection Hp0 as <-.
  - destruct (last_case l) as [-> | [rest [e ->]]]; [congruence |].
    destruct (get_entry_last p rest e Hes) as [Hc Hget].
    exists [], p, e, rest. repeat split.
    + rewrite app_nil_r. destruct fuel; simpl; now rewrite Hleaf.
    + rewrite Hc. apply (loc_leaf index n p rest e []); assumption.
    + exact Hget.
  - destruct fuel as [| fuel]; [lia |].
    destruct (last_case es) as [-> | [es1 [em ->]]]; [congruence |].
    apply subtree_kids in Hkids.
    destruct (kids_last h es1 em ls Hkids) as [ls1 [lm [-> [Hk1 Hkm]]]].
    destruct Hkm as [pg [Hpg Hsubm]].
    destruct (subtree_page _ _ _ _ Hsubm) as [p' Hp'].
    destruct (IH _ _ p' fuel (above ++ [p]) Hsubm Hp' ltac:(lia))
      as [pre [leaf [e [rest [-> [Hdesc [Hloc Hget]]]]]]].
    destruct (get_entry_last p es1 em Hes) as [_ Hlast].
    exists (p :: pre), leaf, e, (l0 ++ interleave es1 ls1 ++ em :: rest).
    repeat split.
    + rewrite interleave_last by (eapply Forall2_length; eassumption).
      repeat (rewrite <- app_assoc; simpl). reflexivity.
    + simpl. rewrite Hleaf, Hlast. cbn [bind]. rewrite Hpg. cbn [bind].
      rewrite Hp'. cbn [bind]. rewrite Hdesc. now rewrite <- app_assoc.
    + pose proof (loc_child index h n p es1 em [] l0 ls1 [] pg
                    (pre ++ [leaf]) (Page.entry_count leaf - 1) rest e []
                    Hp Hleaf Hes Hleft Hk1 Hpg Hloc (Forall2_nil _)) as L.
      exact L.
    + exact Hget.
Qed.

(** When the cursor stands on the first entry of the tree at page [n],
    it is on the first entry of a leaf, and the loop of [prev] pops the
    path up to the page of [n]. *)
Lemma ascend_from_first (h : nat) (n : Z) (rel : list Page.t) (en : Z)
      (bf : list Entry) (e : Entry) (af : list Entry) :
  located index h n rel en bf e af ->
  bf = [] ->
  ascending (e :: af) ->
  (exists pre leaf,
      rel = pre ++ [leaf] /\ Page.is_leaf leaf = true /\ en = 0)
  /\ (exists p rest,
         rel = p :: rest
         /\ forall r, Cursor.ascend_prev (rev rel ++ r) (key e)
                      = Cursor.ascend_prev (p :: r) (key e)).
Proof.
  induction 1 as [n p es1 e es2 Hp Hleaf Hes
                 | h n p es1 e es2 l0 ls1 l ls2 Hp Hleaf Hes Hleft Hk1 Hk Hk2
                 | h n p es ls rel en bf e af Hp Hleaf Hes Hne Hk Hloc IH
                 | h n p es1 em es2 l0 ls1 ls2 pg rel en bf e af
                     Hp Hleaf Hes Hleft Hk1 Hpg Hloc IH Hk2];
    intros Hbf Hasc.
  - subst es1. split.
    + exists [], p. repeat split; assumption.
    + exists p, []. split; reflexivity.
  - apply app_eq_nil in Hbf. destruct Hbf as [-> _].
    exfalso. eapply subtree_nonempty; eauto.
  - assert (Hasc' : ascending (e :: af)).
    { apply (ascending_middle [] _ (interleave es ls)). exact Hasc. }
    destruct (IH Hbf Hasc') as [[pre [leaf [Hrel [Hl Hen]]]]
                                 [pc [restc [Hrel' Hclimb]]]].
    split.
    + exists (p :: pre), leaf. rewrite Hrel. auto.
    + exists p, rel. split; [reflexivity |]. intros r.
      simpl rev. rewrite <- app_assoc. simpl app.
      rewrite Hclimb. simpl.
      rewrite (find_index_branch_page p _ _ Hes Hleaf).
      destruct es as [| e0 es']; [congruence |].
      rewrite find_index_branch_head; [reflexivity |].
      apply ascending_cons in Hasc. destruct Hasc as [_ Hasc].
      apply Hasc. apply in_or_app. right.
      apply In_interleave; [eapply Forall2_length; eassumption | now left].
  - apply app_eq_nil in Hbf. destruct Hbf as [-> _].
    exfalso. eapply subtree_nonempty; eauto.
Qed.

(** At the first entry of the whole tree [prev] raises [IndexError]. *)
Lemma prev_at_start (h : nat) (n : Z) (rel : list Page.t) (en : Z)
      (e : Entry) (af : list Entry) (fuel : nat) :
  located index h n rel en [] e af ->
  ascending (e :: af) ->
  Cursor.prev fuel index (Cursor.mk rel e en) = Raise IndexError.
Proof.
  intros Hloc Hasc.
  destruct (ascend_from_first _ _ _ _ _ _ _ Hloc eq_refl Hasc)
    as [[pre [leaf [Hrel [Hl Hen]]]] [p [rest [Hrel' Hclimb]]]].
  unfold Cursor.prev. cbn [Cursor.path Cursor.entry Cursor.entry_number].
  rewrite Hrel at 1. rewrite list_get_last. cbn [bind].
  rewrite Hl, Hen, Z.eqb_refl.
  specialize (Hclimb []). rewrite app_nil_r in Hclimb.
  rewrite Hclimb. reflexivity.
Qed.

(** The step of [prev] from the first entry of a child, once the climb
    has reached the page [p] above it: the cursor moves to the entry of
    [p] before the index [find_index] gives, or to the last entry of
    [p] when [find_index] finds no greater entry. *)
Lemma prev_climbs_to (fuel : nat) (above : list Page.t) (p : Page.t)
      (rel : list Page.t) (en : Z) (e e' : Entry) (k : nat)
      (es : list Entry) (h : nat) (n : Z) (af : list Entry) :
  located index h n rel en [] e af ->
  ascending (e :: af) ->
  Page.get_entries p = Ok es ->
  Page.is_leaf p = false ->
  try_except (Cursor.find_index_branch es 0 (key e)) KeyError
             (Ok (Page.entry_count p)) = Ok (Z.of_nat (S k)) ->
  nth_error es k = Some e' ->
  Cursor.prev fuel index (Cursor.mk (above ++ p :: rel) e en)
  = Ok (Cursor.mk (above ++ [p]) e' (Z.of_nat k)).
Proof.
  intros Hloc Hasc Hes Hleaf Hfind Hnth.
  destruct (ascend_from_first _ _ _ _ _ _ _ Hloc eq_refl Hasc)
    as [[pre [leaf [Hrel [Hl Hen]]]] [pc [restc [Hrel' Hclimb]]]].
  unfold Cursor.prev. cbn [Cursor.path Cursor.entry Cursor.entry_number].
  replace (above ++ p :: rel) with ((above ++ p :: pre) ++ [leaf]) at 1
    by (rewrite Hrel, <- app_assoc; reflexivity).
  rewrite list_get_last. cbn [bind].
  rewrite Hl, Hen, Z.eqb_refl.
  rewrite rev_path, Hclimb. simpl Cursor.ascend_prev.
  rewrite (find_index_branch_page p _ _ Hes Hleaf), Hfind.
  cbn [bind fst snd].
  replace (Z.of_nat (S k) =? 0) with false
    by (symmetry; apply Z.eqb_neq; lia).
  cbn [bind fst snd]. simpl rev. rewrite rev_involutive.
  rewrite list_get_last. cbn [bind].
  replace (Z.of_nat (S k) - 1) with (Z.of_nat k) by lia.
  now rewrite (get_entry_nth p es k e' Hes Hnth).
Qed.

(** The index the climb of [prev] finds in the page above a child:
    one past the entry that points to the child. *)
Lemma climb_index (p : Page.t) (es1 : list Entry) (em : Entry)
      (es2 : list Entry) (k : bytes) :
  Page.get_entries p = Ok (es1 ++ em :: es2) ->
  (forall x, In x (es1 ++ [em]) -> bytes_ltb (key x) k = true) ->
  (forall x, In x es2 -> bytes_ltb k (key x) = true) ->
  try_except (Cursor.find_index_branch (es1 ++ em :: es2) 0 k) KeyError
             (Ok (Page.entry_count p)) = Ok (Z.of_nat (S (length es1))).
Proof.
  intros Hes Hlt Hgt.
  replace (es1 ++ em :: es2) with ((es1 ++ [em]) ++ es2)
    by (now rewrite <- app_assoc).
  destruct es2 as [| e2 es2'].
  - rewrite app_nil_r. rewrite (find_index_branch_all_less _ 0 _ Hlt).
    cbn [try_except]. f_equal.
    rewrite (entry_count_length p _ Hes) by (now destruct es1).
    rewrite length_app. simpl. lia.
  - rewrite (find_index_branch_first_greater _ e2 es2' 0 _ Hlt)
      by (apply Hgt; now left).
    cbn [try_except]. f_equal. rewrite length_app. simpl. lia.
Qed.

Lemma prev_located (h : nat) (n : Z) (rel : list Page.t) (en : Z)
      (bf : list Entry) (e : Entry) (af : list Entry) :
  located index h n rel en bf e af ->
  forall (e' : Entry) (bf' : list Entry) (fuel : nat) (above : list Page.t),
    bf = bf' ++ [e'] ->
    ascending (bf ++ e :: af) ->
    (h <= fuel)%nat ->
    exists rel' en',
      Cursor.prev fuel index (Cursor.mk (above ++ rel) e en)
      = Ok (Cursor.mk (above ++ rel') e' en')
      /\ located index h n rel' en' bf' e' (e :: af).
Proof.
  induction 1 as [n p es1 e es2 Hp Hleaf Hes
                 | h n p es1 e es2 l0 ls1 l ls2 Hp Hleaf Hes Hleft Hk1 Hk Hk2
                 | h n p es ls rel en bf e af Hp Hleaf Hes Hne Hk Hloc IH
                 | h n p es1 em es2 l0 ls1 ls2 pg rel en bf e af
                     Hp Hleaf Hes Hleft Hk1 Hpg Hloc IH Hk2];
    intros e' bf' fuel above Hbf Hasc Hfuel.
  - (* inside a leaf *)
    subst es1.
    assert (Hes' : Page.get_entries p = Ok (bf' ++ e' :: e :: es2))
      by (now rewrite <- app_assoc in Hes).
    exists [p], (Z.of_nat (length bf')). split.
    + unfold Cursor.prev. cbn [Cursor.path Cursor.entry Cursor.entry_number].
      rewrite list_get_last. cbn [bind]. rewrite Hleaf.
      replace (Z.of_nat (length (bf' ++ [e'])) =? 0) with false
        by (symmetry; apply Z.eqb_neq; rewrite length_app; simpl; lia).
      replace (Z.of_nat (length (bf' ++ [e'])) - 1)
        with (Z.of_nat (length bf'))
        by (rewrite length_app; simpl; lia).
      now rewrite (get_entry_middle p _ _ _ Hes').
    + apply loc_leaf; assumption.
  - (* from a branch entry down to the greatest entry on its left *)
    destruct fuel as [| fuel]; [lia |].
    destruct (last_case es1) as [-> | [es1' [ex ->]]].
    + (* the first entry of the page: the leftmost child *)
      inversion Hk1; subst. simpl in Hbf. rewrite app_nil_r in Hbf.
      destruct (subtree_page _ _ _ _ Hleft) as [p' Hp'].
      destruct (descend_max_last h _ l0 p' (S fuel) (above ++ [p]) Hleft Hp'
                  ltac:(lia))
        as [pre [leaf [x [rest [Hl0 [Hdesc [Hloc Hget]]]]]]].
      rewrite Hl0 in Hbf. apply app_inj_tail in Hbf.
      destruct Hbf as [<- <-].
      exists (p :: pre ++ [leaf]), (Page.entry_count leaf - 1). split.
      * unfold Cursor.prev.
        cbn [Cursor.path Cursor.entry Cursor.entry_number].
        rewrite list_get_last. cbn [bind]. rewrite Hleaf.
        cbn [bind length Z.of_nat]. rewrite Z.eqb_refl. cbn [bind]. rewrite Hp'. cbn [bind].
        rewrite Hdesc. cbn [bind fst snd]. rewrite Hget. cbn [bind].
        repeat (rewrite <- app_assoc; simpl). reflexivity.
      * pose proof (loc_left index h n p (e :: es2) (l :: ls2)
                      (pre ++ [leaf]) (Page.entry_count leaf - 1) rest x []
                      Hp Hleaf Hes ltac:(discriminate)
                      (Forall2_cons _ _ Hk Hk2) Hloc) as L.
        exact L.
    + (* the child of the entry before *)
      destruct (kids_last h es1' ex ls1 Hk1) as [ls1' [lx [-> [Hk1' Hkx]]]].
      destruct Hkx as [pgx [Hpgx Hsubx]].
      destruct (subtree_page _ _ _ _ Hsubx) as [p' Hp'].
      destruct (descend_max_last h _ lx p' (S fuel) (above ++ [p]) Hsubx Hp'
                  ltac:(lia))
        as [pre [leaf [x [rest [Hlx [Hdesc [Hloc Hget]]]]]]].
      rewrite interleave_last in Hbf
        by (eapply Forall2_length; eassumption).
      rewrite Hlx in Hbf.
      replace (l0 ++ interleave es1' ls1' ++ ex :: rest ++ [x])
        with ((l0 ++ interleave es1' ls1' ++ ex :: rest) ++ [x]) in Hbf
        by (repeat (rewrite <- app_assoc; simpl); reflexivity).
      apply app_inj_tail in Hbf. destruct Hbf as [<- <-].
      assert (Hes' : Page.get_entries p = Ok (es1' ++ ex :: e :: es2))
        by (now rewrite <- app_assoc in Hes).
      exists (p :: pre ++ [leaf]), (Page.entry_count leaf - 1). split.
      * unfold Cursor.prev.
        cbn [Cursor.path Cursor.entry Cursor.entry_number].
        rewrite list_get_last. cbn [bind]. rewrite Hleaf. cbn [bind].
        replace (Z.of_nat (length (es1' ++ [ex])) =? 0) with false
          by (symmetry; apply Z.eqb_neq; rewrite length_app; simpl; lia).
        replace (Z.of_nat (length (es1' ++ [ex])) - 1)
          with (Z.of_nat (length es1'))
          by (rewrite length_app; simpl; lia).
        rewrite (get_entry_middle p _ _ _ Hes'). cbn [bind].
        rewrite Hpgx. cbn [bind]. rewrite Hp'. cbn [bind].
        rewrite Hdesc. cbn [bind fst snd]. rewrite Hget. cbn [bind].
        repeat (rewrite <- app_assoc; simpl). reflexivity.
      * pose proof (loc_child index h n p es1' ex (e :: es2) l0 ls1'
                      (l :: ls2) pgx (pre ++ [leaf])
                      (Page.entry_count leaf - 1) rest x []
                      Hp Hleaf Hes' Hleft Hk1' Hpgx Hloc
                      (Forall2_cons _ _ Hk Hk2)) as L.
        exact L.
  - (* under the leftmost child *)
    assert (Hasc' : ascending (bf ++ e :: af)).
    { apply (ascending_middle [] _ (interleave es ls)).
      simpl app at 1. now rewrite <- app_assoc. }
    destruct (IH e' bf' fuel (above ++ [p]) Hbf Hasc' ltac:(lia))
      as [rel' [en' [Hprev Hloc']]].
    exists (p :: rel'), en'. split.
    + rewrite <- app_assoc in Hprev. simpl in Hprev. rewrite Hprev.
      now rewrite <- app_assoc.
    + pose proof (loc_left index h n p es ls rel' en' bf' e' (e :: af)
                    Hp Hleaf Hes Hne Hk Hloc') as L.
      exact L.
  - (* under the child of entry [em] *)
    assert (Hasc' : ascending (bf ++ e :: af)).
    { apply (ascending_middle (l0 ++ interleave es1 ls1 ++ [em]) _
                              (interleave es2 ls2)).
      replace ((l0 ++ interleave es1 ls1 ++ [em])
                 ++ (bf ++ e :: af) ++ interleave es2 ls2)
        with ((l0 ++ interleave es1 ls1 ++ em :: bf)
                ++ e :: af ++ interleave es2 ls2); [assumption |].
      repeat (rewrite <- app_assoc; simpl). reflexivity. }
    destruct (last_case bf) as [-> | [bf0 [x ->]]].
    + (* the first entry of the child: up to the entry [em] *)
      replace (l0 ++ interleave es1 ls1 ++ [em])
        with ((l0 ++ interleave es1 ls1) ++ [em]) in Hbf
        by (now rewrite <- app_assoc).
      apply app_inj_tail in Hbf. destruct Hbf as [<- <-].
      apply ascending_app in Hasc. destruct Hasc as [_ [Hafter Hcross]].
      exists [p], (Z.of_nat (length es1)). split.
      * apply (prev_climbs_to fuel above p rel en e em (length es1)
                              (es1 ++ em :: es2) h pg af Hloc Hasc' Hes
                              Hleaf).
        -- apply (climb_index p es1 em es2 (key e) Hes).
           ++ intros y Hy. apply Hcross; [| now left].
              apply in_or_app. right. apply in_or_app.
              apply in_app_or in Hy. destruct Hy as [Hy | [<- | []]].
              ** left. apply In_interleave;
                   [eapply Forall2_length; eassumption | assumption].
              ** right. now left.
           ++ intros y Hy. apply ascending_cons in Hafter.
              destruct Hafter as [_ Hafter]. apply Hafter.
              apply in_or_app. right.
              apply In_interleave;
                [eapply Forall2_length; eassumption | assumption].
        -- rewrite nth_error_app2 by lia. now rewrite Nat.sub_diag.
      * pose proof (loc_entry index h n p es1 em es2 l0 ls1 (e :: af) ls2
                      Hp Hleaf Hes Hleft Hk1) as L.
        apply L; [| assumption].
        exists pg. split; [assumption |].
        apply (located_subtree _ _ _ _ _ _ _ _ Hloc).
    + (* inside the child *)
      replace (l0 ++ interleave es1 ls1 ++ em :: bf0 ++ [x])
        with ((l0 ++ interleave es1 ls1 ++ em :: bf0) ++ [x]) in Hbf
        by (repeat (rewrite <- app_assoc; simpl); reflexivity).
      apply app_inj_tail in Hbf. destruct Hbf as [<- <-].
      destruct (IH x bf0 fuel (above ++ [p]) eq_refl Hasc' ltac:(lia))
        as [rel' [en' [Hprev Hloc']]].
      exists (p :: rel'), en'. split.
      * rewrite <- app_assoc in Hprev. simpl in Hprev. rewrite Hprev.
        now rewrite <- app_assoc.
      * pose proof (loc_child index h n p es1 em es2 l0 ls1 ls2 pg rel' en'
                      bf0 x (e :: af) Hp Hleaf Hes Hleft Hk1 Hpg Hloc' Hk2)
          as L.
        exact L.
Qed.

End Backwards.

(** *** Round trips of [next] and [prev] *)

Section RoundTrip.

Variable index : ID0.t.

(** The loops that descend find again the place of the greatest and of
    the least entry of a tree. *)
Lemma descend_max_located (h : nat) (n : Z) (rel : list Page.t) (en : Z)
      (bf : list Entry) (e : Entry) (af : list Entry) :
  located index h n rel en bf e af ->
  af = [] ->
  forall (fuel : nat) (above : list Page.t) (p : Page.t),
    ID0.get_page index n = Ok p ->
    (h <= fuel)%nat ->
    exists pre leaf,
      rel = pre ++ [leaf]
      /\ Cursor.descend_max fuel index above p = Ok (above ++ pre, leaf)
      /\ en = Page.entry_count leaf - 1
      /\ Page.get_entry leaf (Page.entry_count leaf - 1) = Ok e.
Proof.
  induction 1 as [n p es1 e es2 Hp Hleaf Hes
                 | h n p es1 e es2 l0 ls1 l ls2 Hp Hleaf Hes Hleft Hk1 Hk Hk2
                 | h n p es ls rel en bf e af Hp Hleaf Hes Hne Hk Hloc IH
                 | h n p es1 em es2 l0 ls1 ls2 pg rel en bf e af
                     Hp Hleaf Hes Hleft Hk1 Hpg Hloc IH Hk2];
    intros Haf fuel above q Hq Hfuel;
    rewrite Hp in Hq; injection Hq as <-.
  - subst es2. destruct (get_entry_last p es1 e Hes) as [Hc Hget].
    exists [], p. repeat split.
    + rewrite app_nil_r. destruct fuel; simpl; now rewrite Hleaf.
    + now rewrite Hc.
    + exact Hget.
  - apply app_eq_nil in Haf. destruct Haf as [-> _].
    exfalso. eapply kid_nonempty; eauto.
  - apply app_eq_nil in Haf. destruct Haf as [_ Haf].
    apply (interleave_nil_inv index h _ _ Hk) in Haf. congruence.
  - apply app_eq_nil in Haf. destruct Haf as [-> Haf].
    apply (interleave_nil_inv index h _ _ Hk2) in Haf. subst es2.
    destruct fuel as [| fuel]; [lia |].
    destruct (subtree_page _ _ _ _ (located_subtree _ _ _ _ _ _ _ _ Hloc))
      as [p' Hp'].
    destruct (IH eq_refl fuel (above ++ [p]) p' Hp' ltac:(lia))
      as [pre [leaf [Hrel [Hdesc [Hen Hget]]]]].
    destruct (get_entry_last p es1 em Hes) as [_ Hlast].
    exists (p :: pre), leaf. repeat split.
    + now rewrite Hrel.
    + simpl. rewrite Hleaf, Hlast. cbn [bind]. rewrite Hpg. cbn [bind].
      rewrite Hp'. cbn [bind]. rewrite Hdesc. now rewrite <- app_assoc.
    + exact Hen.
    + exact Hget.
Qed.

Lemma descend_min_located (h : nat) (n : Z) (rel : list Page.t) (en : Z)
      (bf : list Entry) (e : Entry) (af : list Entry) :
  located index h n rel en bf e af ->
  bf = [] ->
  forall (fuel : nat) (above : list Page.t) (p : Page.t),
    ID0.get_page index n = Ok p ->
    (h <= fuel)%nat ->
    exists pre leaf,
      rel = pre ++ [leaf]
      /\ Cursor.descend_min fuel index above p = Ok (above ++ pre, leaf)
      /\ en = 0
      /\ Page.get_entry leaf 0 = Ok e.
Proof.
  induction 1 as [n p es1 e es2 Hp Hleaf Hes
                 | h n p es1 e es2 l0 ls1 l ls2 Hp Hleaf Hes Hleft Hk1 Hk Hk2
                 | h n p es ls rel en bf e af Hp Hleaf Hes Hne Hk Hloc IH
                 | h n p es1 em es2 l0 ls1 ls2 pg rel en bf e af
                     Hp Hleaf Hes Hleft Hk1 Hpg Hloc IH Hk2];
    intros Hbf fuel above q Hq Hfuel;
    rewrite Hp in Hq; injection Hq as <-.
  - subst es1. exists [], p. repeat split.
    + rewrite app_nil_r. destruct fuel; simpl; now rewrite Hleaf.
    + apply (get_entry_first p e es2 Hes).
  - apply app_eq_nil in Hbf. destruct Hbf as [-> _].
    exfalso. eapply subtree_nonempty; eauto.
  - destruct fuel as [| fuel]; [lia |].
    destruct (subtree_page _ _ _ _ (located_subtree _ _ _ _ _ _ _ _ Hloc))
      as [p' Hp'].
    destruct (IH Hbf fuel (above ++ [p]) p' Hp' ltac:(lia))
      as [pre [leaf [Hrel [Hdesc [Hen Hget]]]]].
    exists (p :: pre), leaf. repeat split.
    + now rewrite Hrel.
    + simpl. rewrite Hleaf, Hp'. cbn [bind]. rewrite Hdesc.
      now rewrite <- app_assoc.
    + exact Hen.
    + exact Hget.
  - apply app_eq_nil in Hbf. destruct Hbf as [-> _].
    exfalso. eapply subtree_nonempty; eauto.
Qed.

(** [prev] from a branch entry: down to the greatest entry of the tree
    on its left, whose place is [rel], [en]. *)
Lemma prev_descends_to (fuel : nat) (above : list Page.t) (p : Page.t)
      (e' : Entry) (k : Z) (h : nat) (pg : Z) (rel : list Page.t) (en : Z)
      (bf : list Entry) (e : Entry) :
  located index h pg rel en bf e [] ->
  Page.is_leaf p = false ->
  (if k =? 0 then Ok (Page.ppointer p)
   else x <- Page.get_entry p (k - 1) ;; page x) = Ok pg ->
  (h <= fuel)%nat ->
  Cursor.prev fuel index (Cursor.mk (above ++ [p]) e' k)
  = Ok (Cursor.mk (above ++ p :: rel) e en).
Proof.
  intros Hloc Hleaf Hchild Hfuel.
  destruct (subtree_page _ _ _ _ (located_subtree _ _ _ _ _ _ _ _ Hloc))
    as [p' Hp'].
  destruct (descend_max_located _ _ _ _ _ _ _ Hloc eq_refl fuel (above ++ [p])
                                p' Hp' Hfuel)
    as [pre [leaf [Hrel [Hdesc [Hen Hget]]]]].
  unfold Cursor.prev. cbn [Cursor.path Cursor.entry Cursor.entry_number].
  rewrite list_get_last. cbn [bind]. rewrite Hleaf. cbn [bind].
  rewrite Hchild. cbn [bind]. rewrite Hp'. cbn [bind].
  rewrite Hdesc. cbn [bind fst snd]. rewrite Hget. cbn [bind].
  rewrite Hrel, Hen. repeat (rewrite <- app_assoc; simpl). reflexivity.
Qed.

(** [next] from a branch entry: down to the least entry of its child,
    whose place is [rel], [en]. *)
Lemma next_descends_to (fuel : nat) (above : list Page.t) (p : Page.t)
      (em : Entry) (k : Z) (h : nat) (pg : Z) (rel : list Page.t) (en : Z)
      (e : Entry) (af : list Entry) :
  located index h pg rel en [] e af ->
  Page.is_leaf p = false ->
  page em = Ok pg ->
  (h <= fuel)%nat ->
  Cursor.next fuel index (Cursor.mk (above ++ [p]) em k)
  = Ok (Cursor.mk (above ++ p :: rel) e en).
Proof.
  intros Hloc Hleaf Hchild Hfuel.
  destruct (subtree_page _ _ _ _ (located_subtree _ _ _ _ _ _ _ _ Hloc))
    as [p' Hp'].
  destruct (descend_min_located _ _ _ _ _ _ _ Hloc eq_refl fuel (above ++ [p])
                                p' Hp' Hfuel)
    as [pre [leaf [Hrel [Hdesc [Hen Hget]]]]].
  unfold Cursor.next. cbn [Cursor.path Cursor.entry Cursor.entry_number].
  rewrite list_get_last. cbn [bind]. rewrite Hleaf.
  rewrite Hchild. cbn [bind]. rewrite Hp'. cbn [bind].
  rewrite Hdesc. cbn [bind fst snd]. rewrite Hget. cbn [bind].
  rewrite Hrel, Hen. repeat (rewrite <- app_assoc; simpl). reflexivity.
Qed.

Lemma next_prev (h : nat) (n : Z) (rel : list Page.t) (en : Z)
      (bf : list Entry) (e : Entry) (af : list Entry) :
  located index h n rel en bf e af ->
  forall (e' : Entry) (af' : list Entry) (fuel : nat) (above : list Page.t),
    af = e' :: af' ->
    ascending (bf ++ e :: af) ->
    (h <= fuel)%nat ->
    exists rel' en',
      Cursor.next fuel index (Cursor.mk (above ++ rel) e en)
      = Ok (Cursor.mk (above ++ rel') e' en')
      /\ Cursor.prev fuel index (Cursor.mk (above ++ rel') e' en')
         = Ok (Cursor.mk (above ++ rel) e en).
Proof.
  induction 1 as [n p es1 e es2 Hp Hleaf Hes
                 | h n p es1 e es2 l0 ls1 l ls2 Hp Hleaf Hes Hleft Hk1 Hk Hk2
                 | h n p es ls rel en bf e af Hp Hleaf Hes Hne Hk Hloc IH
                 | h n p es1 em es2 l0 ls1 ls2 pg rel en bf e af
                     Hp Hleaf Hes Hleft Hk1 Hpg Hloc IH Hk2];
    intros e' af' fuel above Haf Hasc Hfuel.
  - (* inside a leaf *)
    subst es2.
    assert (Hes' : Page.get_entries p = Ok ((es1 ++ [e]) ++ e' :: af'))
      by (now rewrite <- app_assoc).
    exists [p], (Z.of_nat (length (es1 ++ [e]))). split.
    + unfold Cursor.next. cbn [Cursor.path Cursor.entry Cursor.entry_number].
      rewrite list_get_last. cbn [bind]. rewrite Hleaf.
      rewrite (entry_count_length p _ Hes) by (now destruct es1).
      replace (Z.of_nat (length es1)
               =? Z.of_nat (length (es1 ++ e :: e' :: af')) - 1) with false
        by (symmetry; apply Z.eqb_neq; rewrite length_app; simpl; lia).
      replace (Z.of_nat (length es1) + 1)
        with (Z.of_nat (length (es1 ++ [e])))
        by (rewrite length_app; simpl; lia).
      now rewrite (get_entry_middle p _ _ _ Hes').
    + unfold Cursor.prev. cbn [Cursor.path Cursor.entry Cursor.entry_number].
      rewrite list_get_last. cbn [bind]. rewrite Hleaf.
      replace (Z.of_nat (length (es1 ++ [e])) =? 0) with false
        by (symmetry; apply Z.eqb_neq; rewrite length_app; simpl; lia).
      replace (Z.of_nat (length (es1 ++ [e])) - 1)
        with (Z.of_nat (length es1))
        by (rewrite length_app; simpl; lia).
      now rewrite (get_entry_middle p _ _ _ Hes).
  - (* from a branch entry down to the least entry of its child *)
    destruct Hk as [pg [Hpg Hsub]].
    destruct (subtree_page _ _ _ _ Hsub) as [p' Hp'].
    destruct (descend_min_first index h pg l p' fuel (above ++ [p]) Hsub Hp'
                ltac:(lia))
      as [pre [leaf [x [rest [-> [Hdesc [Hloc Hget]]]]]]].
    simpl in Haf. injection Haf as -> <-.
    apply ascending_app in Hasc. destruct Hasc as [_ [Hafter Hcross]].
    assert (Hx : keys_lt e e').
    { apply ascending_cons in Hafter. destruct Hafter as [_ Hafter].
      apply Hafter. now left. }
    exists (p :: pre ++ [leaf]), 0. split.
    + unfold Cursor.next. cbn [Cursor.path Cursor.entry Cursor.entry_number].
      rewrite list_get_last. cbn [bind]. rewrite Hleaf.
      rewrite Hpg. cbn [bind]. rewrite Hp'. cbn [bind].
      rewrite Hdesc. cbn [bind fst snd]. rewrite Hget. cbn [bind].
      repeat (rewrite <- app_assoc; simpl). reflexivity.
    + apply (prev_climbs_to index fuel above p (pre ++ [leaf]) 0 e' e
                            (length es1) (es1 ++ e :: es2) h pg rest
                            Hloc).
      * apply (ascending_middle [e] _ (interleave es2 ls2)). exact Hafter.
      * exact Hes.
      * exact Hleaf.
      * apply (climb_index p es1 e es2 (key e') Hes).
        -- intros y Hy. apply in_app_or in Hy.
           destruct Hy as [Hy | [<- | []]]; [| exact Hx].
           apply (keys_lt_trans y e e'); [| exact Hx].
           apply Hcross; [| now left]. apply in_or_app. right.
           apply In_interleave;
             [eapply Forall2_length; eassumption | assumption].
        -- intros y Hy.
           apply ascending_cons in Hafter. destruct Hafter as [Hafter _].
           apply ascending_app in Hafter.
           destruct Hafter as [_ [_ Hafter]].
           apply Hafter; [now left |].
           apply In_interleave;
             [eapply Forall2_length; eassumption | assumption].
      * rewrite nth_error_app2 by lia. now rewrite Nat.sub_diag.
  - (* under the leftmost child *)
    destruct af as [| x af''].
    + simpl in Haf.
      destruct (interleave_cons_inv index h _ _ _ _ Hk Haf)
        as [es' [l1 [ls' [-> [-> [-> [Hk1 Hk']]]]]]].
      assert (Hasc' : ascending (bf ++ [e])).
      { apply (ascending_middle [] _ (interleave (e' :: es') (l1 :: ls'))).
        simpl. now rewrite <- app_assoc. }
      exists [p], 0. split.
      * apply (next_climbs_to index fuel above p rel en e e' 0 (e' :: es')
                              h (Page.ppointer p) bf); auto.
        apply find_index_branch_head.
        apply ascending_app in Hasc. destruct Hasc as [_ [Hasc _]].
        apply ascending_cons in Hasc. destruct Hasc as [_ Hasc].
        apply Hasc. now left.
      * apply (prev_descends_to fuel above p e' 0 h (Page.ppointer p) rel en
                                bf e Hloc Hleaf eq_refl ltac:(lia)).
    + simpl in Haf. injection Haf as -> <-.
      assert (Hasc' : ascending (bf ++ e :: e' :: af'')).
      { apply (ascending_middle [] _ (interleave es ls)).
        simpl. now rewrite <- app_assoc. }
      destruct (IH e' af'' fuel (above ++ [p]) eq_refl Hasc' ltac:(lia))
        as [rel' [en' [Hnext Hprev]]].
      exists (p :: rel'), en'.
      rewrite <- !app_assoc in Hnext, Hprev. simpl in Hnext, Hprev.
      split; assumption.
  - (* under the child of entry [em] *)
    destruct af as [| x af''].
    + simpl in Haf.
      destruct (interleave_cons_inv index h _ _ _ _ Hk2 Haf)
        as [es' [l1 [ls' [-> [-> [-> [Hke Hk']]]]]]].
      assert (Hasc' : ascending (bf ++ [e])).
      { apply (ascending_middle (l0 ++ interleave es1 ls1 ++ [em]) _
                                (interleave (e' :: es') (l1 :: ls'))).
        replace ((l0 ++ interleave es1 ls1 ++ [em])
                   ++ (bf ++ [e]) ++ interleave (e' :: es') (l1 :: ls'))
          with ((l0 ++ interleave es1 ls1 ++ em :: bf)
                  ++ e :: [] ++ interleave (e' :: es') (l1 :: ls'));
          [assumption |].
        repeat (rewrite <- app_assoc; simpl). reflexivity. }
      assert (Hes' : Page.get_entries p = Ok ((es1 ++ [em]) ++ e' :: es'))
        by (now rewrite <- app_assoc).
      apply ascending_app in Hasc. destruct Hasc as [_ [Hasc Hcross]].
      exists [p], (Z.of_nat (length (es1 ++ [em]))). split.
      * apply (next_climbs_to index fuel above p rel en e e'
                              (length (es1 ++ [em]))
                              ((es1 ++ [em]) ++ e' :: es') h pg bf
                              Hloc Hasc' Hes' Hleaf).
        -- apply (find_index_branch_first_greater (es1 ++ [em]) e' es' 0).
           ++ intros y Hy. apply Hcross; [| now left].
              apply in_or_app. right. apply in_or_app.
              apply in_app_or in Hy. destruct Hy as [Hy | [<- | []]].
              ** left. apply In_interleave;
                   [eapply Forall2_length; eassumption | assumption].
              ** right. now left.
           ++ apply ascending_cons in Hasc. destruct Hasc as [_ Hasc].
              apply Hasc. now left.
        -- rewrite nth_error_app2 by lia. now rewrite Nat.sub_diag.
      * apply (prev_descends_to fuel above p e'
                                (Z.of_nat (length (es1 ++ [em]))) h pg rel en
                                bf e Hloc Hleaf); [| lia].
        replace (Z.of_nat (length (es1 ++ [em])) =? 0) with false
          by (symmetry; apply Z.eqb_neq; rewrite length_app; simpl; lia).
        replace (Z.of_nat (length (es1 ++ [em])) - 1)
          with (Z.of_nat (length es1))
          by (rewrite length_app; simpl; lia).
        rewrite (get_entry_middle p _ _ _ Hes). exact Hpg.
    + simpl in Haf. injection Haf as -> <-.
      assert (Hasc' : ascending (bf ++ e :: e' :: af'')).
      { apply (ascending_middle (l0 ++ interleave es1 ls1 ++ [em]) _
                                (interleave es2 ls2)).
        replace ((l0 ++ interleave es1 ls1 ++ [em])
                   ++ (bf ++ e :: e' :: af'') ++ interleave es2 ls2)
          with ((l0 ++ interleave es1 ls1 ++ em :: bf)
                  ++ e :: (e' :: af'') ++ interleave es2 ls2);
          [assumption |].
        repeat (rewrite <- app_assoc; simpl). reflexivity. }
      destruct (IH e' af'' fuel (above ++ [p]) eq_refl Hasc' ltac:(lia))
        as [rel' [en' [Hnext Hprev]]].
      exists (p :: rel'), en'.
      rewrite <- !app_assoc in Hnext, Hprev. simpl in Hnext, Hprev.
      split; assumption.
Qed.

Lemma prev_next (h : nat) (n : Z) (rel : list Page.t) (en : Z)
      (bf : list Entry) (e : Entry) (af : list Entry) :
  located index h n rel en bf e af ->
  forall (e' : Entry) (bf' : list Entry) (fuel : nat) (above : list Page.t),
    bf = bf' ++ [e'] ->
    ascending (bf ++ e :: af) ->
    (h <= fuel)%nat ->
    exists rel' en',
      Cursor.prev fuel index (Cursor.mk (above ++ rel) e en)
      = Ok (Cursor.mk (above ++ rel') e' en')
      /\ Cursor.next fuel index (Cursor.mk (above ++ rel') e' en')
         = Ok (Cursor.mk (above ++ rel) e en).
Proof.
  induction 1 as [n p es1 e es2 Hp Hleaf Hes
                 | h n p es1 e es2 l0 ls1 l ls2 Hp Hleaf Hes Hleft Hk1 Hk Hk2
                 | h n p es ls rel en bf e af Hp Hleaf Hes Hne Hk Hloc IH
                 | h n p es1 em es2 l0 ls1 ls2 pg rel en bf e af
                     Hp Hleaf Hes Hleft Hk1 Hpg Hloc IH Hk2];
    intros e' bf' fuel above Hbf Hasc Hfuel.
  - (* inside a leaf *)
    subst es1.
    assert (Hes' : Page.get_entries p = Ok (bf' ++ e' :: e :: es2))
      by (now rewrite <- app_assoc in Hes).
    exists [p], (Z.of_nat (length bf')). split.
    + unfold Cursor.prev. cbn [Cursor.path Cursor.entry Cursor.entry_number].
      rewrite list_get_last. cbn [bind]. rewrite Hleaf.
      replace (Z.of_nat (length (bf' ++ [e'])) =? 0) with false
        by (symmetry; apply Z.eqb_neq; rewrite length_app; simpl; lia).
      replace (Z.of_nat (length (bf' ++ [e'])) - 1)
        with (Z.of_nat (length bf'))
        by (rewrite length_app; simpl; lia).
      now rewrite (get_entry_middle p _ _ _ Hes').
    + unfold Cursor.next. cbn [Cursor.path Cursor.entry Cursor.entry_number].
      rewrite list_get_last. cbn [bind]. rewrite Hleaf.
      rewrite (entry_count_length p _ Hes') by (now destruct bf').
      replace (Z.of_nat (length bf')
               =? Z.of_nat (length (bf' ++ e' :: e :: es2)) - 1) with false
        by (symmetry; apply Z.eqb_neq; rewrite length_app; simpl; lia).
      replace (Z.of_nat (length bf') + 1)
        with (Z.of_nat (length (bf' ++ [e'])))
        by (rewrite length_app; simpl; lia).
      now rewrite (get_entry_middle p _ _ _ Hes).
  - (* from a branch entry down to the greatest entry on its left *)
    rewrite Hbf in Hasc.
    apply ascending_app in Hasc. destruct Hasc as [Hasc1 [_ Hcross]].
    assert (Hlt : keys_lt e' e).
    { apply Hcross; [apply in_or_app; right |]; now left. }
    destruct (last_case es1) as [-> | [es1' [ex ->]]].
    + (* the first entry of the page: the leftmost child *)
      inversion Hk1; subst ls1. simpl in Hbf. rewrite app_nil_r in Hbf.
      destruct (subtree_page _ _ _ _ Hleft) as [p' Hp'].
      destruct (descend_max_last index h _ l0 p' fuel (above ++ [p]) Hleft Hp'
                  ltac:(lia))
        as [pre [leaf [x [rest [Hl0 [Hdesc [Hloc Hget]]]]]]].
      rewrite Hl0 in Hbf. apply app_inj_tail in Hbf.
      destruct Hbf as [<- <-].
      exists (p :: pre ++ [leaf]), (Page.entry_count leaf - 1). split.
      * unfold Cursor.prev.
        cbn [Cursor.path Cursor.entry Cursor.entry_number].
        rewrite list_get_last. cbn [bind]. rewrite Hleaf.
        cbn [bind length Z.of_nat]. rewrite Z.eqb_refl.
        cbn [bind]. rewrite Hp'. cbn [bind].
        rewrite Hdesc. cbn [bind fst snd]. rewrite Hget. cbn [bind].
        repeat (rewrite <- app_assoc; simpl). reflexivity.
      * apply (next_climbs_to index fuel above p (pre ++ [leaf])
                              (Page.entry_count leaf - 1) x e 0 (e :: es2)
                              h (Page.ppointer p) rest Hloc Hasc1 Hes Hleaf).
        -- now apply find_index_branch_head.
        -- reflexivity.
    + (* the child of the entry before *)
      destruct (kids_last index h es1' ex ls1 Hk1)
        as [ls1' [lx [-> [Hk1' Hkx]]]].
      destruct Hkx as [pgx [Hpgx Hsubx]].
      destruct (subtree_page _ _ _ _ Hsubx) as [p' Hp'].
      destruct (descend_max_last index h _ lx p' fuel (above ++ [p]) Hsubx Hp'
                  ltac:(lia))
        as [pre [leaf [x [rest [Hlx [Hdesc [Hloc Hget]]]]]]].
      rewrite interleave_last in Hbf
        by (eapply Forall2_length; eassumption).
      rewrite Hlx in Hbf.
      replace (l0 ++ interleave es1' ls1' ++ ex :: rest ++ [x])
        with ((l0 ++ interleave es1' ls1' ++ ex :: rest) ++ [x]) in Hbf
        by (repeat (rewrite <- app_assoc; simpl); reflexivity).
      apply app_inj_tail in Hbf. destruct Hbf as [<- <-].
      assert (Hes' : Page.get_entries p = Ok (es1' ++ ex :: e :: es2))
        by (now rewrite <- app_assoc in Hes).
      exists (p :: pre ++ [leaf]), (Page.entry_count leaf - 1). split.
      * unfold Cursor.prev.
        cbn [Cursor.path Cursor.entry Cursor.entry_number].
        rewrite list_get_last. cbn [bind]. rewrite Hleaf. cbn [bind].
        replace (Z.of_nat (length (es1' ++ [ex])) =? 0) with false
          by (symmetry; apply Z.eqb_neq; rewrite length_app; simpl; lia).
        replace (Z.of_nat (length (es1' ++ [ex])) - 1)
          with (Z.of_nat (length es1'))
          by (rewrite length_app; simpl; lia).
        rewrite (get_entry_middle p _ _ _ Hes'). cbn [bind].
        rewrite Hpgx. cbn [bind]. rewrite Hp'. cbn [bind].
        rewrite Hdesc. cbn [bind fst snd]. rewrite Hget. cbn [bind].
        repeat (rewrite <- app_assoc; simpl). reflexivity.
      * assert (Hasc2 : ascending (rest ++ [x])).
        { apply (ascending_middle (l0 ++ interleave es1' ls1' ++ [ex]) _ []).
          rewrite app_nil_r.
          replace ((l0 ++ interleave es1' ls1' ++ [ex]) ++ rest ++ [x])
            with ((l0 ++ interleave es1' ls1' ++ ex :: rest) ++ [x]);
            [assumption |].
          repeat (rewrite <- app_assoc; simpl). reflexivity. }
        apply (next_climbs_to index fuel above p (pre ++ [leaf])
                              (Page.entry_count leaf - 1) x e
                              (length (es1' ++ [ex]))
                              ((es1' ++ [ex]) ++ e :: es2)
                              h pgx rest Hloc Hasc2 Hes Hleaf).
        -- apply (find_index_branch_first_greater (es1' ++ [ex]) e es2 0);
             [| exact Hlt].
           intros y Hy. apply ascending_app in Hasc1.
           destruct Hasc1 as [_ [_ Hc1]]. apply Hc1; [| now left].
           apply in_or_app. right. apply in_or_app.
           apply in_app_or in Hy. destruct Hy as [Hy | [<- | []]].
           ++ left. apply In_interleave;
                [eapply Forall2_length; eassumption | assumption].
           ++ right. now left.
        -- rewrite nth_error_app2 by lia. now rewrite Nat.sub_diag.
  - (* under the leftmost child *)
    assert (Hasc' : ascending (bf ++ e :: af)).
    { apply (ascending_middle [] _ (interleave es ls)).
      simpl app at 1. now rewrite <- app_assoc. }
    destruct (IH e' bf' fuel (above ++ [p]) Hbf Hasc' ltac:(lia))
      as [rel' [en' [Hprev Hnext]]].
    exists (p :: rel'), en'.
    rewrite <- !app_assoc in Hnext, Hprev. simpl in Hnext, Hprev.
    split; assumption.
  - (* under the child of entry [em] *)
    assert (Hasc' : ascending (bf ++ e :: af)).
    { apply (ascending_middle (l0 ++ interleave es1 ls1 ++ [em]) _
                              (interleave es2 ls2)).
      replace ((l0 ++ interleave es1 ls1 ++ [em])
                 ++ (bf ++ e :: af) ++ interleave es2 ls2)
        with ((l0 ++ interleave es1 ls1 ++ em :: bf)
                ++ e :: af ++ interleave es2 ls2); [assumption |].
      repeat (rewrite <- app_assoc; simpl). reflexivity. }
    destruct (last_case bf) as [-> | [bf0 [x ->]]].
    + (* the first entry of the child: up to the entry [em] *)
      replace (l0 ++ interleave es1 ls1 ++ [em])
        with ((l0 ++ interleave es1 ls1) ++ [em]) in Hbf
        by (now rewrite <- app_assoc).
      apply app_inj_tail in Hbf. destruct Hbf as [<- <-].
      apply ascending_app in Hasc. destruct Hasc as [_ [Hafter Hcross]].
      exists [p], (Z.of_nat (length es1)). split.
      * apply (prev_climbs_to index fuel above p rel en e em (length es1)
                              (es1 ++ em :: es2) h pg af Hloc Hasc' Hes
                              Hleaf).
        -- apply (climb_index p es1 em es2 (key e) Hes).
           ++ intros y Hy. apply Hcross; [| now left].
              apply in_or_app. right. apply in_or_app.
              apply in_app_or in Hy. destruct Hy as [Hy | [<- | []]].
              ** left. apply In_interleave;
                   [eapply Forall2_length; eassumption | assumption].
              ** right. now left.
           ++ intros y Hy. apply ascending_cons in Hafter.
              destruct Hafter as [_ Hafter]. apply Hafter.
              apply in_or_app. right.
              apply In_interleave;
                [eapply Forall2_length; eassumption | assumption].
        -- rewrite nth_error_app2 by lia. now rewrite Nat.sub_diag.
      * apply (next_descends_to fuel above p em (Z.of_nat (length es1)) h pg
                                rel en e af Hloc Hleaf Hpg ltac:(lia)).
    + (* inside the child *)
      replace (l0 ++ interleave es1 ls1 ++ em :: bf0 ++ [x])
        with ((l0 ++ interleave es1 ls1 ++ em :: bf0) ++ [x]) in Hbf
        by (repeat (rewrite <- app_assoc; simpl); reflexivity).
      apply app_inj_tail in Hbf. destruct Hbf as [<- <-].
      destruct (IH x bf0 fuel (above ++ [p]) eq_refl Hasc' ltac:(lia))
        as [rel' [en' [Hprev Hnext]]].
      exists (p :: rel'), en'.
      rewrite <- !app_assoc in Hnext, Hprev. simpl in Hnext, Hprev.
      split; assumption.
Qed.

End RoundTrip.

(** X27.  On a well-formed index [prev] moves a cursor that stands on
    an entry to the entry just before it in key order, and the new
    cursor again holds the place of its entry, so that [prev] and
    [next] can be called on it in turn. *)
Theorem prev_moves_back (index : ID0.t) (h : nat) (rel : list Page.t)
        (en : Z) (bf' : list Entry) (e' e : Entry) (af : list Entry)
        (fuel : nat) :
  well_formed index h (bf' ++ e' :: e :: af) ->
  located index h (ID0.root_page index) rel en (bf' ++ [e']) e af ->
  (h <= fuel)%nat ->
  exists rel' en',
    Cursor.prev fuel index (Cursor.mk rel e en) = Ok (Cursor.mk rel' e' en')
    /\ located index h (ID0.root_page index) rel' en' bf' e' (e :: af).
Proof.
  intros [_ Hasc _] Hloc Hfuel.
  assert (Hasc' : ascending ((bf' ++ [e']) ++ e :: af))
    by (now rewrite <- app_assoc).
  destruct (prev_located index h _ rel en _ e af Hloc e' bf' fuel []
                         eq_refl Hasc' Hfuel)
    as [rel' [en' [Hprev Hloc']]].
  exists rel', en'. split; [exact Hprev | exact Hloc'].
Qed.

Lemma prev_moves_back_witness :
  exists root leaf rel' en',
    Cursor.prev 1 Fixture.scenario_D
                (Cursor.mk [root; leaf] (LeafEntry (b "h") (b "8")) 1)
    = Ok (Cursor.mk rel' (LeafEntry (b "g") (b "7")) en')
    /\ located Fixture.scenario_D 1 1 rel' en'
         [LeafEntry (b "a") (b "1"); LeafEntry (b "b") (b "2");
          BranchEntry 3 (b "c") (b "3");
          LeafEntry (b "d") (b "4"); LeafEntry (b "e") (b "5");
          BranchEntry 4 (b "f") (b "6")]
         (LeafEntry (b "g") (b "7")) [LeafEntry (b "h") (b "8")].
Proof.
  destruct scenario_D_greatest as [root [leaf [Hloc _]]].
  exists root, leaf.
  apply (prev_moves_back Fixture.scenario_D 1 [root; leaf] 1
           [LeafEntry (b "a") (b "1"); LeafEntry (b "b") (b "2");
            BranchEntry 3 (b "c") (b "3");
            LeafEntry (b "d") (b "4"); LeafEntry (b "e") (b "5");
            BranchEntry 4 (b "f") (b "6")]
           (LeafEntry (b "g") (b "7")) (LeafEntry (b "h") (b "8")) [] 1
           scenario_D_well_formed Hloc).
  lia.
Defined.

(** X28.  On a well-formed index [prev] raises [IndexError] when the
    cursor stands on the least entry. *)
Theorem prev_at_first (index : ID0.t) (h : nat) (rel : list Page.t) (en : Z)
        (e : Entry) (af : list Entry) (fuel : nat) :
  well_formed index h (e :: af) ->
  located index h (ID0.root_page index) rel en [] e af ->
  Cursor.prev fuel index (Cursor.mk rel e en) = Raise IndexError.
Proof.
  intros [_ Hasc _] Hloc.
  exact (prev_at_start index h _ rel en e af fuel Hloc Hasc).
Qed.

(** The place of the least entry of scenario D. *)
Lemma scenario_D_least :
  exists root leaf,
    located Fixture.scenario_D 1 1 [root; leaf] 0 []
      (LeafEntry (b "a") (b "1"))
      [LeafEntry (b "b") (b "2"); BranchEntry 3 (b "c") (b "3");
       LeafEntry (b "d") (b "4"); LeafEntry (b "e") (b "5");
       BranchEntry 4 (b "f") (b "6"); LeafEntry (b "g") (b "7");
       LeafEntry (b "h") (b "8")].
Proof.
  do 2 eexists.
  eapply (loc_left Fixture.scenario_D 0 1 _
            [BranchEntry 3 (b "c") (b "3"); BranchEntry 4 (b "f") (b "6")]
            [[LeafEntry (b "d") (b "4"); LeafEntry (b "e") (b "5")];
             [LeafEntry (b "g") (b "7"); LeafEntry (b "h") (b "8")]]
            [_] 0 [] (LeafEntry (b "a") (b "1"))
            [LeafEntry (b "b") (b "2")]).
  - vm_compute. reflexivity.
  - vm_compute. reflexivity.
  - vm_compute. reflexivity.
  - discriminate.
  - repeat constructor;
      (eexists; split; [reflexivity |]);
      (eapply subtree_leaf;
       [vm_compute; reflexivity | vm_compute; reflexivity
        | vm_compute; reflexivity | discriminate]).
  - eapply (loc_leaf Fixture.scenario_D 2 _ [] (LeafEntry (b "a") (b "1"))
                     [LeafEntry (b "b") (b "2")]);
      [vm_compute; reflexivity | vm_compute; reflexivity
       | vm_compute; reflexivity].
Qed.

Lemma prev_at_first_witness :
  exists root leaf,
    Cursor.prev 1 Fixture.scenario_D
                (Cursor.mk [root; leaf] (LeafEntry (b "a") (b "1")) 0)
    = Raise IndexError.
Proof.
  destruct scenario_D_least as [root [leaf Hloc]].
  exists root, leaf.
  exact (prev_at_first Fixture.scenario_D 1 [root; leaf] 0
                       (LeafEntry (b "a") (b "1")) _ 1
                       scenario_D_well_formed Hloc).
Defined.

(** X29.  On a well-formed index [prev] undoes [next]: from a cursor on
    an entry that is not the last, [next] returns a cursor on the entry
    that follows, and [prev] on that cursor returns the first cursor,
    path and entry number included. *)
Theorem next_then_prev (index : ID0.t) (h : nat) (rel : list Page.t) (en : Z)
        (bf : list Entry) (e e' : Entry) (af' : list Entry) (fuel : nat) :
  well_formed index h (bf ++ e :: e' :: af') ->
  located index h (ID0.root_page index) rel en bf e (e' :: af') ->
  (h <= fuel)%nat ->
  exists c',
    Cursor.next fuel index (Cursor.mk rel e en) = Ok c'
    /\ Cursor.entry c' = e'
    /\ Cursor.prev fuel index c' = Ok (Cursor.mk rel e en).
Proof.
  intros [_ Hasc _] Hloc Hfuel.
  destruct (next_prev index h _ rel en bf e _ Hloc e' af' fuel []
                      eq_refl Hasc Hfuel)
    as [rel' [en' [Hnext Hprev]]].
  exists (Cursor.mk rel' e' en').
  split; [exact Hnext |]. split; [reflexivity | exact Hprev].
Qed.

Lemma next_then_prev_witness :
  exists root leaf c',
    Cursor.next 1 Fixture.scenario_D
                (Cursor.mk [root; leaf] (LeafEntry (b "a") (b "1")) 0) = Ok c'
    /\ Cursor.entry c' = LeafEntry (b "b") (b "2")
    /\ Cursor.prev 1 Fixture.scenario_D c'
       = Ok (Cursor.mk [root; leaf] (LeafEntry (b "a") (b "1")) 0).
Proof.
  destruct scenario_D_least as [root [leaf Hloc]].
  exists root, leaf.
  apply (next_then_prev Fixture.scenario_D 1 [root; leaf] 0 []
                        (LeafEntry (b "a") (b "1"))
                        (LeafEntry (b "b") (b "2")) _ 1
                        scenario_D_well_formed Hloc).
  lia.
Defined.

(** X30.  On a well-formed index [next] undoes [prev]: from a cursor on
    an entry that is not the first, [prev] returns a cursor on the
    entry before, and [next] on that cursor returns the first cursor,
    path and entry number included. *)
Theorem prev_then_next (index : ID0.t) (h : nat) (rel : list Page.t) (en : Z)
        (bf' : list Entry) (e' e : Entry) (af : list Entry) (fuel : nat) :
  well_formed index h (bf' ++ e' :: e :: af) ->
  located index h (ID0.root_page index) rel en (bf' ++ [e']) e af ->
  (h <= fuel)%nat ->
  exists c',
    Cursor.prev fuel index (Cursor.mk rel e en) = Ok c'
    /\ Cursor.entry c' = e'
    /\ Cursor.next fuel index c' = Ok (Cursor.mk rel e en).
Proof.
  intros [_ Hasc _] Hloc Hfuel.
  assert (Hasc' : ascending ((bf' ++ [e']) ++ e :: af))
    by (now rewrite <- app_assoc).
  destruct (prev_next index h _ rel en _ e af Hloc e' bf' fuel []
                      eq_refl Hasc' Hfuel)
    as [rel' [en' [Hprev Hnext]]].
  exists (Cursor.mk rel' e' en').
  split; [exact Hprev |]. split; [reflexivity | exact Hnext].
Qed.

Lemma prev_then_next_witness :
  exists root leaf c',
    Cursor.prev 1 Fixture.scenario_D
                (Cursor.mk [root; leaf] (LeafEntry (b "h") (b "8")) 1) = Ok c'
    /\ Cursor.entry c' = LeafEntry (b "g") (b "7")
    /\ Cursor.next 1 Fixture.scenario_D c'
       = Ok (Cursor.mk [root; leaf] (LeafEntry (b "h") (b "8")) 1).
Proof.
  destruct scenario_D_greatest as [root [leaf [Hloc _]]].
  exists root, leaf.
  apply (prev_then_next Fixture.scenario_D 1 [root; leaf] 1
           [LeafEntry (b "a") (b "1"); LeafEntry (b "b") (b "2");
            BranchEntry 3 (b "c") (b "3");
            LeafEntry (b "d") (b "4"); LeafEntry (b "e") (b "5");
            BranchEntry 4 (b "f") (b "6")]
           (LeafEntry (b "g") (b "7")) (LeafEntry (b "h") (b "8")) [] 1
           scenario_D_well_formed Hloc).
  lia.
Defined.
